(** * ODIS pub table planner: the allocation engine of [ODIS.py]

    A shallow embedding of the [TablePlanner] class (tables, waiting and
    seated groups, assignments, combined tables) and of the operations
    [add_table], [remove_table], [add_guests], [seat_guests],
    [mark_group_left], [find_best_table_for_group], [optimize_seating] and
    [rename_group], followed by the properties of the specification.

    Python integers are [Z].  The dictionaries whose iteration order the
    code depends on ([tables], [groups]) are insertion-ordered association
    lists; the others ([assignments], [seated_groups], [combined_tables])
    are finite maps.  [assignments] is a [defaultdict(list)]: reading a
    missing key inserts an empty list, which the model writes out. *)

From Stdlib Require Import ZArith List String Ascii Bool Lia Sorted.
From stdpp Require Import base option list strings pretty gmap.
Import ListNotations.
Local Open Scope string_scope.
Local Open Scope Z_scope.

(** ** Insertion-ordered dictionaries (Python [dict]) *)

Section odict.
Context {K V : Type} `{EqDecision K}.

(** [d[k]] / [k in d] *)
Fixpoint od_get (k : K) (d : list (K * V)) : option V :=
  match d with
  | [] => None
  | (k', v) :: r => if decide (k = k') then Some v else od_get k r
  end.

(** [d[k] = v]: an existing key keeps its position, a new key goes last *)
Fixpoint od_set (k : K) (v : V) (d : list (K * V)) : list (K * V) :=
  match d with
  | [] => [(k, v)]
  | (k', v') :: r =>
      if decide (k = k') then (k, v) :: r else (k', v') :: od_set k v r
  end.

(** [del d[k]] *)
Fixpoint od_del (k : K) (d : list (K * V)) : list (K * V) :=
  match d with
  | [] => []
  | (k', v') :: r =>
      if decide (k = k') then od_del k r else (k', v') :: od_del k r
  end.

Definition od_mem (k : K) (d : list (K * V)) : bool :=
  match od_get k d with Some _ => true | None => false end.
End odict.

(** ** Strings: ['+' in s] and ["+".join(l)] *)

Fixpoint contains_plus (s : string) : bool :=
  match s with
  | EmptyString => false
  | String c s' => if Ascii.eqb c "+"%char then true else contains_plus s'
  end.

Fixpoint join_plus (l : list string) : string :=
  match l with
  | [] => ""
  | [x] => x
  | x :: rest => x +:+ "+" +:+ join_plus rest
  end.

(** ** Data model *)

Module Table.
(** A value of [self.tables]; [component_tables] is the key only combined
    tables carry. *)
Record t := mk {
  capacity : Z;
  occupied : bool;
  combined : bool;
  component_tables : option (list string);
  room : string
}.
Definition set_occupied (b : bool) (r : t) : t :=
  mk (capacity r) b (combined r) (component_tables r) (room r).
Definition set_combined (b : bool) (r : t) : t :=
  mk (capacity r) (occupied r) b (component_tables r) (room r).
End Table.

Module Group.
(** A value of [self.groups] (a waiting group). *)
Record t := mk { size : Z; name : string }.
End Group.

Module Seated.
(** A value of [self.seated_groups]. *)
Record t := mk { size : Z; name : string; table : string }.
End Seated.

Record State := mkState {
  tables : list (string * Table.t);
  assignments : gmap string (list Z);
  groups : list (Z * Group.t);
  seated_groups : gmap Z Seated.t;
  next_group_id : Z;
  combined_tables : gmap string (list string)
}.

Definition with_tables (st : State) (x : list (string * Table.t)) : State :=
  mkState x (assignments st) (groups st) (seated_groups st)
          (next_group_id st) (combined_tables st).
Definition with_assignments (st : State) (x : gmap string (list Z)) : State :=
  mkState (tables st) x (groups st) (seated_groups st)
          (next_group_id st) (combined_tables st).
Definition with_groups (st : State) (x : list (Z * Group.t)) : State :=
  mkState (tables st) (assignments st) x (seated_groups st)
          (next_group_id st) (combined_tables st).
Definition with_seated_groups (st : State) (x : gmap Z Seated.t) : State :=
  mkState (tables st) (assignments st) (groups st) x
          (next_group_id st) (combined_tables st).
Definition with_next_group_id (st : State) (x : Z) : State :=
  mkState (tables st) (assignments st) (groups st) (seated_groups st)
          x (combined_tables st).
Definition with_combined_tables (st : State) (x : gmap string (list string)) : State :=
  mkState (tables st) (assignments st) (groups st) (seated_groups st)
          (next_group_id st) x.

(** [TablePlanner.__init__] (the room catalogue is a constant that no
    modelled operation reads). *)
Definition init : State := mkState [] ∅ [] ∅ 1 ∅.

(** What a call leaves behind: a returned value, or a [KeyError] raised
    part-way, each with the state reached. *)
Inductive outcome (S A : Type) : Type :=
| Ret (a : A) (s : S)
| KeyError (s : S).
Arguments Ret {S A} a s.
Arguments KeyError {S A} s.

(** ** [defaultdict(list)] and list helpers *)

(** [self.assignments[k]] as an expression: a missing key is inserted with
    an empty list. *)
Definition dd_get (k : string) (a : gmap string (list Z)) : list Z * gmap string (list Z) :=
  match a !! k with
  | Some l => (l, a)
  | None => ([], <[k := []]> a)
  end.

(** The list [self.assignments[k]] denotes, without the insertion. *)
Definition assigned (st : State) (k : string) : list Z :=
  default [] (assignments st !! k).

(** [l.remove(x)]: drops the first occurrence. *)
Fixpoint remove_first (x : Z) (l : list Z) : list Z :=
  match l with
  | [] => []
  | y :: r => if decide (x = y) then r else y :: remove_first x r
  end.

(** [sum(self.seated_groups[gid]['size'] for gid in l if gid in self.seated_groups)] *)
Fixpoint occupancy (sg : gmap Z Seated.t) (l : list Z) : Z :=
  match l with
  | [] => 0
  | gid :: r =>
      match sg !! gid with
      | Some s => Seated.size s + occupancy sg r
      | None => occupancy sg r
      end
  end.

(** ** Operations *)

Definition add_table (st : State) (table_id : string) (capacity : Z) (room : string) : State :=
  with_tables st (od_set table_id (Table.mk capacity false false None room) (tables st)).

(** The loop of [remove_table] over the table's assigned groups. *)
Fixpoint requeue (l : list Z) (st : State) : State :=
  match l with
  | [] => st
  | group_id :: r =>
      match seated_groups st !! group_id with
      | Some group_data =>
          let st1 := with_groups st
                       (od_set group_id
                          (Group.mk (Seated.size group_data) (Seated.name group_data))
                          (groups st)) in
          requeue r (with_seated_groups st1 (delete group_id (seated_groups st1)))
      | None => requeue r st
      end
  end.

Definition remove_table (st : State) (table_id : string) : State :=
  match od_get table_id (tables st) with
  | Some _ =>
      let st1 := with_tables st (od_del table_id (tables st)) in
      match assignments st1 !! table_id with
      | Some l =>
          let st2 := requeue l st1 in
          with_assignments st2 (delete table_id (assignments st2))
      | None => st1
      end
  | None => st
  end.

Definition add_guests (st : State) (group_size : Z) (group_name : option string) : Z * State :=
  let group_id := next_group_id st in
  let st1 := with_next_group_id st (next_group_id st + 1) in
  let group_name :=
    match group_name with
    | Some n => if decide (n = "") then "Group " +:+ pretty group_id else n
    | None => "Group " +:+ pretty group_id
    end in
  (group_id, with_groups st1 (od_set group_id (Group.mk group_size group_name) (groups st1))).

Definition seat_guests (st : State) (group_id : Z) (table_id : string)
  : (bool * string) * State :=
  match od_get table_id (tables st) with
  | None => ((false, "Table does not exist"), st)
  | Some table_info =>
      match od_get group_id (groups st) with
      | None => ((false, "Group does not exist"), st)
      | Some g =>
          let group_size := Group.size g in
          let group_name := Group.name g in
          let table_capacity :=
            if Table.combined table_info && contains_plus table_id
            then Table.capacity table_info
            else Table.capacity table_info in
          if table_capacity <? group_size
          then ((false, "Group too large for table"), st)
          else
            let '(full, st1) :=
              if Table.occupied table_info then
                let '(l, a1) := dd_get table_id (assignments st) in
                let current_occupancy := occupancy (seated_groups st) l in
                (table_capacity <? current_occupancy + group_size,
                 with_assignments st a1)
              else (false, st) in
            if full then ((false, "Not enough space at table"), st1)
            else
              let '(l, a2) := dd_get table_id (assignments st1) in
              let st2 := with_assignments st1 (<[table_id := (l ++ [group_id])%list]> a2) in
              let st3 := with_tables st2
                           (od_set table_id (Table.set_occupied true table_info) (tables st2)) in
              let st4 := with_seated_groups st3
                           (<[group_id := Seated.mk group_size group_name table_id]>
                              (seated_groups st3)) in
              ((true, "Group seated successfully"),
               with_groups st4 (od_del group_id (groups st4)))
      end
  end.

(** The loop of [mark_group_left] over the component tables. *)
Fixpoint release_components (comps : list string) (tbls : list (string * Table.t))
  : list (string * Table.t) :=
  match comps with
  | [] => tbls
  | comp_table :: r =>
      match od_get comp_table tbls with
      | Some rec =>
          release_components r
            (od_set comp_table (Table.set_combined false (Table.set_occupied false rec)) tbls)
      | None => release_components r tbls
      end
  end.

Definition mark_group_left (st : State) (group_id : Z) : outcome State (bool * string) :=
  match seated_groups st !! group_id with
  | None => Ret (false, "Group not found or not seated") st
  | Some s =>
      let table_id := Seated.table s in
      let finish (st' : State) :=
        Ret (true, "Group marked as left")
            (with_seated_groups st' (delete group_id (seated_groups st'))) in
      match assignments st !! table_id with
      | Some l =>
          if bool_decide (group_id ∈ l) then
            let l' := remove_first group_id l in
            let st1 := with_assignments st (<[table_id := l']> (assignments st)) in
            match l' with
            | [] =>
                match od_get table_id (tables st1) with
                | None => KeyError st1
                | Some rec =>
                    let st2 := with_tables st1
                                 (od_set table_id (Table.set_occupied false rec) (tables st1)) in
                    if contains_plus table_id then
                      match combined_tables st2 !! table_id with
                      | Some component_tables =>
                          let st3 := with_tables st2
                                       (release_components component_tables (tables st2)) in
                          let st4 := with_tables st3 (od_del table_id (tables st3)) in
                          let st5 := with_combined_tables st4
                                       (delete table_id (combined_tables st4)) in
                          finish (with_assignments st5 (delete table_id (assignments st5)))
                      | None => finish st2
                      end
                    else finish st2
                end
            | _ :: _ => finish st1
            end
          else finish st
      | None => finish st
      end
  end.

Definition rename_group (st : State) (group_id : Z) (new_name : string) : bool * State :=
  match od_get group_id (groups st) with
  | Some g =>
      (true, with_groups st (od_set group_id (Group.mk (Group.size g) new_name) (groups st)))
  | None =>
      match seated_groups st !! group_id with
      | Some s =>
          (true, with_seated_groups st
                   (<[group_id := Seated.mk (Seated.size s) new_name (Seated.table s)]>
                      (seated_groups st)))
      | None => (false, st)
      end
  end.

(** ** Finding a table *)

(** The filter of both scans of [find_best_table_for_group]:
    ['+' in table_id or table_info.get('combined', False) or table_info['occupied']] *)
Definition skipped (table_id : string) (table_info : Table.t) : bool :=
  contains_plus table_id || Table.combined table_info || Table.occupied table_info.

(** First loop: the first free table, in dictionary order, that is large
    enough. *)
Fixpoint first_single (group_size : Z) (tbls : list (string * Table.t)) : option string :=
  match tbls with
  | [] => None
  | (table_id, table_info) :: r =>
      if skipped table_id table_info then first_single group_size r
      else if group_size <=? Table.capacity table_info then Some table_id
      else first_single group_size r
  end.

(** Second loop: [empty_tables_by_room], rooms in order of first appearance. *)
Fixpoint group_by_room (tbls : list (string * Table.t))
    (acc : list (string * list (string * Z))) : list (string * list (string * Z)) :=
  match tbls with
  | [] => acc
  | (table_id, table_info) :: r =>
      if skipped table_id table_info then group_by_room r acc
      else
        let room := Table.room table_info in
        let cur := default [] (od_get room acc) in
        group_by_room r
          (od_set room (cur ++ [(table_id, Table.capacity table_info)])%list acc)
  end.

(** [l.sort(key=..., reverse=True)]: a stable sort, largest key first;
    elements with equal keys keep their order. *)
Section sort.
Context {A : Type} (key : A -> Z).

Fixpoint insert_desc (x : A) (l : list A) : list A :=
  match l with
  | [] => [x]
  | y :: r => if key x <? key y then y :: insert_desc x r else x :: y :: r
  end.

Definition sort_desc (l : list A) : list A := foldr insert_desc [] l.
End sort.

(** Inner loop over [j]: extend the run until its capacity reaches the
    group size. *)
Fixpoint accumulate (group_size : Z) (l : list (string * Z))
    (current_sum : Z) (combined : list string) : option (list string * Z) :=
  match l with
  | [] => None
  | (table_id, capacity) :: r =>
      let current_sum := current_sum + capacity in
      let combined := (combined ++ [table_id])%list in
      if group_size <=? current_sum then Some (combined, current_sum)
      else accumulate group_size r current_sum combined
  end.

(** Outer loop over [i]: every start position of the sorted list in turn. *)
Fixpoint try_starts (group_size : Z) (l : list (string * Z)) : option (list string * Z) :=
  match l with
  | [] => None
  | _ :: r =>
      match accumulate group_size l 0 [] with
      | Some res => Some res
      | None => try_starts group_size r
      end
  end.

(** Loop over the rooms: the first room with a run wins. *)
Fixpoint find_combination (group_size : Z) (rooms : list (string * list (string * Z)))
  : option (string * list string * Z) :=
  match rooms with
  | [] => None
  | (room, empty_tables) :: r =>
      match try_starts group_size (sort_desc snd empty_tables) with
      | Some (combined, current_sum) => Some (room, combined, current_sum)
      | None => find_combination group_size r
      end
  end.

(** [for table_id in combined_tables: ... ['combined'] = True; ... ['occupied'] = True];
    a missing id raises with the tables marked so far. *)
Fixpoint mark_combined (comps : list string) (tbls : list (string * Table.t))
  : outcome (list (string * Table.t)) unit :=
  match comps with
  | [] => Ret tt tbls
  | table_id :: r =>
      match od_get table_id tbls with
      | Some rec =>
          mark_combined r
            (od_set table_id (Table.set_occupied true (Table.set_combined true rec)) tbls)
      | None => KeyError tbls
      end
  end.

Definition find_best_table_for_group (st : State) (group_size : Z) (group_id : Z)
  : outcome State (option string * bool * option (list string)) :=
  match first_single group_size (tables st) with
  | Some table_id => Ret (Some table_id, false, None) st
  | None =>
      match find_combination group_size (group_by_room (tables st) []) with
      | Some (room, combined, current_sum) =>
          match mark_combined combined (tables st) with
          | KeyError tbls => KeyError (with_tables st tbls)
          | Ret _ tbls =>
              let combined_id := join_plus combined in
              let st1 := with_tables st
                           (od_set combined_id
                              (Table.mk current_sum true true (Some combined) room) tbls) in
              let st2 := with_combined_tables st1
                           (<[combined_id := combined]> (combined_tables st1)) in
              Ret (Some combined_id, true, Some combined)
                  (with_assignments st2 (<[combined_id := []]> (assignments st2)))
          end
      | None => Ret (None, false, None) st
      end
  end.

(** ** Batch seating *)

(** The line [optimize_seating] appends to the message log,
    [f"Combined tables {combined_tables} in {room} for {group_name}"],
    kept as its three parts. *)
Record Message := mkMessage {
  msg_tables : list string;
  msg_room : string;
  msg_group : string
}.

(** An entry of the list the specification expects [optimize] to return. *)
Definition OptimizeEntry : Type := Z * string * bool * option (list string).

(** The body of [if table_id:] up to the deletion from [self.groups]. *)
Definition seat_found (st : State) (table_id : string) (group_id : Z)
    (group_size : Z) (group_name : string) : outcome State unit :=
  let '(l, a) := dd_get table_id (assignments st) in
  let st2 := with_assignments st (<[table_id := (l ++ [group_id])%list]> a) in
  match od_get table_id (tables st2) with
  | None => KeyError st2
  | Some rec =>
      let st3 := with_tables st2
                   (od_set table_id (Table.set_occupied true rec) (tables st2)) in
      let st4 := with_seated_groups st3
                   (<[group_id := Seated.mk group_size group_name table_id]>
                      (seated_groups st3)) in
      Ret tt (with_groups st4 (od_del group_id (groups st4)))
  end.

Fixpoint optimize_loop (todo : list (Z * Group.t)) (st : State) (log : list Message)
  : outcome (State * list Message) unit :=
  match todo with
  | [] => Ret tt (st, log)
  | (group_id, group_data) :: r =>
      match od_get group_id (groups st) with
      | None => optimize_loop r st log
      | Some _ =>
          let group_size := Group.size group_data in
          let group_name := Group.name group_data in
          match find_best_table_for_group st group_size group_id with
          | KeyError st1 => KeyError (st1, log)
          | Ret (None, _, _) st1 => optimize_loop r st1 log
          | Ret (Some table_id, is_combined, combined_tables) st1 =>
              if decide (table_id = "") then optimize_loop r st1 log
              else
                match seat_found st1 table_id group_id group_size group_name with
                | KeyError st2 => KeyError (st2, log)
                | Ret _ st2 =>
                    if is_combined then
                      match od_get table_id (tables st2) with
                      | None => KeyError (st2, log)
                      | Some rec =>
                          optimize_loop r st2
                            (log ++ [mkMessage (default [] combined_tables)
                                               (Table.room rec) group_name])%list
                      end
                    else optimize_loop r st2 log
                end
          end
      end
  end.

(** [optimize_seating] has no [return] statement: the call evaluates to
    Python's [None], written [None] here, whatever it seated. *)
Definition optimize_seating (st : State) (log : list Message)
  : outcome (State * list Message) (option (list OptimizeEntry)) :=
  let groups_to_seat := sort_desc (fun x => Group.size x.2) (groups st) in
  match optimize_loop groups_to_seat st log with
  | Ret _ s => Ret None s
  | KeyError s => KeyError s
  end.

(** * Notions used by the properties *)

(** The calls the engine rejects: [seat_guests] and [mark_group_left]
    returning [(False, msg)], [rename_group] returning [False], and
    [remove_table] on an unknown id (it has no result to return; the caller
    reports the missing table).  [failed_call st st'] holds when such a call
    on [st] ends in [st']. *)
Inductive failed_call (st : State) : State -> Prop :=
| failed_seat group_id table_id msg st' :
    seat_guests st group_id table_id = ((false, msg), st') -> failed_call st st'
| failed_release group_id msg st' :
    mark_group_left st group_id = Ret (false, msg) st' -> failed_call st st'
| failed_rename group_id new_name st' :
    rename_group st group_id new_name = (false, st') -> failed_call st st'
| failed_remove table_id :
    od_get table_id (tables st) = None -> failed_call st (remove_table st table_id).

(** The answers of [seat_guests], named after the failure kinds of the
    specification. *)
Definition TableNotFound : bool * string := (false, "Table does not exist").
Definition GroupNotFound : bool * string := (false, "Group does not exist").
Definition GroupTooLarge : bool * string := (false, "Group too large for table").
Definition InsufficientSpace : bool * string := (false, "Not enough space at table").
Definition SeatedOk : bool * string := (true, "Group seated successfully").

(** The guests at a table, as the specification counts them: the sizes of
    the seated groups on its assignment list, added up; an id on the list
    that is not seated counts for nothing. *)
Definition guests_at (st : State) (t : string) : Z :=
  foldr (fun gid acc => default 0 (Seated.size <$> seated_groups st !! gid) + acc) 0
        (assigned st t).

(** The clause of the specification for [InsufficientSpace], as it is
    worded: the answer is given exactly when the table is already occupied
    and capacity minus current occupancy is below the size of the group. *)
Definition insufficient_space_as_stated (st : State) (g : Z) (t : string) : Prop :=
  forall rec grp,
    od_get t (tables st) = Some rec -> od_get g (groups st) = Some grp ->
    ((seat_guests st g t).1 = InsufficientSpace <->
     Table.occupied rec = true /\
     Table.capacity rec - guests_at st t < Group.size grp).

(** The test [mark_group_left] uses to recognise a combined table:
    ['+' in table_id and table_id in self.combined_tables]. *)
Definition is_combined_table (st : State) (table_id : string) : bool :=
  contains_plus table_id && bool_decide (is_Some (combined_tables st !! table_id)).

(** What [find_best_table_for_group] does to a component's record. *)
Definition marked (r : Table.t) : Table.t :=
  Table.set_occupied true (Table.set_combined true r).

(** A table both scans of [find_best_table_for_group] consider. *)
Definition free (p : string * Table.t) : bool := negb (skipped p.1 p.2).

(** Every candidate listed under a room is a free table of the registry,
    with its capacity. *)
Definition candidates_of (tbls : list (string * Table.t))
    (rooms : list (string * list (string * Z))) : Prop :=
  forall room l id cap, In (room, l) rooms -> In (id, cap) l ->
    exists rec, In (id, rec) tbls /\ skipped id rec = false /\ Table.capacity rec = cap.

(** The state [find_best_table_for_group] leaves when it combines [comps],
    [tbls] being the tables with the components marked. *)
Definition combine_state (st : State) (comps : list string) (total : Z)
    (room : string) (tbls : list (string * Table.t)) : State :=
  mkState (od_set (join_plus comps) (Table.mk total true true (Some comps) room) tbls)
          (<[join_plus comps := []]> (assignments st))
          (groups st) (seated_groups st) (next_group_id st)
          (<[join_plus comps := comps]> (combined_tables st)).

(** The three ways [find_best_table_for_group] can end. *)
Inductive find_result (st : State) (size : Z)
  : outcome State (option string * bool * option (list string)) -> Prop :=
| found_single id rec :
    In (id, rec) (tables st) -> skipped id rec = false ->
    size <= Table.capacity rec ->
    find_result st size (Ret (Some id, false, None) st)
| found_nothing :
    find_result st size (Ret (None, false, None) st)
| found_combination room comps total tbls :
    (forall c, c ∈ comps ->
       exists rec, In (c, rec) (tables st) /\ skipped c rec = false /\
                   Table.capacity rec < size) ->
    comps <> [] ->
    size <= total ->
    contains_plus (join_plus comps) = true ->
    tbls.*1 = (tables st).*1 ->
    (forall k, od_get k tbls
               = if bool_decide (k ∈ comps) then marked <$> od_get k (tables st)
                 else od_get k (tables st)) ->
    find_result st size
      (Ret (Some (join_plus comps), true, Some comps)
           (combine_state st comps total room tbls)).

(** What releasing a combination does to a component's record. *)
Definition released (r : Table.t) : Table.t :=
  Table.set_combined false (Table.set_occupied false r).

(** The state a call ends in, returned or raised. *)
Definition state_of {S A : Type} (o : outcome S A) : S :=
  match o with Ret _ s => s | KeyError s => s end.

(** ** Scenarios *)

(** Three tables of capacity 2 in one room, and a waiting group of five. *)
Definition st_abc : State :=
  add_table (add_table (add_table init "A" 2 "R") "B" 2 "R") "C" 2 "R".
Definition st_abc_five : State := (add_guests st_abc 5 None).2.

(** The group of five seated by [optimize_seating] at the combination
    ["A+B+C"], then a second group, of two, waiting. *)
Definition st_abc_seated : State := (state_of (optimize_seating st_abc_five [])).1.
Definition st_abc_second : State := (add_guests st_abc_seated 2 None).2.

(** One table of four with a couple seated at it; a party of three and a
    single guest are waiting. *)
Definition st_couple : State :=
  let st := add_table init "T1" 4 "GREENROOM" in
  let st := (add_guests st 2 (Some "Ann and Bob")).2 in
  let st := (seat_guests st 1 "T1").2 in
  let st := (add_guests st 3 None).2 in
  (add_guests st 1 None).2.

(** The same planner after a party of five has arrived: table [T1] has
    four seats, two of them taken. *)
Definition st_couple_five : State := (add_guests st_couple 5 None).2.

(** Tables [A] and [B] are combined for a group of four; [A] is then
    removed and added again and takes a couple; the group of four leaves;
    a second couple is seated at [A]. *)
Definition st_over_1 : State :=
  (add_guests (add_table (add_table init "A" 2 "R") "B" 2 "R") 4 None).2.
Definition st_over_2 : State := (state_of (optimize_seating st_over_1 [])).1.
Definition st_over_3 : State := add_table (remove_table st_over_2 "A") "A" 2 "R".
Definition st_over_4 : State := (seat_guests (add_guests st_over_3 2 None).2 2 "A").2.
Definition st_over_5 : State := state_of (mark_group_left st_over_4 1).
Definition st_over_6 : State := (add_guests st_over_5 2 None).2.
Definition st_over : State := (seat_guests st_over_6 3 "A").2.

(** One call of the engine, with any arguments. *)
Inductive call : State -> State -> Prop :=
| call_add_table st id cap room : call st (add_table st id cap room)
| call_remove_table st id : call st (remove_table st id)
| call_add_guests st size name : call st (add_guests st size name).2
| call_seat_guests st g t : call st (seat_guests st g t).2
| call_mark_group_left st g : call st (state_of (mark_group_left st g))
| call_find st size g : call st (state_of (find_best_table_for_group st size g))
| call_optimize st log : call st (state_of (optimize_seating st log)).1
| call_rename st g n : call st (rename_group st g n).2.

(** States the engine reaches from [TablePlanner()]. *)
Definition reachable : State -> Prop := rtc call init.

(** The calls the Streamlit handlers of [ODIS.py] make, with the checks
    they apply first: "Add Table" needs a non-empty id that is not in
    [tables] and a capacity of at least 1; "Remove Table" offers the ids in
    [tables]; "Add Group" needs a size of at least 1; "Assign Group to
    Table" offers the waiting groups and the tables without ['+'] that are
    not marked combined; "Mark Left" is shown for seated groups. *)
Inductive ui_call : State -> State -> Prop :=
| ui_add_table st id cap room :
    id <> "" -> od_get id (tables st) = None -> 1 <= cap ->
    ui_call st (add_table st id cap room)
| ui_remove_table st id :
    od_mem id (tables st) = true -> ui_call st (remove_table st id)
| ui_add_guests st size name :
    1 <= size -> ui_call st (add_guests st size name).2
| ui_seat_guests st g t rec :
    od_mem g (groups st) = true ->
    od_get t (tables st) = Some rec ->
    contains_plus t = false -> Table.combined rec = false ->
    ui_call st (seat_guests st g t).2
| ui_mark_group_left st g :
    is_Some (seated_groups st !! g) -> ui_call st (state_of (mark_group_left st g))
| ui_optimize st log : ui_call st (state_of (optimize_seating st log)).1
| ui_rename st g n : ui_call st (rename_group st g n).2.

(** ** Invariants of the specification *)

(** "sum(seated group sizes) <= capacity", for one table and for all. *)
Definition fits (st : State) (table_id : string) : Prop :=
  forall rec, od_get table_id (tables st) = Some rec ->
    occupancy (seated_groups st) (assigned st table_id) <= Table.capacity rec.
Definition within_capacity (st : State) : Prop := forall t, fits st t.

(** "occupied == (assignment list non-empty)", for one record and list. *)
Definition flag_matches (rec : Table.t) (l : list Z) : Prop :=
  Table.occupied rec = true <-> l <> [].
Definition occupied_iff_assigned (st : State) : Prop :=
  forall t rec, od_get t (tables st) = Some rec -> flag_matches rec (assigned st t).

(** ** Consistent states *)

(** The state after group [g], of the given size and name, is seated at
    table [t], whose record was [rec]. *)
Definition seated_state (st : State) (t : string) (rec : Table.t)
    (g : Z) (size : Z) (name : string) : State :=
  mkState (od_set t (Table.set_occupied true rec) (tables st))
          (<[t := (assigned st t ++ [g])%list]> (assignments st))
          (od_del g (groups st))
          (<[g := Seated.mk size name t]> (seated_groups st))
          (next_group_id st)
          (combined_tables st).

(** What the engine keeps true of its tables as long as no table id is
    added twice and the tables marked combined are neither seated at
    directly nor removed. *)
Record consistent (st : State) : Prop := mkConsistent {
  keys_unique : NoDup (tables st).*1;
  flag_plain : forall t rec,
    od_get t (tables st) = Some rec -> Table.combined rec = false ->
    flag_matches rec (assigned st t);
  component_empty : forall t rec,
    od_get t (tables st) = Some rec -> Table.combined rec = true ->
    contains_plus t = false -> assigned st t = [];
  components_marked : forall cid comps c,
    combined_tables st !! cid = Some comps -> c ∈ comps ->
    contains_plus c = false /\
    exists rec, od_get c (tables st) = Some rec /\ Table.combined rec = true;
  components_disjoint : forall cid1 cid2 comps1 comps2 c,
    combined_tables st !! cid1 = Some comps1 ->
    combined_tables st !! cid2 = Some comps2 ->
    c ∈ comps1 -> c ∈ comps2 -> cid1 = cid2;
  assigned_known : forall t,
    assigned st t <> [] -> od_get t (tables st) <> None
}.

(** Table [t], if it exists, is not marked combined. *)
Definition plain (st : State) (t : string) : Prop :=
  forall rec, od_get t (tables st) = Some rec -> Table.combined rec = false.

(** Calls of the engine that add only new table ids and leave the tables
    marked combined to [find_best_table_for_group], [optimize_seating] and
    [mark_group_left]. *)
Inductive careful_call : State -> State -> Prop :=
| careful_add_table st id cap room :
    od_get id (tables st) = None -> careful_call st (add_table st id cap room)
| careful_remove_table st id :
    plain st id -> careful_call st (remove_table st id)
| careful_add_guests st size name : careful_call st (add_guests st size name).2
| careful_seat_guests st g t :
    plain st t -> careful_call st (seat_guests st g t).2
| careful_mark_group_left st g : careful_call st (state_of (mark_group_left st g))
| careful_find st size g :
    careful_call st (state_of (find_best_table_for_group st size g))
| careful_optimize st log : careful_call st (state_of (optimize_seating st log)).1
| careful_rename st g n : careful_call st (rename_group st g n).2.

(** The two things an iteration of [optimize_seating] does to the state:
    search a table, and seat a group of the snapshot at the table found. *)
Inductive optimize_step (snapshot : list (Z * Group.t)) : State -> State -> Prop :=
| step_find st size g :
    optimize_step snapshot st (state_of (find_best_table_for_group st size g))
| step_seat st g data t rec :
    In (g, data) snapshot ->
    od_get g (groups st) <> None ->
    od_get t (tables st) = Some rec ->
    (exists rec0, In (t, rec0) (tables st) /\ skipped t rec0 = false /\
                  Group.size data <= Table.capacity rec0) \/
    (contains_plus t = true /\ Table.combined rec = true /\
     assigned st t = [] /\ Group.size data <= Table.capacity rec) ->
    optimize_step snapshot st
      (seated_state st t rec g (Group.size data) (Group.name data)).

(** How the ledger may differ between two states of one [optimize_seating]
    run: a group no longer waiting is seated under the size and name of the
    snapshot at a table of the registry, and stays so. *)
Record ledger_progress (snapshot : list (Z * Group.t)) (st st' : State) : Prop :=
  mkLedgerProgress {
  gone_stays_gone : forall g,
    od_get g (groups st) = None -> od_get g (groups st') = None;
  tables_stay : forall t,
    od_get t (tables st) <> None -> od_get t (tables st') <> None;
  seated_stays : forall g s,
    od_get g (groups st) = None -> seated_groups st !! g = Some s ->
    seated_groups st' !! g = Some s;
  newly_seated : forall g,
    od_get g (groups st) <> None -> od_get g (groups st') = None ->
    exists data t,
      In (g, data) snapshot /\
      seated_groups st' !! g
        = Some (Seated.mk (Group.size data) (Group.name data) t) /\
      od_get t (tables st') <> None;
  waiting_unchanged : forall g,
    od_get g (groups st') <> None ->
    od_get g (groups st') = od_get g (groups st)
}.

(** What the engine keeps true of its ledger under the same calls: a group
    listed at a table is not waiting, is listed at no other table, and has
    an id the counter has passed, as has every waiting group. *)
Record ledger_consistent (st : State) : Prop := mkLedgerConsistent {
  listed_not_waiting : forall t g,
    g ∈ assigned st t -> od_get g (groups st) = None;
  listed_once : forall t1 t2 g,
    g ∈ assigned st t1 -> g ∈ assigned st t2 -> t1 = t2;
  listed_old : forall t g, g ∈ assigned st t -> g < next_group_id st;
  waiting_old : forall g, od_get g (groups st) <> None -> g < next_group_id st
}.

(** Every key of [combined_tables] contains ['+'] and names a table marked
    combined. *)
Definition registered (st : State) : Prop :=
  forall cid comps, combined_tables st !! cid = Some comps ->
    contains_plus cid = true /\
    exists rec, od_get cid (tables st) = Some rec /\ Table.combined rec = true.

(** Careful calls whose new tables and new groups have a capacity and a
    size that are not negative. *)
Inductive sized_call : State -> State -> Prop :=
| sized_add_table st id cap room :
    od_get id (tables st) = None -> 0 <= cap ->
    sized_call st (add_table st id cap room)
| sized_remove_table st id :
    plain st id -> sized_call st (remove_table st id)
| sized_add_guests st size name :
    0 <= size -> sized_call st (add_guests st size name).2
| sized_seat_guests st g t :
    plain st t -> sized_call st (seat_guests st g t).2
| sized_mark_group_left st g : sized_call st (state_of (mark_group_left st g))
| sized_find st size g :
    sized_call st (state_of (find_best_table_for_group st size g))
| sized_optimize st log : sized_call st (state_of (optimize_seating st log)).1
| sized_rename st g n : sized_call st (rename_group st g n).2.

(** No group has a negative size, and every table holds at most its
    capacity. *)
Record capacity_ok (st : State) : Prop := mkCapacityOk {
  waiting_sizes : forall g grp, In (g, grp) (groups st) -> 0 <= Group.size grp;
  seated_sizes : forall g s, seated_groups st !! g = Some s -> 0 <= Seated.size s;
  tables_fit : within_capacity st
}.

(** * The rest of the planner *)

(** ** Utilisation *)

(** What a utilisation query gives: [Zero] for the integer [0] of its
    [return 0] statements and of the final [else 0]; [Percent] for the
    expression [(occupancy / capacity) * 100], kept as its two integer
    operands.  The expression is a float, which is [0.0] when the
    occupancy is 0; Python raises [OverflowError] instead when the
    quotient is too large for a float. *)
Inductive Utilization : Type :=
| Zero
| Percent (occupancy capacity : Z).

Definition get_table_utilization (st : State) (table_id : string) : Utilization * State :=
  match od_get table_id (tables st) with
  | None => (Zero, st)
  | Some table_info =>
      let capacity := Table.capacity table_info in
      if decide (capacity = 0) then (Zero, st)
      else
        let '(l, a) := dd_get table_id (assignments st) in
        let st1 := with_assignments st a in
        let occupancy := occupancy (seated_groups st1) l in
        (if 0 <? capacity then Percent occupancy capacity else Zero, st1)
  end.

(** [sum(...)]: the additions run from the left, starting at 0. *)
Fixpoint sum_from (acc : Z) (l : list Z) : Z :=
  match l with
  | [] => acc
  | x :: r => sum_from (acc + x) r
  end.

(** [sum(table['capacity'] for table in self.tables.values())] *)
Definition total_capacity (tbls : list (string * Table.t)) : Z :=
  sum_from 0 (map (fun p => Table.capacity p.2) tbls).

(** The loop of [get_overall_utilization] over the table ids; reading
    [self.assignments[table_id]] inserts the ids that have no list yet. *)
Fixpoint occupancy_loop (ids : list string) (st : State) (total_occupancy : Z)
  : Z * State :=
  match ids with
  | [] => (total_occupancy, st)
  | table_id :: r =>
      let '(l, a) := dd_get table_id (assignments st) in
      let st1 := with_assignments st a in
      occupancy_loop r st1 (total_occupancy + occupancy (seated_groups st1) l)
  end.

Definition get_overall_utilization (st : State) : Utilization * State :=
  let total := total_capacity (tables st) in
  if decide (total = 0) then (Zero, st)
  else
    let '(total_occupancy, st1) := occupancy_loop (tables st).*1 st 0 in
    (if 0 <? total then Percent total_occupancy total else Zero, st1).

(** ** The room catalogue *)

(** [self.rooms], set in [__init__] and never assigned again. *)
Definition rooms : list (string * list string) :=
  [("GREENROOM", ["T1A"; "T1B"; "T2"; "T3A"; "T3B"]);
   ("RESTAURANT", ["T4"; "T5"; "T6"; "T7"; "T8"; "T9A"; "T9B"]);
   ("BOTTOM BAR", ["WINDOW"; "BACK RIGHT"; "LADS"; "BLACKBOARD"]);
   ("SMALL FUNCTION", ["SQUARE"; "OVAL"; "WOODEN"])].

(** The loop of [get_room_for_table] over a catalogue. *)
Fixpoint room_of (catalogue : list (string * list string)) (table_id : string) : string :=
  match catalogue with
  | [] => "Unknown"
  | (room, ids) :: r =>
      if bool_decide (table_id ∈ ids) then room else room_of r table_id
  end.

Definition get_room_for_table (table_id : string) : string := room_of rooms table_id.

(** ** The front end *)

(** [log_message]: append, then drop the oldest entry if more than ten are
    held. *)
Definition log_message {A : Type} (messages : list A) (message : A) : list A :=
  let messages := (messages ++ [message])%list in
  if 10 <? Z.of_nat (length messages) then tail messages else messages.

(** The planner the application starts with. *)
Definition default_planner : State :=
  let st := init in
  let st := add_table st "T1A" 2 "GREENROOM" in
  let st := add_table st "T1B" 2 "GREENROOM" in
  let st := add_table st "T2" 4 "GREENROOM" in
  let st := add_table st "T3A" 6 "GREENROOM" in
  let st := add_table st "T3B" 4 "GREENROOM" in
  let st := add_table st "T4" 4 "RESTAURANT" in
  let st := add_table st "T5" 4 "RESTEAUANT" in
  let st := add_table st "T6" 4 "RESTAURANT" in
  let st := add_table st "T7" 4 "RESTAURANT" in
  let st := add_table st "T8" 4 "RESTAURANT" in
  let st := add_table st "T9A" 2 "RESTAURANT" in
  let st := add_table st "T9B" 2 "RESTAURANT" in
  let st := add_table st "WINDOW" 6 "BOTTOM BAR" in
  let st := add_table st "BACK RIGHT" 2 "BOTTOM BAR" in
  let st := add_table st "LADS" 4 "BOTTOM BAR" in
  let st := add_table st "BLACKBOARD" 4 "BOTTOM BAR" in
  let st := add_table st "SQUARE" 2 "SMALL FUNCTION" in
  let st := add_table st "OVAL" 6 "SMALL FUNCTION" in
  add_table st "WOODEN" 8 "SMALL FUNCTION".

(** What a button handler ends with: [st.rerun()], [st.error(msg)], or
    neither. *)
Inductive Feedback : Type :=
| Rerun
| Error (msg : string)
| Silent.

(** [st.session_state]: the planner and the message log. *)
Record Session := mkSession {
  planner : State;
  messages : list string
}.

(** The handler of the "Add Table" button. *)
Definition add_table_button (s : Session) (table_id : string) (capacity : Z)
    (room : string) : Session * Feedback :=
  if decide (table_id = "") then (s, Error "Please provide a table ID")
  else if od_mem table_id (tables (planner s)) then
    (s, Error ("Table " +:+ table_id +:+ " already exists"))
  else
    (mkSession (add_table (planner s) table_id capacity room)
               (log_message (messages s)
                  ("Added table " +:+ table_id +:+ " with capacity "
                   +:+ pretty capacity +:+ " to " +:+ room)),
     Rerun).

(** The handler of the "Remove Table" button. *)
Definition remove_table_button (s : Session) (remove_table_id : string)
  : Session * Feedback :=
  if od_mem remove_table_id (tables (planner s)) then
    (mkSession (remove_table (planner s) remove_table_id)
               (log_message (messages s) ("Removed table " +:+ remove_table_id)),
     Rerun)
  else (s, Error ("Table " +:+ remove_table_id +:+ " does not exist")).

(** The handler of the "Add Group" button; the text field gives [""] when
    left empty. *)
Definition add_group_button (s : Session) (group_name : string) (group_size : Z)
  : Session * Feedback :=
  let '(group_id, st) := add_guests (planner s) group_size (Some group_name) in
  let message :=
    if decide (group_name = "") then
      "Added group " +:+ pretty group_id +:+ " with " +:+ pretty group_size +:+ " people"
    else "Added " +:+ group_name +:+ " with " +:+ pretty group_size +:+ " people" in
  (mkSession st (log_message (messages s) message), Rerun).

(** The label of a waiting group in the "Select Group" box:
    [f"{name} ({size} people)"]. *)
Definition group_label (g : Group.t) : string :=
  Group.name g +:+ " (" +:+ pretty (Group.size g) +:+ " people)".

(** The dictionary [group_options], from label to group id, built in the
    order of the waiting list. *)
Definition group_options (st : State) : list (string * Z) :=
  fold_left (fun acc p => od_set (group_label p.2) p.1 acc) (groups st) [].

(** [table_options]: the ids without ['+'] whose record is not marked
    combined. *)
Definition table_options (st : State) : list string :=
  List.filter
    (fun tid =>
       negb (contains_plus tid)
       && negb (default false (Table.combined <$> od_get tid (tables st))))
    (tables st).*1.

(** [selected_group_id]: the id behind the label chosen in the "Select
    Group" box, [None] when no group is waiting. *)
Definition selected_group_id (st : State) (selected_group_label : string) : option Z :=
  match groups st with
  | [] => None
  | _ :: _ => od_get selected_group_label (group_options st)
  end.

(** The handler of the "Assign Group to Table" button; the "Select Table"
    box gives [None] when it has nothing to offer. *)
Definition assign_button (s : Session) (selected_group_id : option Z)
    (selected_table : option string) : Session * Feedback :=
  match selected_group_id with
  | None => (s, Silent)
  | Some group_id =>
      let '((success, message), st) :=
        match selected_table with
        | Some table_id => seat_guests (planner s) group_id table_id
        | None => ((false, "Table does not exist"), planner s)
        end in
      (mkSession st (log_message (messages s) message), Rerun)
  end.

(** The handler of a group's "Rename" button. *)
Definition rename_button (s : Session) (group_id : Z) (new_name : string)
  : Session * Feedback :=
  let '(ok, st) := rename_group (planner s) group_id new_name in
  if ok then
    (mkSession st (log_message (messages s) ("Renamed group to " +:+ new_name)), Rerun)
  else (mkSession st (messages s), Silent).

(** The handler of a seated group's "Mark Left" button. *)
Definition mark_left_button (s : Session) (group_id : Z) : outcome Session Feedback :=
  match mark_group_left (planner s) group_id with
  | Ret (success, message) st =>
      Ret Rerun (mkSession st (log_message (messages s) message))
  | KeyError st => KeyError (mkSession st (messages s))
  end.

(** One press of a button, with what the widgets allow: capacities and
    sizes of at least 1, a table chosen among [table_options], a group
    chosen by its label, "Mark Left" shown for seated groups only. *)
Inductive press : Session -> Session -> Prop :=
| press_add_table s table_id capacity room :
    1 <= capacity -> press s (add_table_button s table_id capacity room).1
| press_remove_table s table_id : press s (remove_table_button s table_id).1
| press_add_group s group_name group_size :
    1 <= group_size -> press s (add_group_button s group_name group_size).1
| press_assign s label selected_table :
    match selected_table with
    | Some table_id => table_id ∈ table_options (planner s)
    | None => table_options (planner s) = []
    end ->
    press s (assign_button s (selected_group_id (planner s) label) selected_table).1
| press_rename s group_id new_name : press s (rename_button s group_id new_name).1
| press_mark_left s group_id :
    is_Some (seated_groups (planner s) !! group_id) ->
    press s (state_of (mark_left_button s group_id)).

(** * Notions used by the further properties *)

(** The ledger and the assignments after any calls whatever: a waiting
    group is not seated, no id has run ahead of the counter, and a table
    with groups assigned is a table of the registry. *)
Record ledger_sound (st : State) : Prop := mkLedgerSound {
  waiting_apart : forall g,
    od_get g (groups st) <> None -> seated_groups st !! g = None;
  waiting_below : forall g,
    od_get g (groups st) <> None -> g < next_group_id st;
  seated_below : forall g s,
    seated_groups st !! g = Some s -> g < next_group_id st;
  listed_below : forall t g,
    g ∈ assigned st t -> g < next_group_id st;
  listed_exists : forall t,
    assigned st t <> [] -> od_get t (tables st) <> None
}.

(** The free tables of a room, in dictionary order, and their capacity. *)
Definition room_free (tbls : list (string * Table.t)) (room : string)
  : list (string * Table.t) :=
  List.filter (fun p => free p && bool_decide (Table.room p.2 = room)) tbls.

Definition sum_list (l : list Z) : Z := foldr Z.add 0 l.

Definition free_capacity (tbls : list (string * Table.t)) (room : string) : Z :=
  sum_list (map (fun p => Table.capacity p.2) (room_free tbls room)).

(** Two states that differ at most by empty lists entered in
    [assignments]: what a read of [self.assignments[k]] can change. *)
Definition same_view (st st' : State) : Prop :=
  tables st' = tables st /\ groups st' = groups st /\
  seated_groups st' = seated_groups st /\
  next_group_id st' = next_group_id st /\
  combined_tables st' = combined_tables st /\
  forall k, assigned st' k = assigned st k.

(** The id of the last waiting group, in the order of the waiting list,
    whose label is [label]. *)
Fixpoint last_labelled (label : string) (l : list (Z * Group.t)) : option Z :=
  match l with
  | [] => None
  | p :: r =>
      match last_labelled label r with
      | Some g => Some g
      | None => if decide (group_label p.2 = label) then Some p.1 else None
      end
  end.

(** ** Further scenarios *)

(** The planner the application starts with, with a party of ten waiting,
    and after a search has combined tables for ten. *)
Definition st_pub_party : State := (add_guests default_planner 10 None).2.
Definition st_pub_ten : State :=
  state_of (find_best_table_for_group default_planner 10 1).

(** A registry whose only table has the empty id, and a couple waiting. *)
Definition st_blank : State := (add_guests (add_table init "" 4 "R") 2 None).2.

(** Two waiting groups of the same name and size. *)
Definition st_twins : State :=
  (add_guests (add_guests init 2 (Some "Smith")).2 2 (Some "Smith")).2.

(** The session the application starts with. *)
Definition session0 : Session := mkSession default_planner [].

(** * Properties *)

(** ** Ordered dictionaries *)

Section odict_facts.
Context {K V : Type} `{EqDecision K}.
Implicit Types (d : list (K * V)).

Lemma od_get_set_eq k v d : od_get k (od_set k v d) = Some v.
Proof.
  induction d as [|[k' v'] r IH]; simpl.
  - by rewrite decide_True.
  - destruct (decide (k = k')) as [->|Hne]; simpl.
    + by rewrite decide_True.
    + by rewrite decide_False.
Qed.

Lemma od_get_set_ne k k' v d : k <> k' -> od_get k' (od_set k v d) = od_get k' d.
Proof.
  intros Hne. induction d as [|[k0 v0] r IH]; simpl.
  - by rewrite decide_False.
  - destruct (decide (k = k0)) as [->|Hk]; simpl.
    + by rewrite !decide_False.
    + destruct (decide (k' = k0)); [done|apply IH].
Qed.

Lemma od_get_set k k' v d :
  od_get k' (od_set k v d) = if decide (k = k') then Some v else od_get k' d.
Proof.
  destruct (decide (k = k')) as [->|Hne].
  - apply od_get_set_eq.
  - by apply od_get_set_ne.
Qed.

Lemma od_get_del_eq k d : od_get k (od_del k d) = None.
Proof.
  induction d as [|[k' v'] r IH]; simpl; [done|].
  destruct (decide (k = k')) as [->|Hne]; simpl; [done|].
  by rewrite decide_False.
Qed.

Lemma od_get_del_ne k k' d : k <> k' -> od_get k' (od_del k d) = od_get k' d.
Proof.
  intros Hne. induction d as [|[k0 v0] r IH]; simpl; [done|].
  destruct (decide (k = k0)) as [->|Hk]; simpl.
  - by rewrite decide_False.
  - destruct (decide (k' = k0)); [done|apply IH].
Qed.

Lemma od_get_del k k' d :
  od_get k' (od_del k d) = if decide (k = k') then None else od_get k' d.
Proof.
  destruct (decide (k = k')) as [->|Hne].
  - apply od_get_del_eq.
  - by apply od_get_del_ne.
Qed.

(** Writing back the value a key already has changes nothing. *)
Lemma od_set_id k v d : od_get k d = Some v -> od_set k v d = d.
Proof.
  induction d as [|[k' v'] r IH]; simpl; [done|].
  destruct (decide (k = k')) as [->|Hne].
  - by intros [= ->].
  - intros Hg. by rewrite IH.
Qed.

(** Two writes to the same key: the second one wins, in place. *)
Lemma od_set_set k v1 v2 d : od_set k v2 (od_set k v1 d) = od_set k v2 d.
Proof.
  induction d as [|[k' v'] r IH]; simpl.
  - by rewrite decide_True.
  - destruct (decide (k = k')) as [->|Hne]; simpl.
    + by rewrite decide_True.
    + by rewrite decide_False, IH.
Qed.

Lemma od_get_Some_in k v d : od_get k d = Some v -> In (k, v) d.
Proof.
  induction d as [|[k' v'] r IH]; simpl; [done|].
  destruct (decide (k = k')) as [->|Hne].
  - intros [= ->]. by left.
  - intros Hg. right. by apply IH.
Qed.
End odict_facts.

(** ** Helper lemmas *)

Lemma with_assignments_same st : with_assignments st (assignments st) = st.
Proof. by destruct st. Qed.

Lemma dd_get_list k st : (dd_get k (assignments st)).1 = assigned st k.
Proof. unfold dd_get, assigned. by destruct (assignments st !! k). Qed.

Lemma dd_get_lookup k k' a :
  (dd_get k a).2 !! k' = if decide (k = k') then Some (default [] (a !! k)) else a !! k'.
Proof.
  unfold dd_get. destruct (a !! k) as [l|] eqn:Hk; simpl.
  - destruct (decide (k = k')) as [<-|]; [done|done].
  - rewrite lookup_insert. destruct (decide (k = k')); done.
Qed.

Lemma dd_get_present k a l : a !! k = Some l -> dd_get k a = (l, a).
Proof. unfold dd_get. by intros ->. Qed.

Lemma dd_get_missing k a : a !! k = None -> dd_get k a = ([], <[k := []]> a).
Proof. unfold dd_get. by intros ->. Qed.

Lemma occupancy_app sg l1 l2 : occupancy sg (l1 ++ l2) = occupancy sg l1 + occupancy sg l2.
Proof.
  induction l1 as [|x l1 IH]; simpl; [done|].
  destruct (sg !! x); lia.
Qed.

Lemma remove_first_app_new x l : x ∉ l -> remove_first x (l ++ [x]) = l.
Proof.
  induction l as [|y l IH]; simpl; intros Hx.
  - by rewrite decide_True.
  - apply not_elem_of_cons in Hx as [Hne Hx].
    rewrite decide_False by done. by rewrite IH.
Qed.

(** ** Rejected calls leave the state alone *)

Lemma seat_guests_failure st g t msg st' :
  seat_guests st g t = ((false, msg), st') -> st' = st.
Proof.
  unfold seat_guests.
  destruct (od_get t (tables st)) as [rec|]; [|by intros [= _ <-]].
  destruct (od_get g (groups st)) as [grp|]; [|by intros [= _ <-]].
  replace (if Table.combined rec && contains_plus t
           then Table.capacity rec else Table.capacity rec)
    with (Table.capacity rec) by (by destruct (_ && _)).
  destruct (Table.capacity rec <? Group.size grp) eqn:Hbig; [by intros [= _ <-]|].
  destruct (Table.occupied rec).
  - destruct (assignments st !! t) as [l|] eqn:Hl.
    + rewrite (dd_get_present _ _ _ Hl), with_assignments_same.
      destruct (_ <? _ + _); [by intros [= _ <-]|].
      rewrite (dd_get_present _ _ _ Hl). by intros [=].
    + rewrite (dd_get_missing _ _ Hl). simpl occupancy.
      rewrite Z.add_0_l, Hbig.
      destruct (dd_get t _). by intros [=].
  - destruct (dd_get t (assignments st)). by intros [=].
Qed.

Lemma mark_group_left_failure st g msg st' :
  mark_group_left st g = Ret (false, msg) st' -> st' = st.
Proof.
  unfold mark_group_left.
  destruct (seated_groups st !! g) as [s|]; [|by intros [= _ <-]].
  repeat (case_match; try done).
Qed.

Lemma rename_group_failure st g n st' :
  rename_group st g n = (false, st') -> st' = st.
Proof.
  unfold rename_group.
  destruct (od_get g (groups st)); [done|].
  destruct (seated_groups st !! g); [done|]. by intros [= <-].
Qed.

Lemma remove_table_unknown st t :
  od_get t (tables st) = None -> remove_table st t = st.
Proof. unfold remove_table. by intros ->. Qed.

(** C8: whenever [seat_guests], [mark_group_left] or [rename_group] returns
    a failure, or [remove_table] is given an unknown table, the whole engine
    state (tables, groups, seated groups, assignments, combined-table
    bookkeeping, next group id) is exactly the state before the call. *)
Theorem rejected_call_keeps_state st st' : failed_call st st' -> st' = st.
Proof.
  intros [g t msg st1 H|g msg st1 H|g n st1 H|t H].
  - eapply seat_guests_failure, H.
  - eapply mark_group_left_failure, H.
  - eapply rename_group_failure, H.
  - by apply remove_table_unknown.
Qed.

(** ** What [seat_guests] answers *)

Lemma seat_guests_unfold st g t rec grp :
  od_get t (tables st) = Some rec ->
  od_get g (groups st) = Some grp ->
  seat_guests st g t =
    if Table.capacity rec <? Group.size grp then (GroupTooLarge, st)
    else if Table.occupied rec
              && (Table.capacity rec <? occupancy (seated_groups st) (assigned st t) + Group.size grp)
         then (InsufficientSpace, st)
         else (SeatedOk,
               mkState (od_set t (Table.set_occupied true rec) (tables st))
                       (<[t := (assigned st t ++ [g])%list]> (assignments st))
                       (od_del g (groups st))
                       (<[g := Seated.mk (Group.size grp) (Group.name grp) t]> (seated_groups st))
                       (next_group_id st)
                       (combined_tables st)).
Proof.
  intros Ht Hg. unfold seat_guests. rewrite Ht, Hg.
  replace (if Table.combined rec && contains_plus t
           then Table.capacity rec else Table.capacity rec)
    with (Table.capacity rec) by (by destruct (_ && _)).
  destruct (Table.capacity rec <? Group.size grp) eqn:Hbig; [done|].
  unfold assigned, dd_get.
  destruct (Table.occupied rec); simpl.
  - destruct (assignments st !! t) as [l|] eqn:Hl; simpl.
    + destruct (_ <? _ + _); [by rewrite with_assignments_same|].
      rewrite Hl. by destruct st.
    + rewrite Z.add_0_l, Hbig, lookup_insert_eq. simpl.
      rewrite insert_insert_eq. by destruct st.
  - destruct (assignments st !! t) as [l|] eqn:Hl; simpl.
    + by destruct st.
    + rewrite insert_insert_eq. by destruct st.
Qed.

Lemma occupancy_guests_at st t :
  occupancy (seated_groups st) (assigned st t) = guests_at st t.
Proof.
  unfold guests_at. induction (assigned st t) as [|gid r IH]; simpl; [done|].
  rewrite <- IH. by destruct (seated_groups st !! gid).
Qed.

(** C3, amended: [seat_guests] answers [TableNotFound] or [GroupNotFound]
    exactly when the table lookup or the waiting-group lookup fails; once
    both succeed it answers [GroupTooLarge] exactly when the group's size
    exceeds the capacity, and [InsufficientSpace] exactly when the group
    fits the capacity, the table is occupied and capacity minus the guests
    seated at it is below the size.  It succeeds exactly when the group
    fits the capacity and, at an occupied table, the space left.  On
    success the group is appended to the table's assignment list, the
    table's occupied flag is true and the rest of its record unchanged,
    and the group's record has moved from waiting to seated with the
    table id. *)
Theorem seat_guests_outcome st g t :
  let r := (seat_guests st g t).1 in
  let st' := (seat_guests st g t).2 in
  (r = TableNotFound <-> od_get t (tables st) = None) /\
  (r = GroupNotFound <->
     od_get t (tables st) <> None /\ od_get g (groups st) = None) /\
  (forall rec grp,
      od_get t (tables st) = Some rec -> od_get g (groups st) = Some grp ->
      (r = GroupTooLarge <-> Group.size grp > Table.capacity rec) /\
      (r = InsufficientSpace <->
         Group.size grp <= Table.capacity rec /\
         Table.occupied rec = true /\
         Table.capacity rec - guests_at st t < Group.size grp) /\
      (r = SeatedOk <->
         Group.size grp <= Table.capacity rec /\
         (Table.occupied rec = true ->
          Group.size grp <= Table.capacity rec - guests_at st t)) /\
      (r.1 = true ->
         r = SeatedOk /\
         assigned st' t = (assigned st t ++ [g])%list /\
         od_get t (tables st')
           = Some (Table.mk (Table.capacity rec) true (Table.combined rec)
                            (Table.component_tables rec) (Table.room rec)) /\
         od_get g (groups st') = None /\
         seated_groups st' !! g
           = Some (Seated.mk (Group.size grp) (Group.name grp) t))) /\
  (r.1 = true \/ r = TableNotFound \/ r = GroupNotFound
   \/ r = GroupTooLarge \/ r = InsufficientSpace).
Proof.
  simpl. rewrite <- occupancy_guests_at.
  destruct (od_get t (tables st)) as [rec|] eqn:Ht.
  2:{ assert (seat_guests st g t = (TableNotFound, st)) as ->
        by (unfold seat_guests; by rewrite Ht).
      simpl. split_and!; [done | split; [done|by intros [? _]] | done | auto]. }
  destruct (od_get g (groups st)) as [grp|] eqn:Hg.
  2:{ assert (seat_guests st g t = (GroupNotFound, st)) as ->
        by (unfold seat_guests; by rewrite Ht, Hg).
      simpl. split_and!; [done | done | done | auto]. }
  rewrite (seat_guests_unfold _ _ _ _ _ Ht Hg).
  split; [by repeat case_match|].
  split; [split; [by repeat case_match | by intros [_ ?]]|].
  split; [|repeat case_match; simpl; auto 6].
  intros rec' grp' [= <-] [= <-].
  destruct (Table.capacity rec <? Group.size grp) eqn:Hbig.
  { apply Z.ltb_lt in Hbig. simpl. split_and!.
    - split; [lia|done].
    - split; [done|]. intros [? _]. lia.
    - split; [done|]. intros [? _]. lia.
    - done. }
  apply Z.ltb_ge in Hbig.
  split; [split; [by repeat case_match | lia]|].
  destruct (Table.occupied rec) eqn:Hocc; simpl.
  - destruct (_ <? _ + _) eqn:Hfull; simpl.
    + apply Z.ltb_lt in Hfull. split_and!.
      * split; [|done]. intros _. split_and!; [done|done|lia].
      * split; [done|]. intros [_ H]. specialize (H eq_refl). lia.
      * done.
    + apply Z.ltb_ge in Hfull. split_and!.
      * split; [done|]. intros (_ & _ & ?). lia.
      * split; [|done]. intros _. split; [done|]. intros _. lia.
      * intros _. split; [done|]. unfold assigned at 1. simpl.
        by rewrite lookup_insert_eq, od_get_set_eq, od_get_del_eq, lookup_insert_eq.
  - split_and!.
    + split; [done|]. by intros (_ & ? & _).
    + split; [|done]. intros _. by split.
    + intros _. split; [done|]. unfold assigned at 1. simpl.
      by rewrite lookup_insert_eq, od_get_set_eq, od_get_del_eq, lookup_insert_eq.
Qed.

(** C3, as stated, fails: table [T1] has four seats and is occupied by a
    couple, so capacity minus occupancy is below the size of a party of
    five; yet the answer is [GroupTooLarge], not [InsufficientSpace],
    because the size is compared with the capacity first. *)
Lemma too_large_is_answered_first :
  od_get "T1" (tables st_couple_five) = Some (Table.mk 4 true false None "GREENROOM") /\
  od_get 4 (groups st_couple_five) = Some (Group.mk 5 "Group 4") /\
  guests_at st_couple_five "T1" = 2 /\
  seat_guests st_couple_five 4 "T1" = (GroupTooLarge, st_couple_five) /\
  ~ insufficient_space_as_stated st_couple_five 4 "T1".
Proof.
  split; [reflexivity|]. split; [reflexivity|]. split; [reflexivity|].
  split; [by vm_compute|].
  intros H. specialize (H _ _ eq_refl eq_refl).
  assert ((seat_guests st_couple_five 4 "T1").1 = InsufficientSpace) as Hr.
  { apply H. split; [reflexivity|]. vm_compute. reflexivity. }
  vm_compute in Hr. discriminate.
Qed.

(** C10: a component table of an active combination (marked combined and
    occupied, with an empty assignment list) accepts any waiting group whose
    size is at most the component's own capacity: the space check sums the
    sizes over the component's empty list. *)
Theorem seat_on_component_succeeds st g c rec grp :
  od_get c (tables st) = Some rec ->
  Table.combined rec = true ->
  Table.occupied rec = true ->
  assigned st c = [] ->
  od_get g (groups st) = Some grp ->
  Group.size grp <= Table.capacity rec ->
  exists st',
    seat_guests st g c = (SeatedOk, st') /\
    assigned st' c = [g] /\
    seated_groups st' !! g = Some (Seated.mk (Group.size grp) (Group.name grp) c) /\
    od_get g (groups st') = None.
Proof.
  intros Hc _ Hocc Hl Hg Hsz.
  rewrite (seat_guests_unfold _ _ _ _ _ Hc Hg), Hl, Hocc. simpl.
  rewrite Z.add_0_l, (proj2 (Z.ltb_ge _ _) Hsz).
  eexists; split; [done|].
  unfold assigned; simpl.
  by rewrite !lookup_insert_eq, od_get_del_eq.
Qed.

(** ** Releasing *)

Lemma release_components_lookup comps tbls c :
  od_get c (release_components comps tbls)
  = if bool_decide (c ∈ comps) then released <$> od_get c tbls else od_get c tbls.
Proof.
  revert tbls. induction comps as [|x r IH]; intros tbls; simpl; [done|].
  assert (forall tbls',
             od_get c tbls' = (if decide (x = c) then released <$> od_get c tbls
                               else od_get c tbls) ->
             od_get c (release_components r tbls')
             = if bool_decide (c ∈ x :: r) then released <$> od_get c tbls
               else od_get c tbls) as Hstep.
  { intros tbls' Hc. rewrite IH, Hc.
    destruct (decide (x = c)) as [->|Hne].
    - rewrite (bool_decide_true (c ∈ c :: r)) by left.
      destruct (bool_decide (c ∈ r)); [|done].
      by destruct (od_get c tbls).
    - destruct (decide (c ∈ r)) as [Hcr|Hcr].
      + rewrite (bool_decide_true (c ∈ r)) by done.
        by rewrite (bool_decide_true (c ∈ x :: r)) by (by right).
      + rewrite (bool_decide_false (c ∈ r)) by done.
        rewrite (bool_decide_false (c ∈ x :: r)); [done|].
        intros [?|?]%elem_of_cons; congruence. }
  destruct (od_get x tbls) as [rec|] eqn:Hx; apply Hstep.
  - rewrite od_get_set. destruct (decide (x = c)) as [->|]; [|done].
    by rewrite Hx.
  - destruct (decide (x = c)) as [->|]; [|done]. by rewrite Hx.
Qed.

(** C5: when the only group of a combined table leaves, every component
    table of the registry is back to unoccupied and not combined (its
    capacity and room untouched), and the combined table's id is gone from
    the tables, from the assignments and from the combined-table
    bookkeeping. *)
Theorem release_sole_occupant_tears_down st g s cid comps rec :
  seated_groups st !! g = Some s ->
  Seated.table s = cid ->
  od_get cid (tables st) = Some rec ->
  is_combined_table st cid = true ->
  combined_tables st !! cid = Some comps ->
  assignments st !! cid = Some [g] ->
  exists st',
    mark_group_left st g = Ret (true, "Group marked as left") st' /\
    od_get cid (tables st') = None /\
    assignments st' !! cid = None /\
    combined_tables st' !! cid = None /\
    seated_groups st' !! g = None /\
    (forall c r, c ∈ comps -> c <> cid -> od_get c (tables st) = Some r ->
       od_get c (tables st') = Some (released r)) /\
    (forall c r, c ∈ comps -> od_get c (tables st') = Some r ->
       Table.occupied r = false /\ Table.combined r = false).
Proof.
  intros Hs <- Hrec Hcomb Hcomps Hl.
  unfold is_combined_table in Hcomb. apply andb_true_iff in Hcomb as [Hplus _].
  unfold mark_group_left. rewrite Hs, Hl.
  rewrite bool_decide_true by left. simpl.
  rewrite decide_True by done. simpl. rewrite Hrec, Hplus, Hcomps.
  eexists; split; [done|]. simpl.
  rewrite od_get_del_eq, !lookup_delete_eq.
  split_and!; try done.
  - intros c r Hc Hne Hr.
    rewrite od_get_del_ne by done.
    rewrite release_components_lookup, bool_decide_true by done.
    rewrite od_get_set_ne by done. by rewrite Hr.
  - intros c r Hc.
    rewrite od_get_del. destruct (decide (Seated.table s = c)); [done|].
    rewrite release_components_lookup, bool_decide_true by done.
    destruct (od_get c _) as [r0|]; [|done]. by intros [= <-].
Qed.

(** Releasing a group right after it was seated, on a table that is not
    torn down: the tables are as before the seat, whatever the table held. *)
Lemma release_after_seat st g t rec size name :
  od_get t (tables st) = Some rec ->
  is_combined_table st t = false ->
  flag_matches rec (assigned st t) ->
  g ∉ assigned st t ->
  mark_group_left (seated_state st t rec g size name) g
  = Ret (true, "Group marked as left")
        (mkState (tables st)
                 (<[t := assigned st t]> (assignments st))
                 (od_del g (groups st))
                 (delete g (seated_groups st))
                 (next_group_id st)
                 (combined_tables st)).
Proof.
  intros Ht Hnc Hocc Hnew. unfold flag_matches in Hocc.
  unfold mark_group_left, seated_state. simpl.
  rewrite !lookup_insert_eq. simpl.
  rewrite bool_decide_true by (apply elem_of_app; right; left).
  rewrite remove_first_app_new by done.
  rewrite insert_insert_eq.
  destruct (assigned st t) as [|x l] eqn:Hl.
  - rewrite od_get_set_eq.
    assert (Table.occupied rec = false) as Hfree.
    { destruct (Table.occupied rec); [|done]. by destruct (proj1 Hocc). }
    assert (Table.set_occupied false (Table.set_occupied true rec) = rec) as ->.
    { destruct rec; simpl in *; by subst. }
    rewrite od_set_set, (od_set_id _ _ _ Ht).
    unfold is_combined_table in Hnc.
    destruct (contains_plus t); simpl in *.
    + destruct (combined_tables st !! t) eqn:Hc.
      { by rewrite bool_decide_true in Hnc. }
      unfold with_seated_groups. simpl. by rewrite delete_insert_eq.
    + unfold with_seated_groups. simpl. by rewrite delete_insert_eq.
  - assert (Table.occupied rec = true) as Hbusy by (by apply Hocc).
    assert (Table.set_occupied true rec = rec) as ->.
    { destruct rec; simpl in *; by subst. }
    unfold with_seated_groups. simpl.
    by rewrite (od_set_id _ _ _ Ht), delete_insert_eq.
Qed.

(** Where the round trip holds: on a table that is not a combined table
    and whose occupied flag says whether its assignment list is non-empty,
    seating a waiting group and releasing it at once gives back the table's
    record (its occupied flag included) and its assignment list as they
    were before the seat. *)
Theorem seat_then_release_restores st g t rec grp st1 :
  od_get t (tables st) = Some rec ->
  is_combined_table st t = false ->
  (Table.occupied rec = true <-> assigned st t <> []) ->
  od_get g (groups st) = Some grp ->
  g ∉ assigned st t ->
  seat_guests st g t = (SeatedOk, st1) ->
  exists st2,
    mark_group_left st1 g = Ret (true, "Group marked as left") st2 /\
    od_get t (tables st2) = Some rec /\
    assigned st2 t = assigned st t.
Proof.
  intros Ht Hnc Hocc Hg Hnew.
  rewrite (seat_guests_unfold _ _ _ _ _ Ht Hg).
  repeat case_match; try done. intros [= <-].
  fold (seated_state st t rec g (Group.size grp) (Group.name grp)).
  rewrite (release_after_seat st g t rec _ _ Ht Hnc Hocc Hnew).
  eexists. split; [done|]. split; [done|].
  unfold assigned at 1. simpl. by rewrite lookup_insert_eq.
Qed.

(** ** Where the invariants of the specification break *)

Lemma ui_call_call st st' : ui_call st st' -> call st st'.
Proof. destruct 1; constructor. Qed.

Lemma st_over_ui_reachable : rtc ui_call init st_over.
Proof.
  assert (ui_call init (add_table init "A" 2 "R")) as H1
    by (by apply ui_add_table).
  assert (ui_call (add_table init "A" 2 "R")
            (add_table (add_table init "A" 2 "R") "B" 2 "R")) as H2
    by (by apply ui_add_table).
  assert (ui_call (add_table (add_table init "A" 2 "R") "B" 2 "R") st_over_1) as H3
    by (by apply ui_add_guests).
  assert (ui_call st_over_1 st_over_2) as H4 by apply ui_optimize.
  assert (ui_call st_over_2 (remove_table st_over_2 "A")) as H5
    by (by apply ui_remove_table).
  assert (ui_call (remove_table st_over_2 "A") st_over_3) as H6
    by (by apply ui_add_table).
  assert (ui_call st_over_3 (add_guests st_over_3 2 None).2) as H7
    by (by apply ui_add_guests).
  assert (ui_call (add_guests st_over_3 2 None).2 st_over_4) as H8
    by (by apply (ui_seat_guests _ 2 "A" (Table.mk 2 false false None "R"))).
  assert (ui_call st_over_4 st_over_5) as H9
    by (apply ui_mark_group_left; by eexists).
  assert (ui_call st_over_5 st_over_6) as H10 by (by apply ui_add_guests).
  assert (ui_call st_over_6 st_over) as H11
    by (by apply (ui_seat_guests _ 3 "A" (Table.mk 2 false false None "R"))).
  repeat (eapply rtc_l; [eassumption|]). apply rtc_refl.
Qed.

(** C1 (the code breaks it): after two tables were combined, one of them
    removed and added again, used for a couple, and the combination
    released, [seat_guests] puts a second couple at the table of two without
    looking at its assignment list.  Every call passes the checks of the
    handlers; at the end table [A], of capacity 2, holds groups 2 and 3,
    four guests. *)
Theorem overbooked_after_release :
  rtc ui_call init st_over /\
  within_capacity st_over_6 /\
  seat_guests st_over_6 3 "A" = (SeatedOk, st_over) /\
  od_get "A" (tables st_over) = Some (Table.mk 2 true false None "R") /\
  assigned st_over "A" = [2; 3] /\
  occupancy (seated_groups st_over) (assigned st_over "A") = 4 /\
  ~ within_capacity st_over.
Proof.
  split; [apply st_over_ui_reachable|].
  split.
  { intros t rec Hrec.
    assert (t = "B" \/ t = "A") as [-> | ->].
    { apply od_get_Some_in in Hrec. vm_compute in Hrec.
      destruct Hrec as [[= <- _]|[[= <- _]|[]]]; auto. }
    all: vm_compute in Hrec; injection Hrec as <-; vm_compute; discriminate. }
  split; [by vm_compute|].
  split; [reflexivity|]. split; [reflexivity|]. split; [reflexivity|].
  intros H. specialize (H "A" _ eq_refl). vm_compute in H. by apply H.
Qed.

Lemma st_over_6_ui_reachable : rtc ui_call init st_over_6.
Proof.
  assert (ui_call init (add_table init "A" 2 "R")) as H1
    by (by apply ui_add_table).
  assert (ui_call (add_table init "A" 2 "R")
            (add_table (add_table init "A" 2 "R") "B" 2 "R")) as H2
    by (by apply ui_add_table).
  assert (ui_call (add_table (add_table init "A" 2 "R") "B" 2 "R") st_over_1) as H3
    by (by apply ui_add_guests).
  assert (ui_call st_over_1 st_over_2) as H4 by apply ui_optimize.
  assert (ui_call st_over_2 (remove_table st_over_2 "A")) as H5
    by (by apply ui_remove_table).
  assert (ui_call (remove_table st_over_2 "A") st_over_3) as H6
    by (by apply ui_add_table).
  assert (ui_call st_over_3 (add_guests st_over_3 2 None).2) as H7
    by (by apply ui_add_guests).
  assert (ui_call (add_guests st_over_3 2 None).2 st_over_4) as H8
    by (by apply (ui_seat_guests _ 2 "A" (Table.mk 2 false false None "R"))).
  assert (ui_call st_over_4 st_over_5) as H9
    by (apply ui_mark_group_left; by eexists).
  assert (ui_call st_over_5 st_over_6) as H10 by (by apply ui_add_guests).
  repeat (eapply rtc_l; [eassumption|]). apply rtc_refl.
Qed.

(** C9 (the code breaks it): in the state the same calls reach, table [A]
    is not combined, holds group 2 and is flagged unoccupied, the release
    of the combination having cleared its flag.  Seating group 3 at [A]
    succeeds and releasing it at once succeeds; the assignment list is
    [[2]] again, but the occupied flag, false before the seat, is now
    true. *)
Theorem round_trip_leaves_flag_set :
  rtc ui_call init st_over_6 /\
  od_get "A" (tables st_over_6) = Some (Table.mk 2 false false None "R") /\
  assigned st_over_6 "A" = [2] /\
  od_get 3 (groups st_over_6) = Some (Group.mk 2 "Group 3") /\
  seat_guests st_over_6 3 "A" = (SeatedOk, st_over) /\
  exists st2,
    mark_group_left st_over 3 = Ret (true, "Group marked as left") st2 /\
    assigned st2 "A" = [2] /\
    od_get "A" (tables st2) = Some (Table.mk 2 true false None "R") /\
    od_get "A" (tables st2) <> od_get "A" (tables st_over_6).
Proof.
  split; [apply st_over_6_ui_reachable|].
  split; [reflexivity|]. split; [reflexivity|]. split; [reflexivity|].
  split; [by vm_compute|].
  eexists. split; [by vm_compute|].
  split; [reflexivity|]. split; [reflexivity|].
  vm_compute. discriminate.
Qed.

Lemma add_table_lookup st id cap room :
  od_get id (tables (add_table st id cap room))
  = Some (Table.mk cap false false None room).
Proof. unfold add_table. simpl. apply od_get_set_eq. Qed.

Lemma add_table_other st id cap room id' :
  id <> id' ->
  od_get id' (tables (add_table st id cap room)) = od_get id' (tables st).
Proof. intros Hne. unfold add_table. simpl. by apply od_get_set_ne. Qed.

(** C6 (the code breaks it): [add_table] has no duplicate check.  Given the
    id of table [T1], which has capacity 4 and a couple seated, it answers
    nothing and replaces the record: capacity 9, another room, and
    unoccupied although group 1 is still assigned to the table. *)
Theorem add_table_replaces_existing :
  od_get "T1" (tables st_couple) = Some (Table.mk 4 true false None "GREENROOM") /\
  od_get "T1" (tables (add_table st_couple "T1" 9 "RESTAURANT"))
    = Some (Table.mk 9 false false None "RESTAURANT") /\
  assigned (add_table st_couple "T1" 9 "RESTAURANT") "T1" = [1] /\
  add_table st_couple "T1" 9 "RESTAURANT" <> st_couple.
Proof.
  split; [reflexivity|]. split; [apply add_table_lookup|]. split; [reflexivity|].
  intros H. apply (f_equal (fun s => od_get "T1" (tables s))) in H.
  rewrite add_table_lookup in H. vm_compute in H. discriminate.
Qed.

Lemma st_abc_seated_reachable : reachable st_abc_seated.
Proof.
  unfold reachable.
  eapply rtc_l; [apply (call_add_table _ "A" 2 "R")|].
  eapply rtc_l; [apply (call_add_table _ "B" 2 "R")|].
  eapply rtc_l; [apply (call_add_table _ "C" 2 "R")|].
  eapply rtc_l; [apply (call_add_guests _ 5 None)|].
  eapply rtc_l; [apply (call_optimize _ [])|].
  apply rtc_refl.
Qed.

(** C2, as stated, fails on a reachable state: once [optimize_seating] has
    combined [A], [B] and [C] for a group of five, component [A] is marked
    occupied while no group is assigned to it. *)
Lemma component_occupied_without_groups :
  reachable st_abc_seated /\
  od_get "A" (tables st_abc_seated) = Some (Table.mk 2 true true None "R") /\
  assigned st_abc_seated "A" = [] /\
  ~ occupied_iff_assigned st_abc_seated.
Proof.
  split; [apply st_abc_seated_reachable|].
  split; [reflexivity|]. split; [reflexivity|].
  intros H. specialize (H "A" _ eq_refl). by apply H.
Qed.

(** C7, as stated, fails: [optimize_seating] moves group 1 from waiting to
    seated and returns no list at all. *)
Lemma optimize_returns_no_list :
  od_get 1 (groups st_abc_five) = Some (Group.mk 5 "Group 1") /\
  (exists log, optimize_seating st_abc_five [] = Ret None (st_abc_seated, log)) /\
  od_get 1 (groups st_abc_seated) = None /\
  seated_groups st_abc_seated !! 1 = Some (Seated.mk 5 "Group 1" "A+B+C") /\
  forall entries s, optimize_seating st_abc_five [] <> Ret (Some entries) s.
Proof.
  split; [reflexivity|].
  split; [eexists; by vm_compute|].
  split; [reflexivity|]. split; [reflexivity|].
  intros entries s H. vm_compute in H. discriminate.
Qed.

(** ** Facts about the search *)

Lemma od_in_set {K V} `{EqDecision K} (k k' : K) (v v' : V) d :
  In (k', v') (od_set k v d) -> (k' = k /\ v' = v) \/ In (k', v') d.
Proof.
  induction d as [|[k0 v0] r IH]; simpl.
  - intros [[= <- <-]|[]]. by left.
  - destruct (decide (k = k0)) as [->|Hne]; simpl.
    + intros [[= <- <-]|Hin]; [by left|right; by right].
    + intros [Heq|Hin]; [right; by left|].
      destruct (IH Hin) as [?|?]; [by left|right; by right].
Qed.

Lemma od_get_in_unique {K V} `{EqDecision K} (k : K) (v : V) d :
  NoDup d.*1 -> In (k, v) d -> od_get k d = Some v.
Proof.
  induction d as [|[k0 v0] r IH]; csimpl; [done|].
  intros [Hk0 Hr]%NoDup_cons [[= -> ->]|Hin].
  - by rewrite decide_True.
  - rewrite decide_False; [by apply IH|].
    intros ->. apply Hk0. apply list_elem_of_In.
    change k0 with (k0, v).1. by apply in_map.
Qed.

Lemma od_get_is_key {K V} `{EqDecision K} (k : K) (v : V) d :
  In (k, v) d -> od_get k d <> None.
Proof.
  induction d as [|[k0 v0] r IH]; simpl; [done|].
  intros [[= -> ->]|Hin].
  - by rewrite decide_True.
  - destruct (decide (k = k0)); [done|by apply IH].
Qed.

Lemma od_set_keys_present {K V} `{EqDecision K} (k : K) (v v0 : V) d :
  od_get k d = Some v0 -> (od_set k v d).*1 = d.*1.
Proof.
  induction d as [|[k1 v1] r IH]; csimpl; [done|].
  destruct (decide (k = k1)) as [->|Hne]; csimpl; [done|].
  intros Hg. by rewrite IH.
Qed.

Lemma od_set_keys_missing {K V} `{EqDecision K} (k : K) (v : V) d :
  od_get k d = None -> (od_set k v d).*1 = (d.*1 ++ [k])%list.
Proof.
  induction d as [|[k1 v1] r IH]; csimpl; [done|].
  destruct (decide (k = k1)) as [->|Hne]; csimpl; [done|].
  intros Hg. by rewrite IH.
Qed.

Lemma od_get_None_not_key {K V} `{EqDecision K} (k : K) (d : list (K * V)) :
  od_get k d = None -> k ∉ d.*1.
Proof.
  induction d as [|[k1 v1] r IH]; csimpl.
  - intros _. apply not_elem_of_nil.
  - destruct (decide (k = k1)) as [->|Hne]; [done|].
    intros Hg. apply not_elem_of_cons. split; [done|by apply IH].
Qed.

Lemma od_set_NoDup {K V} `{EqDecision K} (k : K) (v : V) d :
  NoDup d.*1 -> NoDup (od_set k v d).*1.
Proof.
  intros Hd. destruct (od_get k d) as [v0|] eqn:Hk.
  - by rewrite (od_set_keys_present _ _ _ _ Hk).
  - rewrite (od_set_keys_missing _ _ _ Hk).
    apply NoDup_app. split; [done|]. split; [|apply NoDup_singleton].
    intros x Hx ->%list_elem_of_singleton. by apply (od_get_None_not_key k d).
Qed.

Lemma od_del_keys_subset {K V} `{EqDecision K} (k k' : K) (d : list (K * V)) :
  k' ∈ (od_del k d).*1 -> k' ∈ d.*1.
Proof.
  induction d as [|[k1 v1] r IH]; csimpl; [done|].
  destruct (decide (k = k1)) as [->|Hne]; csimpl.
  - intros Hin. right. by apply IH.
  - intros [->|Hin]%elem_of_cons; [left|right; by apply IH].
Qed.

Lemma od_del_NoDup {K V} `{EqDecision K} (k : K) (d : list (K * V)) :
  NoDup d.*1 -> NoDup (od_del k d).*1.
Proof.
  induction d as [|[k1 v1] r IH]; csimpl; [done|].
  intros [Hk1 Hr]%NoDup_cons.
  destruct (decide (k = k1)) as [->|Hne]; csimpl; [by apply IH|].
  apply NoDup_cons. split; [|by apply IH].
  intros Hin. by apply Hk1, (od_del_keys_subset k).
Qed.



Lemma first_single_None size tbls id rec :
  first_single size tbls = None ->
  In (id, rec) tbls -> skipped id rec = false -> Table.capacity rec < size.
Proof.
  induction tbls as [|[id0 rec0] r IH]; simpl; [done|].
  intros Hnone [[= -> ->]|Hin] Hs.
  - rewrite Hs in Hnone.
    destruct (size <=? Table.capacity rec) eqn:Hle; [done|].
    by apply Z.leb_gt.
  - apply IH; [|done..].
    destruct (skipped id0 rec0); [done|].
    by destruct (size <=? Table.capacity rec0).
Qed.

Lemma first_single_Some size tbls id :
  first_single size tbls = Some id ->
  exists rec, In (id, rec) tbls /\ skipped id rec = false /\ size <= Table.capacity rec.
Proof.
  induction tbls as [|[id0 rec0] r IH]; simpl; [done|].
  destruct (skipped id0 rec0) eqn:Hs.
  - intros H. destruct (IH H) as (rec & ? & ? & ?). exists rec. auto.
  - destruct (size <=? Table.capacity rec0) eqn:Hle.
    + intros [= <-]. exists rec0. apply Z.leb_le in Hle. auto.
    + intros H. destruct (IH H) as (rec & ? & ? & ?). exists rec. auto.
Qed.

Lemma group_by_room_candidates tbls part acc :
  (forall p, In p part -> In p tbls) ->
  candidates_of tbls acc -> candidates_of tbls (group_by_room part acc).
Proof.
  revert acc. induction part as [|[id rec] r IH]; intros acc Hsub Hacc; simpl; [done|].
  assert (forall p, In p r -> In p tbls) as Hsub' by (intros p Hp; apply Hsub; by right).
  destruct (skipped id rec) eqn:Hs; [by apply IH|].
  apply IH; [done|].
  intros room l id' cap [[-> ->]|Hin]%od_in_set Hl.
  - apply in_app_or in Hl as [Hl|[[= <- <-]|[]]].
    + destruct (od_get (Table.room rec) acc) as [cur|] eqn:Hcur; [|done].
      apply od_get_Some_in in Hcur. by eapply Hacc.
    + exists rec. split; [apply Hsub; by left|done].
  - by eapply Hacc.
Qed.

Lemma insert_desc_in {A} (key : A -> Z) x y l :
  In y (insert_desc key x l) <-> y = x \/ In y l.
Proof.
  induction l as [|z r IH]; simpl; [intuition congruence|].
  destruct (key x <? key z); simpl; [rewrite IH|]; intuition congruence.
Qed.

Lemma sort_desc_in {A} (key : A -> Z) y l : In y (sort_desc key l) <-> In y l.
Proof.
  induction l as [|x r IH]; simpl; [done|].
  rewrite insert_desc_in, IH. intuition congruence.
Qed.

(** ** [sort_desc] is the stable sort, largest key first *)

Lemma insert_desc_perm {A} (key : A -> Z) x l : insert_desc key x l ≡ₚ x :: l.
Proof.
  induction l as [|y r IH]; simpl; [done|].
  destruct (key x <? key y); [|done].
  rewrite IH. apply Permutation_swap.
Qed.

Lemma sort_desc_perm {A} (key : A -> Z) l : sort_desc key l ≡ₚ l.
Proof.
  induction l as [|x r IH]; simpl; [done|].
  by rewrite insert_desc_perm, IH.
Qed.

Lemma insert_desc_sorted {A} (key : A -> Z) x l :
  StronglySorted (fun a b => key b <= key a) l ->
  StronglySorted (fun a b => key b <= key a) (insert_desc key x l).
Proof.
  induction 1 as [|y r Hr IH Hy]; simpl.
  - repeat constructor.
  - destruct (key x <? key y) eqn:Hlt.
    + apply Z.ltb_lt in Hlt. constructor; [done|].
      apply Forall_forall. intros z Hz%list_elem_of_In%insert_desc_in.
      destruct Hz as [->|Hz]; [lia|].
      rewrite Forall_forall in Hy. apply Hy. by apply list_elem_of_In.
    + apply Z.ltb_ge in Hlt. constructor; [by constructor|].
      constructor; [done|].
      eapply Forall_impl; [exact Hy|]. simpl. intros z Hz. lia.
Qed.

Lemma sort_desc_sorted {A} (key : A -> Z) l :
  StronglySorted (fun a b => key b <= key a) (sort_desc key l).
Proof.
  induction l as [|x r IH]; simpl; [constructor|].
  by apply insert_desc_sorted.
Qed.

Lemma insert_desc_stable {A} (key : A -> Z) k x l :
  List.filter (fun a => key a =? k) (insert_desc key x l)
  = List.filter (fun a => key a =? k) (x :: l).
Proof.
  induction l as [|y r IH]; [done|].
  cbn [insert_desc]. destruct (key x <? key y) eqn:Hlt; [|done].
  apply Z.ltb_lt in Hlt. simpl in *. rewrite IH.
  destruct (key x =? k) eqn:Hx; [|done].
  destruct (key y =? k) eqn:Hy; [|done].
  apply Z.eqb_eq in Hx, Hy. lia.
Qed.

(** Elements with equal keys keep the order they had. *)
Lemma sort_desc_stable {A} (key : A -> Z) k l :
  List.filter (fun a => key a =? k) (sort_desc key l)
  = List.filter (fun a => key a =? k) l.
Proof.
  induction l as [|x r IH]; [done|].
  cbn [sort_desc foldr]. rewrite insert_desc_stable.
  simpl. fold (sort_desc key r). by rewrite IH.
Qed.

(** ** Facts about the search, continued *)

Lemma accumulate_extends size l s acc comps total :
  accumulate size l s acc = Some (comps, total) ->
  exists extra, comps = (acc ++ extra)%list /\ extra <> [] /\
                size <= total /\
                forall c, In c extra -> exists cap, In (c, cap) l.
Proof.
  revert s acc. induction l as [|[id cap] r IH]; intros s acc; simpl; [done|].
  destruct (size <=? s + cap) eqn:Hle.
  - intros [= <- <-]. exists [id]. split; [done|]. split; [done|].
    split; [by apply Z.leb_le|].
    intros c [<-|[]]. exists cap. by left.
  - intros H. destruct (IH _ _ H) as (extra & -> & _ & Htot & Hex).
    exists (id :: extra). rewrite <- app_assoc. split; [done|]. split; [done|].
    split; [done|].
    intros c [<-|Hc]; [exists cap; by left|].
    destruct (Hex c Hc) as [cap' ?]. exists cap'. by right.
Qed.

Lemma try_starts_run size l comps total :
  try_starts size l = Some (comps, total) ->
  (forall c, In c comps -> exists cap, In (c, cap) l) /\
  size <= total /\
  ((forall id cap, In (id, cap) l -> cap < size) ->
   exists c1 c2 rest, comps = c1 :: c2 :: rest).
Proof.
  induction l as [|[id cap] r IH]; [done|].
  cbn [try_starts].
  destruct (accumulate size ((id, cap) :: r) 0 []) as [[comps' total']|] eqn:Hacc.
  - intros [= -> ->]. split; [|split].
    + destruct (accumulate_extends _ _ _ _ _ _ Hacc) as (extra & -> & _ & _ & Hex).
      intros c Hc. by apply Hex.
    + by destruct (accumulate_extends _ _ _ _ _ _ Hacc) as (_ & _ & _ & ? & _).
    + intros Hsmall. cbn [accumulate] in Hacc.
      assert (cap < size) as Hcap by (apply (Hsmall id); by left).
      apply Z.leb_gt in Hcap. rewrite Z.add_0_l, Hcap in Hacc.
      destruct (accumulate_extends _ _ _ _ _ _ Hacc) as (extra & -> & Hne & _).
      destruct extra as [|c2 rest]; [done|]. by exists id, c2, rest.
  - intros H. destruct (IH H) as (Hin & Htot & Hlen). split; [|split; [done|]].
    + intros c Hc. destruct (Hin c Hc) as [cap' ?]. exists cap'. by right.
    + intros Hsmall. apply Hlen. intros id' cap' Hi. apply (Hsmall id'). by right.
Qed.

Lemma find_combination_room size rooms room comps total :
  find_combination size rooms = Some (room, comps, total) ->
  exists l, In (room, l) rooms /\
            try_starts size (sort_desc snd l) = Some (comps, total).
Proof.
  induction rooms as [|[room0 l0] r IH]; simpl; [done|].
  destruct (try_starts size (sort_desc snd l0)) as [[comps0 total0]|] eqn:Htry.
  - intros [= <- <- <-]. exists l0. split; [by left|done].
  - intros H. destruct (IH H) as (l & ? & ?). exists l. split; [by right|done].
Qed.

Lemma contains_plus_app s1 s2 :
  contains_plus (s1 +:+ s2) = contains_plus s1 || contains_plus s2.
Proof.
  induction s1 as [|c s1 IH]; simpl; [done|].
  destruct (Ascii.eqb c "+"); [done|apply IH].
Qed.

Lemma contains_plus_join c1 c2 rest :
  contains_plus (join_plus (c1 :: c2 :: rest)) = true.
Proof.
  cbn [join_plus]. rewrite !contains_plus_app.
  simpl. by rewrite orb_true_r.
Qed.

Lemma mark_combined_lookup comps tbls :
  (forall c, c ∈ comps -> od_get c tbls <> None) ->
  exists tbls',
    mark_combined comps tbls = Ret tt tbls' /\
    forall k, od_get k tbls'
              = if bool_decide (k ∈ comps) then marked <$> od_get k tbls
                else od_get k tbls.
Proof.
  revert tbls. induction comps as [|x r IH]; intros tbls Hkeys; simpl.
  - exists tbls. by split.
  - destruct (od_get x tbls) as [rec|] eqn:Hx.
    2:{ destruct (Hkeys x); [left|done]. }
    fold (marked rec).
    destruct (IH (od_set x (marked rec) tbls)) as (tbls' & Hm & Hl).
    { intros c Hc. rewrite od_get_set. destruct (decide (x = c)); [done|].
      apply Hkeys. by right. }
    exists tbls'. split; [done|].
    intros k. rewrite Hl, od_get_set.
    destruct (decide (x = k)) as [->|Hne].
    + rewrite (bool_decide_true (k ∈ k :: r)) by left. rewrite Hx.
      by destruct (bool_decide (k ∈ r)).
    + destruct (decide (k ∈ r)) as [Hkr|Hkr].
      * rewrite (bool_decide_true (k ∈ r)) by done.
        by rewrite (bool_decide_true (k ∈ x :: r)) by (by right).
      * rewrite (bool_decide_false (k ∈ r)) by done.
        rewrite (bool_decide_false (k ∈ x :: r)); [done|].
        intros [?|?]%elem_of_cons; congruence.
Qed.

Lemma mark_combined_keys comps tbls tbls' :
  mark_combined comps tbls = Ret tt tbls' -> tbls'.*1 = tbls.*1.
Proof.
  revert tbls. induction comps as [|x r IH]; intros tbls; csimpl.
  - by intros [= <-].
  - destruct (od_get x tbls) as [rec|] eqn:Hx; [|done].
    intros H. rewrite (IH _ H). by eapply od_set_keys_present.
Qed.

Lemma find_best_table_for_group_spec st size g :
  find_result st size (find_best_table_for_group st size g).
Proof.
  unfold find_best_table_for_group.
  destruct (first_single size (tables st)) as [id|] eqn:Hsingle.
  { destruct (first_single_Some _ _ _ Hsingle) as (rec & ? & ? & ?).
    by eapply found_single. }
  destruct (find_combination size (group_by_room (tables st) []))
    as [[[room comps] total]|] eqn:Hcomb; [|apply found_nothing].
  destruct (find_combination_room _ _ _ _ _ Hcomb) as (l & Hroom & Htry).
  destruct (try_starts_run _ _ _ _ Htry) as (Hin & Htot & Hlen).
  assert (candidates_of (tables st) (group_by_room (tables st) [])) as Hcand.
  { apply group_by_room_candidates; [done|]. by intros ? ? ? ? []. }
  assert (forall c, c ∈ comps ->
            exists rec, In (c, rec) (tables st) /\ skipped c rec = false /\
                        Table.capacity rec < size) as Hfree.
  { intros c Hc%list_elem_of_In. destruct (Hin c Hc) as [cap Hcap].
    apply sort_desc_in in Hcap.
    destruct (Hcand _ _ _ _ Hroom Hcap) as (rec & Hrec & Hs & _). exists rec.
    split; [done|]. split; [done|]. by eapply first_single_None. }
  destruct Hlen as (c1 & c2 & rest & Hcomps).
  { intros id cap Hcap%sort_desc_in.
    destruct (Hcand _ _ _ _ Hroom Hcap) as (rec & Hrec & Hs & <-).
    by eapply first_single_None. }
  destruct (mark_combined_lookup comps (tables st)) as (tbls & Hmark & Hlook).
  { intros c Hc. destruct (Hfree c Hc) as (rec & Hrec & _).
    by eapply od_get_is_key. }
  rewrite Hmark.
  apply (found_combination st size room comps total tbls);
    [done|by rewrite Hcomps|done| |by eapply mark_combined_keys|done].
  rewrite Hcomps. apply contains_plus_join.
Qed.

(** [find_best_table_for_group] always returns. *)
Lemma find_best_table_for_group_returns st size g :
  exists r st', find_best_table_for_group st size g = Ret r st'.
Proof.
  destruct (find_best_table_for_group_spec st size g); eauto.
Qed.


(** ** Consistency is kept *)

Lemma assigned_insert st k l k' a g s n c :
  assigned (mkState a (<[k := l]> (assignments st)) g s n c) k'
  = if decide (k = k') then l else assigned st k'.
Proof.
  unfold assigned. simpl. rewrite lookup_insert.
  by destruct (decide (k = k')).
Qed.

Lemma assigned_delete st k k' a g s n c :
  assigned (mkState a (delete k (assignments st)) g s n c) k'
  = if decide (k = k') then [] else assigned st k'.
Proof.
  unfold assigned. simpl. rewrite lookup_delete.
  by destruct (decide (k = k')).
Qed.

Lemma consistent_init : consistent init.
Proof.
  split; simpl; try done.
  apply NoDup_nil_2.
Qed.

(** Only the tables, the assignments and the combined-table bookkeeping
    matter. *)
Lemma consistent_ext st st' :
  tables st' = tables st ->
  assignments st' = assignments st ->
  combined_tables st' = combined_tables st ->
  consistent st -> consistent st'.
Proof.
  intros Ht Ha Hc [H0 H2 H3 H4 H6 H7].
  assert (forall t, assigned st' t = assigned st t) as Has
    by (intros t; unfold assigned; by rewrite Ha).
  split; rewrite ?Ht, ?Hc; try done.
  - intros t rec. rewrite Has. apply H2.
  - intros t rec. rewrite Has. apply H3.
  - intros t. rewrite Has. apply H7.
Qed.

Lemma seated_state_consistent st t rec g size name :
  consistent st ->
  od_get t (tables st) = Some rec ->
  Table.combined rec = false \/ contains_plus t = true ->
  consistent (seated_state st t rec g size name).
Proof.
  intros [H0 H2 H3 H4 H6 H7] Ht Hkind.
  unfold seated_state. split; simpl.
  - by apply od_set_NoDup.
  - intros t' rec'. rewrite od_get_set, assigned_insert.
    destruct (decide (t = t')) as [<-|Hne]; [|apply H2].
    intros [= <-] _. split; [|done]. intros _. by destruct (assigned st t).
  - intros t' rec'. rewrite od_get_set, assigned_insert.
    destruct (decide (t = t')) as [<-|Hne]; [|apply H3].
    intros [= <-]. simpl. intros Hc Hp. destruct Hkind; congruence.
  - intros cid comps c Hcid Hc.
    destruct (H4 _ _ _ Hcid Hc) as [Hp (rec0 & Hrec0 & Hcomb)].
    split; [done|]. rewrite od_get_set.
    destruct (decide (t = c)) as [<-|Hne]; [|by exists rec0].
    exists (Table.set_occupied true rec). split; [done|]. simpl. congruence.
  - apply H6.
  - intros t'. rewrite od_get_set, assigned_insert.
    destruct (decide (t = t')) as [<-|Hne]; [done|apply H7].
Qed.

Lemma add_table_consistent st id cap room :
  consistent st -> od_get id (tables st) = None ->
  consistent (add_table st id cap room).
Proof.
  intros [H0 H2 H3 H4 H6 H7] Hnew.
  assert (assigned st id = []) as Hid.
  { destruct (assigned st id) eqn:Hl; [done|]. destruct (H7 id); [by rewrite Hl|done]. }
  assert (forall t, assigned (add_table st id cap room) t = assigned st t) as Has by done.
  split; simpl.
  - by apply od_set_NoDup.
  - intros t rec. rewrite Has, od_get_set.
    destruct (decide (id = t)) as [<-|Hne]; [|apply H2].
    intros [= <-] _. by rewrite Hid.
  - intros t rec. rewrite Has, od_get_set.
    destruct (decide (id = t)) as [<-|Hne]; [|apply H3].
    by intros [= <-].
  - intros cid comps c Hcid Hc.
    destruct (H4 _ _ _ Hcid Hc) as [Hp (rec0 & Hrec0 & Hcomb)].
    split; [done|]. exists rec0. split; [|done].
    rewrite od_get_set_ne; [done|]. intros ->. congruence.
  - apply H6.
  - intros t. rewrite Has, od_get_set.
    destruct (decide (id = t)); [done|apply H7].
Qed.

Lemma requeue_frame l st :
  tables (requeue l st) = tables st /\
  assignments (requeue l st) = assignments st /\
  combined_tables (requeue l st) = combined_tables st.
Proof.
  revert st. induction l as [|g r IH]; intros st; simpl; [done|].
  destruct (seated_groups st !! g); [|apply IH].
  destruct (IH (with_seated_groups
                  (with_groups st
                     (od_set g (Group.mk (Seated.size t) (Seated.name t)) (groups st)))
                  (delete g (seated_groups st)))) as (-> & -> & ->).
  done.
Qed.

Lemma remove_table_consistent st id :
  consistent st -> plain st id -> consistent (remove_table st id).
Proof.
  intros Hst Hplain. unfold remove_table.
  destruct (od_get id (tables st)) as [rec|] eqn:Hid; [|done].
  specialize (Hplain _ Hid).
  set (st' := match assignments (with_tables st (od_del id (tables st))) !! id with
              | Some l =>
                  with_assignments (requeue l (with_tables st (od_del id (tables st))))
                    (delete id (assignments (requeue l (with_tables st (od_del id (tables st))))))
              | None => with_tables st (od_del id (tables st))
              end).
  assert (tables st' = od_del id (tables st) /\
          combined_tables st' = combined_tables st /\
          forall t, assigned st' t = if decide (id = t) then [] else assigned st t)
    as (Ht & Hct & Has).
  { subst st'. simpl.
    destruct (assignments st !! id) as [l|] eqn:Hl; simpl.
    - destruct (requeue_frame l (with_tables st (od_del id (tables st))))
        as (-> & Ha & ->).
      split; [done|]. split; [done|].
      intros t. unfold assigned. simpl. rewrite Ha. simpl.
      rewrite lookup_delete. by destruct (decide (id = t)).
    - split; [done|]. split; [done|].
      intros t. unfold assigned. simpl.
      destruct (decide (id = t)) as [<-|]; [by rewrite Hl|done]. }
  destruct Hst as [H0 H2 H3 H4 H6 H7].
  split; rewrite ?Ht, ?Hct.
  - by apply od_del_NoDup.
  - intros t rec'. rewrite Has, od_get_del.
    destruct (decide (id = t)); [done|apply H2].
  - intros t rec'. rewrite Has, od_get_del.
    destruct (decide (id = t)); [done|apply H3].
  - intros cid comps c Hcid Hc.
    destruct (H4 _ _ _ Hcid Hc) as [Hp (rec0 & Hrec0 & Hcomb)].
    split; [done|]. exists rec0. split; [|done].
    rewrite od_get_del_ne; [done|]. intros ->. congruence.
  - apply H6.
  - intros t. rewrite Has, od_get_del.
    destruct (decide (id = t)); [done|apply H7].
Qed.

Lemma seat_guests_consistent st g t :
  consistent st -> plain st t -> consistent (seat_guests st g t).2.
Proof.
  intros Hst Hplain.
  destruct (od_get t (tables st)) as [rec|] eqn:Ht.
  2:{ unfold seat_guests. by rewrite Ht. }
  destruct (od_get g (groups st)) as [grp|] eqn:Hg.
  2:{ unfold seat_guests. by rewrite Ht, Hg. }
  rewrite (seat_guests_unfold _ _ _ _ _ Ht Hg).
  repeat case_match; simpl; try done.
  apply (seated_state_consistent st t rec g); [done..|].
  left. by apply Hplain.
Qed.

Lemma flag_matches_free rec l :
  flag_matches rec l -> Table.occupied rec = false -> l = [].
Proof.
  intros [_ H] Hocc. destruct l; [done|].
  rewrite H in Hocc; done.
Qed.

Lemma shrink_consistent st t l l' :
  consistent st -> assignments st !! t = Some l -> l <> [] -> l' <> [] ->
  consistent (with_assignments st (<[t := l']> (assignments st))).
Proof.
  intros [H0 H2 H3 H4 H6 H7] Hl Hne Hne'.
  assert (assigned st t = l) as Hasg by (unfold assigned; by rewrite Hl).
  unfold with_assignments. split; simpl; try done.
  - intros t' rec'. rewrite assigned_insert.
    destruct (decide (t = t')) as [<-|]; [|apply H2].
    intros Hrec Hc. specialize (H2 _ _ Hrec Hc). rewrite Hasg in H2.
    unfold flag_matches in *. tauto.
  - intros t' rec'. rewrite assigned_insert.
    destruct (decide (t = t')) as [<-|]; [|apply H3].
    intros Hrec Hc Hp. specialize (H3 _ _ Hrec Hc Hp). congruence.
  - intros t'. rewrite assigned_insert.
    destruct (decide (t = t')) as [<-|]; [|apply H7].
    intros _. apply H7. congruence.
Qed.

Lemma cleared_consistent st t rec :
  consistent st -> od_get t (tables st) = Some rec ->
  consistent (with_tables (with_assignments st (<[t := []]> (assignments st)))
                (od_set t (Table.set_occupied false rec) (tables st))).
Proof.
  intros [H0 H2 H3 H4 H6 H7] Ht.
  unfold with_assignments, with_tables. split; simpl.
  - by apply od_set_NoDup.
  - intros t' rec'. rewrite od_get_set, assigned_insert.
    destruct (decide (t = t')) as [<-|]; [|apply H2].
    by intros [= <-] _.
  - intros t' rec'. rewrite od_get_set, assigned_insert.
    destruct (decide (t = t')) as [<-|]; [done|apply H3].
  - intros cid comps c Hcid Hc.
    destruct (H4 _ _ _ Hcid Hc) as [Hp (rec0 & Hrec0 & Hcomb)].
    split; [done|]. rewrite od_get_set.
    destruct (decide (t = c)) as [<-|Hne]; [|by exists rec0].
    exists (Table.set_occupied false rec). split; [done|]. simpl. congruence.
  - apply H6.
  - intros t'. rewrite od_get_set, assigned_insert.
    destruct (decide (t = t')) as [<-|]; [done|apply H7].
Qed.

Lemma release_components_keys comps tbls :
  (release_components comps tbls).*1 = tbls.*1.
Proof.
  revert tbls. induction comps as [|x r IH]; intros tbls; simpl; [done|].
  destruct (od_get x tbls) as [rec|] eqn:Hx; [|apply IH].
  rewrite IH. by eapply od_set_keys_present.
Qed.

Lemma teardown_consistent st t comps :
  consistent st -> contains_plus t = true ->
  combined_tables st !! t = Some comps ->
  consistent (mkState (od_del t (release_components comps (tables st)))
                      (delete t (assignments st))
                      (groups st) (seated_groups st) (next_group_id st)
                      (delete t (combined_tables st))).
Proof.
  intros [H0 H2 H3 H4 H6 H7] Hplus Hcomps.
  assert (forall c, c ∈ comps -> c <> t) as Hct.
  { intros c Hc ->. destruct (H4 _ _ _ Hcomps Hc). congruence. }
  split; simpl.
  - apply od_del_NoDup. by rewrite release_components_keys.
  - intros t' rec'. rewrite od_get_del, assigned_delete.
    destruct (decide (t = t')) as [<-|Hne]; [done|].
    rewrite release_components_lookup.
    destruct (decide (t' ∈ comps)) as [Hin|Hout].
    + rewrite bool_decide_true by done.
      destruct (H4 _ _ _ Hcomps Hin) as [Hp (rec0 & Hrec0 & Hcomb)].
      rewrite Hrec0. intros [= <-] _.
      by rewrite (H3 _ _ Hrec0 Hcomb Hp).
    + rewrite bool_decide_false by done. apply H2.
  - intros t' rec'. rewrite od_get_del, assigned_delete.
    destruct (decide (t = t')) as [<-|Hne]; [done|].
    rewrite release_components_lookup.
    destruct (decide (t' ∈ comps)) as [Hin|Hout].
    + rewrite bool_decide_true by done.
      destruct (od_get t' (tables st)); [|done]. by intros [= <-].
    + rewrite bool_decide_false by done. apply H3.
  - intros cid comps' c [Hne Hcid]%lookup_delete_Some Hc.
    destruct (H4 _ _ _ Hcid Hc) as [Hp (rec0 & Hrec0 & Hcomb)].
    split; [done|]. exists rec0. split; [|done].
    rewrite od_get_del_ne by (intros ->; congruence).
    rewrite release_components_lookup, bool_decide_false; [done|].
    intros Hin. apply Hne. by eapply H6.
  - intros cid1 cid2 comps1 comps2 c [_ H1]%lookup_delete_Some [_ H2']%lookup_delete_Some.
    by eapply H6.
  - intros t'. rewrite od_get_del, assigned_delete.
    destruct (decide (t = t')) as [<-|Hne]; [done|].
    intros Hl. specialize (H7 _ Hl).
    rewrite release_components_lookup.
    destruct (bool_decide (t' ∈ comps)); [|done].
    by destruct (od_get t' (tables st)).
Qed.

Lemma mark_group_left_consistent st g :
  consistent st -> consistent (state_of (mark_group_left st g)).
Proof.
  intros Hst. unfold mark_group_left.
  destruct (seated_groups st !! g) as [s|]; [|done].
  destruct (assignments st !! Seated.table s) as [l|] eqn:Hl.
  2:{ by apply (consistent_ext st). }
  destruct (bool_decide (g ∈ l)) eqn:Hg.
  2:{ by apply (consistent_ext st). }
  apply bool_decide_eq_true in Hg.
  assert (l <> []) as Hne by (intros ->; by apply elem_of_nil in Hg).
  destruct (remove_first g l) as [|x l'] eqn:Hrem.
  2:{ simpl.
      eapply consistent_ext;
        [..|by apply (shrink_consistent st (Seated.table s) l (x :: l') Hst Hl)];
        done. }
  simpl.
  destruct (od_get (Seated.table s) (tables st)) as [rec|] eqn:Hrec.
  2:{ destruct (assigned_known st Hst (Seated.table s)); [|done].
      unfold assigned. by rewrite Hl. }
  pose proof (cleared_consistent st _ rec Hst Hrec) as Hcl.
  destruct (contains_plus (Seated.table s)) eqn:Hplus.
  2:{ simpl. eapply consistent_ext; [..|exact Hcl]; done. }
  simpl. destruct (combined_tables st !! Seated.table s) as [comps|] eqn:Hcomps.
  2:{ simpl. eapply consistent_ext; [..|exact Hcl]; done. }
  simpl.
  eapply consistent_ext; [..|apply (teardown_consistent _ (Seated.table s) comps Hcl Hplus Hcomps)];
    simpl; done.
Qed.

Lemma skipped_false t rec :
  skipped t rec = false ->
  contains_plus t = false /\ Table.combined rec = false /\ Table.occupied rec = false.
Proof.
  unfold skipped. intros H.
  apply orb_false_iff in H as [H ?]. apply orb_false_iff in H as [? ?]. done.
Qed.

Lemma find_best_table_for_group_consistent st size g :
  consistent st -> consistent (state_of (find_best_table_for_group st size g)).
Proof.
  intros Hst.
  destruct (find_best_table_for_group_spec st size g)
    as [id rec ? ? ?| |room comps total tbls Hfree Hnil Htot Hplus Hkeys Hlook]; simpl; try done.
  destruct Hst as [H0 H2 H3 H4 H6 H7].
  assert (forall c, c ∈ comps ->
            exists rec, od_get c (tables st) = Some rec /\
                        contains_plus c = false /\ Table.combined rec = false /\
                        Table.occupied rec = false) as Hcomp.
  { intros c Hc. destruct (Hfree c Hc) as (rec & Hin & Hs & _).
    exists rec. split; [by apply od_get_in_unique|by apply skipped_false]. }
  assert (forall c, c ∈ comps -> c <> join_plus comps) as Hne.
  { intros c Hc Heq. destruct (Hcomp c Hc) as (_ & _ & Hp & _). congruence. }
  unfold combine_state. split; simpl.
  - apply od_set_NoDup. by rewrite Hkeys.
  - intros t rec. rewrite od_get_set, assigned_insert.
    destruct (decide (join_plus comps = t)) as [<-|Hcid]; [by intros [= <-]|].
    rewrite Hlook. destruct (decide (t ∈ comps)) as [Hin|Hout].
    + rewrite bool_decide_true by done.
      destruct (od_get t (tables st)); [|done]. by intros [= <-].
    + rewrite bool_decide_false by done. apply H2.
  - intros t rec. rewrite od_get_set, assigned_insert.
    destruct (decide (join_plus comps = t)) as [<-|Hcid]; [congruence|].
    rewrite Hlook. destruct (decide (t ∈ comps)) as [Hin|Hout].
    + rewrite bool_decide_true by done. intros _ _ _.
      destruct (Hcomp t Hin) as (r & Hr & _ & Hc & Ho).
      eapply flag_matches_free; [by eapply H2|done].
    + rewrite bool_decide_false by done. apply H3.
  - intros cid comps' c Hcid Hc. rewrite lookup_insert in Hcid.
    destruct (decide (join_plus comps = cid)) as [<-|Hother].
    + injection Hcid as <-.
      destruct (Hcomp c Hc) as (r & Hr & Hp & _).
      split; [done|]. exists (marked r).
      rewrite od_get_set_ne by (intros Heq; by apply (Hne c)).
      by rewrite Hlook, bool_decide_true, Hr by done.
    + destruct (H4 _ _ _ Hcid Hc) as [Hp (rec0 & Hrec0 & Hcomb)].
      split; [done|].
      rewrite od_get_set_ne by (intros <-; congruence).
      rewrite Hlook, Hrec0.
      destruct (bool_decide (c ∈ comps)); [by exists (marked rec0)|by exists rec0].
  - assert (forall cid' comps' c, combined_tables st !! cid' = Some comps' ->
              c ∈ comps' -> c ∈ comps -> False) as Hold.
    { intros cid' comps' c Hcid Hc Hin.
      destruct (H4 _ _ _ Hcid Hc) as [_ (rec0 & Hrec0 & Hcomb)].
      destruct (Hcomp c Hin) as (r & Hr & _ & Hc' & _). congruence. }
    intros cid1 cid2 comps1 comps2 c Hc1 Hc2 Hin1 Hin2.
    rewrite lookup_insert in Hc1, Hc2.
    destruct (decide (join_plus comps = cid1)) as [<-|Hn1];
      destruct (decide (join_plus comps = cid2)) as [<-|Hn2]; try done.
    + injection Hc1 as <-. by destruct (Hold _ _ _ Hc2 Hin2 Hin1).
    + injection Hc2 as <-. by destruct (Hold _ _ _ Hc1 Hin1 Hin2).
    + by eapply H6.
  - intros t. rewrite od_get_set, assigned_insert.
    destruct (decide (join_plus comps = t)) as [<-|Hcid]; [done|].
    intros Hl. specialize (H7 _ Hl). rewrite Hlook.
    destruct (bool_decide (t ∈ comps)); [|done].
    by destruct (od_get t (tables st)).
Qed.

(** ** The loop of [optimize_seating] *)

Lemma seat_found_unfold st t g size name rec :
  od_get t (tables st) = Some rec ->
  seat_found st t g size name = Ret tt (seated_state st t rec g size name).
Proof.
  intros Ht. unfold seat_found, seated_state, assigned, dd_get.
  destruct (assignments st !! t) as [l|] eqn:Hl; simpl; rewrite Ht; [done|].
  by rewrite insert_insert_eq.
Qed.

Lemma optimize_loop_steps snapshot todo st log :
  (forall p, In p todo -> In p snapshot) ->
  exists st' log',
    optimize_loop todo st log = Ret tt (st', log') /\
    rtc (optimize_step snapshot) st st'.
Proof.
  revert st log. induction todo as [|[g data] r IH]; intros st log Hsub.
  { exists st, log. by split. }
  assert (forall p, In p r -> In p snapshot) as Hsub' by (intros p Hp; apply Hsub; by right).
  assert (In (g, data) snapshot) as Hg by (apply Hsub; by left).
  cbn [optimize_loop].
  destruct (od_get g (groups st)) as [grp|] eqn:Hwait; [|by apply IH].
  pose proof (step_find snapshot st (Group.size data) g) as Hfind.
  revert Hfind.
  destruct (find_best_table_for_group_spec st (Group.size data) g)
    as [id rec0 Hin Hs Hfit| |room comps total tbls Hfree Hnil Htot Hplus Hkeys Hlook];
    simpl state_of; intros Hfind.
  - destruct (decide (id = "")) as [->|Hid].
    { destruct (IH st log Hsub') as (st' & log' & -> & Hsteps). eauto. }
    destruct (od_get id (tables st)) as [rec|] eqn:Hrec.
    2:{ by destruct (od_get_is_key _ _ _ Hin). }
    rewrite (seat_found_unfold _ _ _ _ _ _ Hrec).
    destruct (IH (seated_state st id rec g (Group.size data) (Group.name data)) log Hsub')
      as (st' & log' & -> & Hsteps).
    exists st', log'. split; [done|].
    eapply rtc_l; [|exact Hsteps].
    apply step_seat; [done|congruence|done|]. left. eauto.
  - destruct (IH st log Hsub') as (st' & log' & -> & Hsteps). eauto.
  - set (st1 := combine_state st comps total room tbls) in *.
    assert (join_plus comps <> "") as Hid by (intros Heq; by rewrite Heq in Hplus).
    rewrite decide_False by done.
    assert (od_get (join_plus comps) (tables st1)
            = Some (Table.mk total true true (Some comps) room)) as Hrec
      by apply od_get_set_eq.
    rewrite (seat_found_unfold _ _ _ _ _ _ Hrec).
    cbn [tables seated_state]. rewrite od_get_set_eq.
    match goal with
    | |- exists st' log', optimize_loop r ?s ?l = _ /\ _ =>
        destruct (IH s l Hsub') as (st' & log' & -> & Hsteps)
    end.
    exists st', log'. split; [done|].
    eapply rtc_l; [exact Hfind|]. eapply rtc_l; [|exact Hsteps].
    apply step_seat; [done|subst st1; simpl; congruence|done|]. right.
    split; [done|]. split; [done|]. split; [|done].
    subst st1. unfold combine_state, assigned. simpl. by rewrite lookup_insert_eq.
Qed.

Lemma optimize_step_consistent snapshot st st' :
  consistent st -> optimize_step snapshot st st' -> consistent st'.
Proof.
  intros Hst Hstep. revert Hst.
  destruct Hstep as [st0 size g|st0 g data t rec Hg Hwait Hrec Hkind]; intros Hst.
  - by apply find_best_table_for_group_consistent.
  - apply seated_state_consistent; [done..|].
    destruct Hkind as [(rec0 & Hin & Hs & _)|[Hp _]]; [left|by right].
    apply (od_get_in_unique _ _ _ (keys_unique _ Hst)) in Hin.
    apply skipped_false in Hs as (_ & Hc & _). congruence.
Qed.

Lemma optimize_seating_consistent st log :
  consistent st -> consistent (state_of (optimize_seating st log)).1.
Proof.
  intros Hst. unfold optimize_seating.
  destruct (optimize_loop_steps (sort_desc (fun x => Group.size x.2) (groups st))
              (sort_desc (fun x => Group.size x.2) (groups st)) st log
              (fun p H => H))
    as (st' & log' & -> & Hsteps).
  simpl. revert Hst. induction Hsteps as [|s1 s2 s3 Hstep _ IHs]; intros Hst; [done|].
  apply IHs. by eapply optimize_step_consistent.
Qed.

Lemma careful_call_consistent st st' :
  consistent st -> careful_call st st' -> consistent st'.
Proof.
  intros Hst Hcall. revert Hst.
  destruct Hcall as [st0 id cap room Hnew|st0 id Hp|st0 size name|st0 g t Hp|st0 g
                    |st0 size g|st0 log|st0 g n]; intros Hst.
  - by apply add_table_consistent.
  - by apply remove_table_consistent.
  - by apply (consistent_ext st0).
  - by apply seat_guests_consistent.
  - by apply mark_group_left_consistent.
  - by apply find_best_table_for_group_consistent.
  - by apply optimize_seating_consistent.
  - apply (consistent_ext st0); [..|done]; unfold rename_group; by repeat case_match.
Qed.

Lemma careful_reachable_consistent st : rtc careful_call init st -> consistent st.
Proof.
  intros H. assert (consistent init) as Hinit by apply consistent_init.
  revert Hinit. induction H as [|s1 s2 s3 Hcall _ IHs]; intros Hs1; [done|].
  apply IHs. by eapply careful_call_consistent.
Qed.

(** C2, amended: in every state reached by calls that add only new table
    ids and neither seat at nor remove a table marked combined, every table
    not marked combined is occupied exactly when its assignment list is not
    empty. *)
Theorem plain_tables_flag_matches st t rec :
  rtc careful_call init st ->
  od_get t (tables st) = Some rec ->
  Table.combined rec = false ->
  Table.occupied rec = true <-> assigned st t <> [].
Proof.
  intros Hreach Hrec Hplain.
  by apply (flag_plain st (careful_reachable_consistent st Hreach)).
Qed.

(** ** What [optimize_seating] does to the ledger *)

Lemma ledger_progress_refl snapshot st : ledger_progress snapshot st st.
Proof. by split. Qed.

Lemma ledger_progress_trans snapshot st1 st2 st3 :
  ledger_progress snapshot st1 st2 -> ledger_progress snapshot st2 st3 ->
  ledger_progress snapshot st1 st3.
Proof.
  intros [Hg1 Ht1 Hs1 Hn1 Hw1] [Hg2 Ht2 Hs2 Hn2 Hw2]. split.
  - intros g Hg. by apply Hg2, Hg1.
  - intros t Ht. by apply Ht2, Ht1.
  - intros g s Hg Hs. apply Hs2; [by apply Hg1|by apply Hs1].
  - intros g Hw Hg.
    destruct (od_get g (groups st2)) as [grp|] eqn:Hmid.
    + destruct (Hn2 g) as (data & t & ? & ? & ?); [congruence|done|]. by exists data, t.
    + destruct (Hn1 g Hw Hmid) as (data & t & Hin & Hs & Ht).
      exists data, t. split; [done|]. split; [by apply Hs2|by apply Ht2].
  - intros g Hw. rewrite (Hw2 g Hw). apply Hw1. by rewrite <- (Hw2 g Hw).
Qed.

Lemma optimize_step_ledger snapshot st st' :
  optimize_step snapshot st st' -> ledger_progress snapshot st st'.
Proof.
  intros [st0 size g|st0 g data t rec Hg Hwait Hrec Hkind].
  - destruct (find_best_table_for_group_spec st0 size g)
      as [id rec0 Hin Hs Hfit| |room comps total tbls Hfree Hnil Htot Hplus Hkeys Hlook];
      simpl state_of; try apply ledger_progress_refl.
    unfold combine_state. split; simpl; try done.
    intros t Ht. rewrite od_get_set.
    destruct (decide (join_plus comps = t)); [done|].
    rewrite Hlook. destruct (bool_decide (t ∈ comps)); [|done].
    by destruct (od_get t (tables st0)).
  - unfold seated_state. split; simpl.
    + intros g' Hg'. rewrite od_get_del. by destruct (decide (g = g')).
    + intros t' Ht'. rewrite od_get_set. by destruct (decide (t = t')).
    + intros g' s Hg' Hs. rewrite lookup_insert_ne; [done|]. intros ->. congruence.
    + intros g' Hw. rewrite od_get_del.
      destruct (decide (g = g')) as [<-|Hne]; [|done].
      intros _. exists data, t. split; [done|].
      split; [apply lookup_insert_eq|by rewrite od_get_set_eq].
    + intros g'. rewrite od_get_del. by destruct (decide (g = g')).
Qed.

Lemma optimize_steps_ledger snapshot st st' :
  rtc (optimize_step snapshot) st st' -> ledger_progress snapshot st st'.
Proof.
  induction 1 as [|s1 s2 s3 Hstep _ IH]; [apply ledger_progress_refl|].
  eapply ledger_progress_trans; [by apply optimize_step_ledger|done].
Qed.

(** C7, amended: [optimize_seating] always ends normally and returns no
    value.  The groups it seats are found in the ledger: every group that
    was waiting before the call and is not waiting after it is in
    [seated_groups] with the size and name it had and with a table id of the
    registry; a group still waiting has its record unchanged. *)
Theorem optimize_seating_moves_groups st log :
  exists st' log',
    optimize_seating st log = Ret None (st', log') /\
    (forall g, od_get g (groups st) <> None -> od_get g (groups st') = None ->
       exists grp t,
         In (g, grp) (groups st) /\
         seated_groups st' !! g
           = Some (Seated.mk (Group.size grp) (Group.name grp) t) /\
         od_get t (tables st') <> None) /\
    (forall g, od_get g (groups st') <> None ->
       od_get g (groups st') = od_get g (groups st)).
Proof.
  unfold optimize_seating.
  destruct (optimize_loop_steps (sort_desc (fun x => Group.size x.2) (groups st))
              (sort_desc (fun x => Group.size x.2) (groups st)) st log
              (fun p H => H))
    as (st' & log' & -> & Hsteps).
  exists st', log'. split; [done|].
  destruct (optimize_steps_ledger _ _ _ Hsteps) as [_ _ _ Hnew Hsame].
  split; [|done].
  intros g Hw Hg. destruct (Hnew g Hw Hg) as (data & t & Hin%sort_desc_in & ? & ?).
  by exists data, t.
Qed.

(** ** The ledger stays consistent *)

Lemma remove_first_subset g x l : x ∈ remove_first g l -> x ∈ l.
Proof.
  induction l as [|y r IH]; simpl; [done|].
  destruct (decide (g = y)); [by right|].
  intros [->|Hx]%elem_of_cons; [left|right; by apply IH].
Qed.

(** Lists that only lose ids keep the ledger consistent. *)
Lemma ledger_consistent_shrink st st' :
  (forall t g, g ∈ assigned st' t -> g ∈ assigned st t) ->
  groups st' = groups st ->
  next_group_id st' = next_group_id st ->
  ledger_consistent st -> ledger_consistent st'.
Proof.
  intros Hsub Hg Hn [H1 H2 H3 H4]. split; rewrite ?Hg, ?Hn.
  - intros t g Hin. by eapply H1, Hsub.
  - intros t1 t2 g Hin1 Hin2. eapply H2; by apply Hsub.
  - intros t g Hin. by eapply H3, Hsub.
  - done.
Qed.

Lemma seated_state_ledger st t rec g size name :
  ledger_consistent st -> od_get g (groups st) <> None ->
  ledger_consistent (seated_state st t rec g size name).
Proof.
  intros [H1 H2 H3 H4] Hwait.
  assert (forall t', g ∉ assigned st t') as Hfresh.
  { intros t' Hin. by apply Hwait, (H1 t'). }
  unfold seated_state. split; simpl.
  - intros t' g'. rewrite assigned_insert, od_get_del.
    destruct (decide (g = g')) as [<-|Hne]; [done|].
    destruct (decide (t = t')) as [<-|]; [|apply H1].
    intros [Hin|Hin%list_elem_of_singleton]%elem_of_app; [by eapply H1|congruence].
  - intros t1 t2 g'. rewrite !assigned_insert.
    destruct (decide (g = g')) as [<-|Hne].
    + destruct (decide (t = t1)) as [<-|]; [|by intros ?%Hfresh].
      destruct (decide (t = t2)) as [<-|]; [done|by intros _ ?%Hfresh].
    + assert (forall l, g' ∈ (l ++ [g])%list -> g' ∈ l) as Hold.
      { intros l [?|?%list_elem_of_singleton]%elem_of_app; [done|congruence]. }
      destruct (decide (t = t1)) as [<-|]; destruct (decide (t = t2)) as [<-|];
        try done; intros Hin1 Hin2; eapply H2; eauto.
  - intros t' g'. rewrite assigned_insert.
    destruct (decide (t = t')) as [<-|]; [|apply H3].
    intros [Hin|Heq%list_elem_of_singleton]%elem_of_app; [by eapply H3|subst; by apply H4].
  - intros g'. rewrite od_get_del.
    destruct (decide (g = g')); [done|apply H4].
Qed.

Lemma seated_state_registered st t rec g size name :
  registered st -> od_get t (tables st) = Some rec ->
  registered (seated_state st t rec g size name).
Proof.
  intros Hreg Ht cid comps Hcid. simpl in Hcid.
  destruct (Hreg _ _ Hcid) as [Hp (rec0 & Hrec0 & Hcomb)].
  split; [done|]. simpl. rewrite od_get_set.
  destruct (decide (t = cid)) as [<-|]; [|by exists rec0].
  exists (Table.set_occupied true rec). split; [done|]. simpl. congruence.
Qed.

Lemma requeue_ledger l st :
  next_group_id (requeue l st) = next_group_id st /\
  (forall g, g ∉ l -> od_get g (groups (requeue l st)) = od_get g (groups st)) /\
  (forall g, od_get g (groups (requeue l st)) <> None ->
             od_get g (groups st) <> None \/ g ∈ l).
Proof.
  revert st. induction l as [|x r IH]; intros st; simpl.
  { split; [done|]. split; [done|]. auto. }
  destruct (seated_groups st !! x) as [s|].
  - match goal with
    | |- context [requeue r ?s0] => destruct (IH s0) as (Hn & Hout & Hin)
    end.
    rewrite Hn. split; [done|]. split.
    + intros g [Hne Hg]%not_elem_of_cons. rewrite (Hout g Hg). simpl.
      by rewrite od_get_set_ne.
    + intros g Hg. destruct (Hin g Hg) as [Hold|Hr]; [|right; by right].
      simpl in Hold. rewrite od_get_set in Hold.
      destruct (decide (x = g)) as [->|]; [right; left|by left].
  - destruct (IH st) as (Hn & Hout & Hin). split; [done|]. split.
    + intros g [_ Hg]%not_elem_of_cons. by apply Hout.
    + intros g Hg. destruct (Hin g Hg) as [?|?]; [by left|right; by right].
Qed.

Lemma remove_table_ledger st id :
  ledger_consistent st -> ledger_consistent (remove_table st id).
Proof.
  intros [H1 H2 H3 H4]. unfold remove_table.
  destruct (od_get id (tables st)) as [rec|]; [|done].
  simpl. destruct (assignments st !! id) as [l|] eqn:Hl.
  2:{ by apply (ledger_consistent_shrink st). }
  assert (assigned st id = l) as Hasg by (unfold assigned; by rewrite Hl).
  destruct (requeue_frame l (with_tables st (od_del id (tables st)))) as (_ & Ha & _).
  destruct (requeue_ledger l (with_tables st (od_del id (tables st))))
    as (Hn & Hout & Hin).
  simpl in Ha, Hn, Hout, Hin.
  assert (forall t, assigned (with_assignments
                       (requeue l (with_tables st (od_del id (tables st))))
                       (delete id (assignments
                          (requeue l (with_tables st (od_del id (tables st))))))) t
                    = if decide (id = t) then [] else assigned st t) as Has.
  { intros t. unfold assigned. simpl. rewrite Ha, lookup_delete.
    by destruct (decide (id = t)). }
  split; simpl; rewrite ?Hn.
  - intros t g. rewrite Has. destruct (decide (id = t)) as [<-|Hne].
    { by intros ?%elem_of_nil. }
    intros Hg. rewrite Hout; [by eapply H1|].
    intros Hgl. apply Hne. apply (H2 id t g); [by rewrite Hasg|done].
  - intros t1 t2 g. rewrite !Has.
    destruct (decide (id = t1)); [by intros ?%elem_of_nil|].
    destruct (decide (id = t2)); [by intros _ ?%elem_of_nil|]. apply H2.
  - intros t g. rewrite Has.
    destruct (decide (id = t)); [by intros ?%elem_of_nil|apply H3].
  - intros g Hg. destruct (Hin g Hg) as [?|Hgl]; [by apply H4|].
    apply (H3 id). by rewrite Hasg.
Qed.

Lemma remove_table_registered st id :
  registered st -> plain st id -> registered (remove_table st id).
Proof.
  intros Hreg Hplain. unfold remove_table.
  destruct (od_get id (tables st)) as [rec|] eqn:Hid; [|done].
  specialize (Hplain _ Hid).
  assert (forall st', tables st' = od_del id (tables st) ->
                      combined_tables st' = combined_tables st ->
                      registered st') as Hgen.
  { intros st' Ht Hc cid comps. rewrite Hc, Ht. intros Hcid.
    destruct (Hreg _ _ Hcid) as [Hp (rec0 & Hrec0 & Hcomb)].
    split; [done|]. exists rec0. split; [|done].
    rewrite od_get_del_ne; [done|]. intros ->. congruence. }
  simpl. destruct (assignments st !! id) as [l|]; [|by apply Hgen].
  destruct (requeue_frame l (with_tables st (od_del id (tables st)))) as (Ht & _ & Hc).
  apply Hgen; simpl; [by rewrite Ht|by rewrite Hc].
Qed.

Lemma mark_group_left_assigned st g t x :
  x ∈ assigned (state_of (mark_group_left st g)) t -> x ∈ assigned st t.
Proof.
  unfold mark_group_left.
  destruct (seated_groups st !! g) as [s|]; [|done].
  destruct (assignments st !! Seated.table s) as [l|] eqn:Hl; [|done].
  destruct (bool_decide (g ∈ l)); [|done].
  assert (forall l' a gr sg n c,
            x ∈ assigned (mkState a (<[Seated.table s := l']> (assignments st)) gr sg n c) t ->
            (forall y, y ∈ l' -> y ∈ l) -> x ∈ assigned st t) as Hins.
  { intros l' a gr sg n c. rewrite assigned_insert.
    destruct (decide (Seated.table s = t)) as [<-|]; [|done].
    intros Hx Hsub. unfold assigned. rewrite Hl. by apply Hsub. }
  destruct (remove_first g l) as [|y l'] eqn:Hrem.
  2:{ simpl. intros Hx. eapply Hins; [exact Hx|].
      intros z Hz. apply (remove_first_subset g). by rewrite Hrem. }
  simpl.
  destruct (od_get (Seated.table s) (tables st)) as [rec|].
  2:{ simpl. intros Hx. eapply Hins; [exact Hx|]. by intros z ?%elem_of_nil. }
  destruct (contains_plus (Seated.table s)); simpl.
  2:{ intros Hx. eapply Hins; [exact Hx|]. by intros z ?%elem_of_nil. }
  destruct (combined_tables st !! Seated.table s); simpl.
  2:{ intros Hx. eapply Hins; [exact Hx|]. by intros z ?%elem_of_nil. }
  unfold assigned. simpl. rewrite lookup_delete, lookup_insert.
  destruct (decide (Seated.table s = t)); [by intros ?%elem_of_nil|done].
Qed.

Lemma mark_group_left_ledger st g :
  ledger_consistent st -> ledger_consistent (state_of (mark_group_left st g)).
Proof.
  intros Hst. apply (ledger_consistent_shrink st); [| | |done].
  - intros t x. apply mark_group_left_assigned.
  - unfold mark_group_left. by repeat (case_match; simpl; try done).
  - unfold mark_group_left. by repeat (case_match; simpl; try done).
Qed.

Lemma mark_group_left_registered st g :
  consistent st -> registered st -> registered (state_of (mark_group_left st g)).
Proof.
  intros Hst Hreg.
  assert (forall st', tables st' = tables st ->
                      combined_tables st' = combined_tables st -> registered st')
    as Hsame.
  { intros st' Ht Hc cid comps. rewrite Hc, Ht. apply Hreg. }
  unfold mark_group_left.
  destruct (seated_groups st !! g) as [s|]; [|done].
  destruct (assignments st !! Seated.table s) as [l|]; [|by apply Hsame].
  destruct (bool_decide (g ∈ l)); [|by apply Hsame].
  destruct (remove_first g l) as [|y l']; [|by apply Hsame].
  simpl.
  destruct (od_get (Seated.table s) (tables st)) as [rec|] eqn:Hrec; [|by apply Hsame].
  assert (forall cid comps, combined_tables st !! cid = Some comps ->
            contains_plus cid = true /\
            exists rec0,
              od_get cid (od_set (Seated.table s) (Table.set_occupied false rec) (tables st))
                = Some rec0 /\ Table.combined rec0 = true) as Hcl.
  { intros cid comps Hcid.
    destruct (Hreg _ _ Hcid) as [Hp (rec0 & Hrec0 & Hcomb)].
    split; [done|]. rewrite od_get_set.
    destruct (decide (Seated.table s = cid)) as [<-|]; [|by exists rec0].
    exists (Table.set_occupied false rec). split; [done|]. simpl. congruence. }
  destruct (contains_plus (Seated.table s)) eqn:Hplus; simpl; [|exact Hcl].
  destruct (combined_tables st !! Seated.table s) as [comps|] eqn:Hcomps; simpl;
    [|exact Hcl].
  intros cid comps'. simpl. intros [Hne Hcid]%lookup_delete_Some.
  destruct (Hcl _ _ Hcid) as [Hp (rec0 & Hrec0 & Hcomb)].
  split; [done|]. exists rec0. split; [|done].
  rewrite od_get_del_ne by done.
  rewrite release_components_lookup, bool_decide_false; [done|].
  intros Hin. destruct (components_marked st Hst _ _ _ Hcomps Hin). congruence.
Qed.

Lemma find_best_table_for_group_ledger st size g :
  ledger_consistent st ->
  ledger_consistent (state_of (find_best_table_for_group st size g)).
Proof.
  intros Hst.
  destruct (find_best_table_for_group_spec st size g)
    as [id rec ? ? ?| |room comps total tbls Hfree Hnil Htot Hplus Hkeys Hlook]; simpl; try done.
  apply (ledger_consistent_shrink st); [|done..].
  intros t x. unfold combine_state. rewrite assigned_insert.
  destruct (decide (join_plus comps = t)); [by intros ?%elem_of_nil|done].
Qed.

Lemma find_best_table_for_group_registered st size g :
  registered st -> registered (state_of (find_best_table_for_group st size g)).
Proof.
  intros Hreg.
  destruct (find_best_table_for_group_spec st size g)
    as [id rec ? ? ?| |room comps total tbls Hfree Hnil Htot Hplus Hkeys Hlook]; simpl; try done.
  intros cid comps'. unfold combine_state. simpl.
  rewrite lookup_insert, od_get_set.
  destruct (decide (join_plus comps = cid)) as [<-|Hne].
  - intros _. split; [done|]. by eexists.
  - intros Hcid. destruct (Hreg _ _ Hcid) as [Hp (rec0 & Hrec0 & Hcomb)].
    split; [done|]. rewrite Hlook, Hrec0.
    destruct (bool_decide (cid ∈ comps)); [by exists (marked rec0)|by exists rec0].
Qed.

Lemma add_table_registered st id cap room :
  registered st -> od_get id (tables st) = None ->
  registered (add_table st id cap room).
Proof.
  intros Hreg Hnew cid comps Hcid.
  destruct (Hreg _ _ Hcid) as [Hp (rec0 & Hrec0 & Hcomb)].
  split; [done|]. exists rec0. split; [|done].
  rewrite add_table_other; [done|]. intros ->. congruence.
Qed.

Lemma add_guests_ledger st size name :
  ledger_consistent st -> ledger_consistent (add_guests st size name).2.
Proof.
  intros [H1 H2 H3 H4]. unfold add_guests. split; simpl.
  - intros t g Hin. rewrite od_get_set_ne; [by eapply H1|].
    specialize (H3 _ _ Hin). lia.
  - apply H2.
  - intros t g Hin. specialize (H3 _ _ Hin). lia.
  - intros g. rewrite od_get_set.
    destruct (decide (next_group_id st = g)) as [<-|]; [lia|].
    intros Hg. specialize (H4 _ Hg). lia.
Qed.

Lemma rename_group_ledger st g n :
  ledger_consistent st -> ledger_consistent (rename_group st g n).2.
Proof.
  intros [H1 H2 H3 H4]. unfold rename_group.
  destruct (od_get g (groups st)) as [grp|] eqn:Hg; simpl.
  - split; simpl; try done.
    + intros t g' Hin. rewrite od_get_set_ne; [by eapply H1|].
      intros ->. specialize (H1 _ _ Hin). congruence.
    + intros g'. rewrite od_get_set.
      destruct (decide (g = g')) as [<-|]; [|apply H4].
      intros _. apply H4. congruence.
  - by destruct (seated_groups st !! g).
Qed.

Lemma seat_guests_ledger st g t :
  ledger_consistent st -> ledger_consistent (seat_guests st g t).2.
Proof.
  intros Hst.
  destruct (od_get t (tables st)) as [rec|] eqn:Ht.
  2:{ unfold seat_guests. by rewrite Ht. }
  destruct (od_get g (groups st)) as [grp|] eqn:Hg.
  2:{ unfold seat_guests. by rewrite Ht, Hg. }
  rewrite (seat_guests_unfold _ _ _ _ _ Ht Hg).
  repeat case_match; simpl; try done.
  apply (seated_state_ledger st t rec g); [done|congruence].
Qed.

Lemma seat_guests_registered st g t :
  registered st -> registered (seat_guests st g t).2.
Proof.
  intros Hst.
  destruct (od_get t (tables st)) as [rec|] eqn:Ht.
  2:{ unfold seat_guests. by rewrite Ht. }
  destruct (od_get g (groups st)) as [grp|] eqn:Hg.
  2:{ unfold seat_guests. by rewrite Ht, Hg. }
  rewrite (seat_guests_unfold _ _ _ _ _ Ht Hg).
  repeat case_match; simpl; try done.
  by apply (seated_state_registered st t rec g).
Qed.

Lemma optimize_seating_sound st log :
  consistent st /\ ledger_consistent st /\ registered st ->
  ledger_consistent (state_of (optimize_seating st log)).1 /\
  registered (state_of (optimize_seating st log)).1.
Proof.
  intros Hst. unfold optimize_seating.
  destruct (optimize_loop_steps (sort_desc (fun x => Group.size x.2) (groups st))
              (sort_desc (fun x => Group.size x.2) (groups st)) st log
              (fun p H => H))
    as (st' & log' & -> & Hsteps).
  simpl. revert Hst.
  induction Hsteps as [|s1 s2 s3 Hstep _ IH]; intros (Hc & Hl & Hr); [done|].
  apply IH. split; [by eapply optimize_step_consistent|].
  destruct Hstep as [st0 size g|st0 g data t rec Hg Hwait Hrec Hkind].
  - split; [by apply find_best_table_for_group_ledger
           |by apply find_best_table_for_group_registered].
  - split; [by apply seated_state_ledger|by apply seated_state_registered].
Qed.

(** Everything the careful calls keep true. *)
Lemma careful_call_sound st st' :
  consistent st /\ ledger_consistent st /\ registered st ->
  careful_call st st' ->
  consistent st' /\ ledger_consistent st' /\ registered st'.
Proof.
  intros Hst Hcall. split; [by eapply careful_call_consistent; [apply Hst|]|].
  revert Hst.
  destruct Hcall as [st0 id cap room Hnew|st0 id Hp|st0 size name|st0 g t Hp|st0 g
                    |st0 size g|st0 log|st0 g n]; intros (Hc & Hl & Hr).
  - split; [by apply (ledger_consistent_shrink st0)|by apply add_table_registered].
  - split; [by apply remove_table_ledger|by apply remove_table_registered].
  - split; [by apply add_guests_ledger|done].
  - split; [by apply seat_guests_ledger|by apply seat_guests_registered].
  - split; [by apply mark_group_left_ledger|by apply mark_group_left_registered].
  - split; [by apply find_best_table_for_group_ledger
           |by apply find_best_table_for_group_registered].
  - by apply optimize_seating_sound.
  - split; [by apply rename_group_ledger|].
    intros cid comps. unfold rename_group. repeat case_match; apply Hr.
Qed.

Lemma careful_reachable_sound st :
  rtc careful_call init st ->
  consistent st /\ ledger_consistent st /\ registered st.
Proof.
  intros H.
  assert (consistent init /\ ledger_consistent init /\ registered init) as Hinit.
  { split; [apply consistent_init|]. split; [|done]. split.
    - intros t g Hin. by apply elem_of_nil in Hin.
    - intros t1 t2 g Hin. by apply elem_of_nil in Hin.
    - intros t g Hin. by apply elem_of_nil in Hin.
    - by intros g Hg. }
  revert Hinit. induction H as [|s1 s2 s3 Hcall _ IH]; intros Hs1; [done|].
  apply IH. by eapply careful_call_sound.
Qed.

(** The round trip of C9 in the states the careful calls reach: there the
    premises of the round trip hold for every table that is
    not marked combined and every waiting group. *)
Lemma careful_seat_then_release st g t rec grp st1 :
  rtc careful_call init st ->
  od_get t (tables st) = Some rec ->
  Table.combined rec = false ->
  od_get g (groups st) = Some grp ->
  seat_guests st g t = (SeatedOk, st1) ->
  exists st2,
    mark_group_left st1 g = Ret (true, "Group marked as left") st2 /\
    od_get t (tables st2) = Some rec /\
    assigned st2 t = assigned st t.
Proof.
  intros (Hc & Hl & Hr)%careful_reachable_sound Ht Hplain Hg Hseat.
  assert (is_combined_table st t = false) as Hnc.
  { unfold is_combined_table. destruct (contains_plus t); [|done]. simpl.
    apply bool_decide_eq_false. intros [comps Hcomps].
    destruct (Hr _ _ Hcomps) as [_ (rec0 & Hrec0 & Hcomb)]. congruence. }
  assert (g ∉ assigned st t) as Hnew.
  { intros Hin. rewrite (listed_not_waiting st Hl _ _ Hin) in Hg. done. }
  pose proof (flag_plain st Hc _ _ Ht Hplain) as Hocc.
  rewrite (seat_guests_unfold _ _ _ _ _ Ht Hg) in Hseat.
  repeat case_match; try done. injection Hseat as <-.
  fold (seated_state st t rec g (Group.size grp) (Group.name grp)).
  rewrite (release_after_seat st g t rec _ _ Ht Hnc Hocc Hnew).
  eexists. split; [done|]. split; [done|].
  unfold assigned at 1. simpl. by rewrite lookup_insert_eq.
Qed.

(** ** The capacity bound under careful calls *)

Lemma sized_call_careful st st' : sized_call st st' -> careful_call st st'.
Proof. destruct 1; by constructor. Qed.

Lemma od_in_del {K V} `{EqDecision K} (k k' : K) (v' : V) d :
  In (k', v') (od_del k d) -> In (k', v') d.
Proof.
  induction d as [|[k0 v0] r IH]; simpl; [done|].
  destruct (decide (k = k0)); simpl.
  - intros Hin. right. by apply IH.
  - intros [Heq|Hin]; [by left|right; by apply IH].
Qed.

Lemma occupancy_nonneg sg l :
  (forall g s, sg !! g = Some s -> 0 <= Seated.size s) -> 0 <= occupancy sg l.
Proof.
  intros Hsg. induction l as [|x r IH]; simpl; [done|].
  destruct (sg !! x) as [s|] eqn:Hx; [|done].
  specialize (Hsg _ _ Hx). lia.
Qed.

Lemma occupancy_mono sg sg' l :
  (forall g s, sg' !! g = Some s -> sg !! g = Some s) ->
  (forall g s, sg !! g = Some s -> 0 <= Seated.size s) ->
  occupancy sg' l <= occupancy sg l.
Proof.
  intros Hsub Hsg. induction l as [|x r IH]; simpl; [done|].
  destruct (sg' !! x) as [s'|] eqn:Hx'.
  - rewrite (Hsub _ _ Hx'). lia.
  - destruct (sg !! x) as [s|] eqn:Hx; [|done].
    specialize (Hsg _ _ Hx). lia.
Qed.

Lemma occupancy_remove_first sg g l :
  (forall g s, sg !! g = Some s -> 0 <= Seated.size s) ->
  occupancy sg (remove_first g l) <= occupancy sg l.
Proof.
  intros Hsg. induction l as [|x r IH]; simpl; [done|].
  destruct (decide (g = x)) as [<-|]; simpl.
  - pose proof (occupancy_nonneg sg r Hsg).
    destruct (sg !! g) as [s|] eqn:Hg; [|done].
    specialize (Hsg _ _ Hg). lia.
  - destruct (sg !! x); lia.
Qed.

Lemma occupancy_insert_fresh sg g s l :
  g ∉ l -> occupancy (<[g := s]> sg) l = occupancy sg l.
Proof.
  induction l as [|x r IH]; simpl; [done|].
  intros [Hne Hr]%not_elem_of_cons.
  rewrite lookup_insert_ne by done. by rewrite IH.
Qed.

Lemma occupancy_same_sizes sg sg' l :
  (forall g, Seated.size <$> sg' !! g = Seated.size <$> sg !! g) ->
  occupancy sg' l = occupancy sg l.
Proof.
  intros Hs. induction l as [|x r IH]; simpl; [done|].
  specialize (Hs x). rewrite IH.
  destruct (sg' !! x), (sg !! x); simpl in Hs; simplify_eq; [lia|done].
Qed.

(** A state with fewer seated groups, shorter lists and tables of the same
    capacity keeps the bound. *)
Lemma within_capacity_shrink st st' :
  (forall g s, seated_groups st' !! g = Some s -> seated_groups st !! g = Some s) ->
  (forall t rec', od_get t (tables st') = Some rec' ->
     exists rec, od_get t (tables st) = Some rec /\
                 Table.capacity rec' = Table.capacity rec) ->
  (forall t, occupancy (seated_groups st) (assigned st' t)
             <= occupancy (seated_groups st) (assigned st t)) ->
  (forall g s, seated_groups st !! g = Some s -> 0 <= Seated.size s) ->
  within_capacity st -> within_capacity st'.
Proof.
  intros Hsg Htb Hl Hsz Hfit t rec' Hrec'.
  destruct (Htb _ _ Hrec') as (rec & Hrec & ->).
  specialize (Hfit t rec Hrec). specialize (Hl t).
  pose proof (occupancy_mono _ _ (assigned st' t) Hsg Hsz). lia.
Qed.

Lemma seated_state_capacity st t rec g size name :
  capacity_ok st -> ledger_consistent st ->
  od_get t (tables st) = Some rec ->
  od_get g (groups st) <> None ->
  0 <= size ->
  occupancy (seated_groups st) (assigned st t) + size <= Table.capacity rec ->
  capacity_ok (seated_state st t rec g size name).
Proof.
  intros [Hw Hs Hfit] Hl Ht Hwait Hsize Hroom.
  assert (forall t', g ∉ assigned st t') as Hfresh.
  { intros t' Hin. by apply Hwait, (listed_not_waiting st Hl t'). }
  unfold seated_state. split; simpl.
  - intros g' grp Hin. by eapply Hw, od_in_del.
  - intros g' s. rewrite lookup_insert.
    destruct (decide (g = g')); [by intros [= <-]|apply Hs].
  - intros t' rec'. simpl. rewrite od_get_set, assigned_insert.
    destruct (decide (t = t')) as [<-|Hne].
    + intros [= <-]. simpl.
      rewrite occupancy_app, occupancy_insert_fresh by done.
      simpl. rewrite lookup_insert_eq. simpl. lia.
    + intros Hrec'. rewrite occupancy_insert_fresh by done. by apply Hfit.
Qed.

Lemma seat_guests_capacity st g t :
  consistent st -> ledger_consistent st -> capacity_ok st -> plain st t ->
  capacity_ok (seat_guests st g t).2.
Proof.
  intros Hc Hl Hcap Hplain.
  destruct (od_get t (tables st)) as [rec|] eqn:Ht.
  2:{ unfold seat_guests. by rewrite Ht. }
  destruct (od_get g (groups st)) as [grp|] eqn:Hg.
  2:{ unfold seat_guests. by rewrite Ht, Hg. }
  rewrite (seat_guests_unfold _ _ _ _ _ Ht Hg).
  destruct (Table.capacity rec <? Group.size grp) eqn:Hbig; [done|].
  apply Z.ltb_ge in Hbig.
  destruct (Table.occupied rec) eqn:Hocc; simpl.
  - destruct (_ <? _ + _) eqn:Hfull; [done|]. apply Z.ltb_ge in Hfull. simpl.
    apply (seated_state_capacity st t rec g); try done; [congruence|].
    eapply (waiting_sizes st Hcap), od_get_Some_in, Hg.
  - apply (seated_state_capacity st t rec g); try done; [congruence| |].
    + eapply (waiting_sizes st Hcap), od_get_Some_in, Hg.
    + rewrite (flag_matches_free rec (assigned st t)); [simpl; lia| |done].
      apply (flag_plain st Hc); [done|]. by apply Hplain.
Qed.

Lemma add_table_capacity st id cap room :
  consistent st -> capacity_ok st ->
  od_get id (tables st) = None -> 0 <= cap ->
  capacity_ok (add_table st id cap room).
Proof.
  intros Hc [Hw Hs Hfit] Hnew Hcap.
  assert (assigned st id = []) as Hid.
  { destruct (assigned st id) eqn:Hl; [done|].
    destruct (assigned_known st Hc id); [by rewrite Hl|done]. }
  split; try done.
  intros t rec. unfold add_table. simpl.
  change (assigned (with_tables st _) t) with (assigned st t).
  rewrite od_get_set. destruct (decide (id = t)) as [<-|]; [|apply Hfit].
  intros [= <-]. by rewrite Hid.
Qed.

Lemma requeue_sizes l st :
  (forall g s, seated_groups (requeue l st) !! g = Some s ->
               seated_groups st !! g = Some s) /\
  (forall g grp, In (g, grp) (groups (requeue l st)) ->
     In (g, grp) (groups st) \/
     exists s, seated_groups st !! g = Some s /\ Group.size grp = Seated.size s).
Proof.
  revert st. induction l as [|x r IH]; intros st; simpl; [by auto|].
  destruct (seated_groups st !! x) as [d|] eqn:Hx; [|apply IH].
  match goal with
  | |- context [requeue r ?s0] => destruct (IH s0) as (Hsg & Hgr)
  end.
  split.
  - intros g s Hg. apply Hsg in Hg. simpl in Hg.
    by apply lookup_delete_Some in Hg as [_ ?].
  - intros g grp Hin. destruct (Hgr g grp Hin) as [Hold|(s & Hs & Hsize)].
    + simpl in Hold. apply od_in_set in Hold as [[-> ->]|Hold]; [|by left].
      right. by exists d.
    + right. exists s. simpl in Hs.
      by apply lookup_delete_Some in Hs as [_ ?].
Qed.

Lemma remove_table_capacity st id :
  capacity_ok st -> capacity_ok (remove_table st id).
Proof.
  intros [Hw Hs Hfit]. unfold remove_table.
  destruct (od_get id (tables st)) as [rec|]; [|done].
  simpl. destruct (assignments st !! id) as [l|] eqn:Hl.
  - destruct (requeue_frame l (with_tables st (od_del id (tables st)))) as (Ht & Ha & _).
    destruct (requeue_sizes l (with_tables st (od_del id (tables st)))) as (Hsg & Hgr).
    simpl in Ht, Ha, Hsg, Hgr.
    split; simpl.
    + intros g grp Hin. destruct (Hgr g grp Hin) as [?|(s & Hs' & ->)]; [by eapply Hw|].
      by eapply Hs.
    + intros g s Hg. by eapply Hs, Hsg.
    + apply (within_capacity_shrink st); try done.
      * simpl. rewrite Ht. intros t rec'. rewrite od_get_del.
        destruct (decide (id = t)); [done|]. intros Hrec'. by exists rec'.
      * intros t. unfold assigned at 1. simpl. rewrite Ha, lookup_delete.
        destruct (decide (id = t)); [|done]. simpl. by apply occupancy_nonneg.
  - split; try done.
    apply (within_capacity_shrink st); try done.
    simpl. intros t rec'. rewrite od_get_del.
    destruct (decide (id = t)); [done|]. intros Hrec'. by exists rec'.
Qed.

Lemma add_guests_capacity st size name :
  capacity_ok st -> 0 <= size -> capacity_ok (add_guests st size name).2.
Proof.
  intros [Hw Hs Hfit] Hsize. unfold add_guests. split; simpl; try done.
  intros g grp [[-> ->]|Hin]%od_in_set; [done|by eapply Hw].
Qed.

Lemma rename_group_capacity st g n :
  capacity_ok st -> capacity_ok (rename_group st g n).2.
Proof.
  intros [Hw Hs Hfit]. unfold rename_group.
  destruct (od_get g (groups st)) as [grp|] eqn:Hg; simpl.
  - split; simpl; try done.
    intros g' grp' [[-> ->]|Hin]%od_in_set; [|by eapply Hw].
    simpl. eapply Hw, od_get_Some_in, Hg.
  - destruct (seated_groups st !! g) as [s|] eqn:Hs'; [|done].
    unfold with_seated_groups. cbn [snd].
    split; cbn [groups seated_groups tables]; try done.
    + intros g' s'. destruct (decide (g = g')) as [<-|Hne].
      * rewrite lookup_insert_eq. intros [= <-]. simpl. by eapply Hs.
      * rewrite lookup_insert_ne by done. apply Hs.
    + intros t rec Hrec.
      rewrite (occupancy_same_sizes (seated_groups st)); [by apply Hfit|].
      intros g'. cbn [seated_groups]. destruct (decide (g = g')) as [<-|Hne].
      * by rewrite lookup_insert_eq, Hs'.
      * by rewrite lookup_insert_ne.
Qed.

Lemma mark_group_left_tables st g t rec' :
  od_get t (tables (state_of (mark_group_left st g))) = Some rec' ->
  exists rec, od_get t (tables st) = Some rec /\
              Table.capacity rec' = Table.capacity rec.
Proof.
  unfold mark_group_left.
  assert (od_get t (tables st) = Some rec' ->
          exists rec, od_get t (tables st) = Some rec /\
                      Table.capacity rec' = Table.capacity rec) as Hsame by eauto.
  destruct (seated_groups st !! g) as [s|]; [|done].
  destruct (assignments st !! Seated.table s) as [l|]; [|done].
  destruct (bool_decide (g ∈ l)); [|done].
  destruct (remove_first g l) as [|y l']; [|done].
  simpl.
  destruct (od_get (Seated.table s) (tables st)) as [rec0|] eqn:Hrec0; [|done].
  assert (forall t' r, od_get t' (od_set (Seated.table s)
                                    (Table.set_occupied false rec0) (tables st)) = Some r ->
            exists rec, od_get t' (tables st) = Some rec /\
                        Table.capacity r = Table.capacity rec) as Hcl.
  { intros t' r. rewrite od_get_set.
    destruct (decide (Seated.table s = t')) as [<-|]; [|by eauto].
    intros [= <-]. by exists rec0. }
  destruct (contains_plus (Seated.table s)); simpl; [|apply Hcl].
  destruct (combined_tables st !! Seated.table s) as [comps|]; simpl; [|apply Hcl].
  rewrite od_get_del. destruct (decide (Seated.table s = t)); [done|].
  rewrite release_components_lookup.
  destruct (bool_decide (t ∈ comps)); [|apply Hcl].
  destruct (od_get t (od_set _ _ _)) as [r|] eqn:Hr; [|done].
  intros [= <-]. destruct (Hcl _ _ Hr) as (rec & ? & ?). by exists rec.
Qed.

Lemma mark_group_left_shorter st g t sg :
  (forall g s, sg !! g = Some s -> 0 <= Seated.size s) ->
  occupancy sg (assigned (state_of (mark_group_left st g)) t)
  <= occupancy sg (assigned st t).
Proof.
  intros Hsg. unfold mark_group_left.
  destruct (seated_groups st !! g) as [s|]; [|done].
  destruct (assignments st !! Seated.table s) as [l|] eqn:Hl; [|done].
  destruct (bool_decide (g ∈ l)); [|done].
  assert (forall l' a gr sd n c,
            occupancy sg l' <= occupancy sg l ->
            occupancy sg (assigned (mkState a (<[Seated.table s := l']> (assignments st))
                                            gr sd n c) t)
            <= occupancy sg (assigned st t)) as Hins.
  { intros l' a gr sd n c Hle. rewrite assigned_insert.
    destruct (decide (Seated.table s = t)) as [<-|]; [|done].
    unfold assigned. by rewrite Hl. }
  assert (occupancy sg [] <= occupancy sg l) as Hnil by (by apply occupancy_nonneg).
  destruct (remove_first g l) as [|y l'] eqn:Hrem.
  2:{ simpl. apply Hins. rewrite <- Hrem. by apply occupancy_remove_first. }
  simpl.
  destruct (od_get (Seated.table s) (tables st)) as [rec|]; [|by apply Hins].
  destruct (contains_plus (Seated.table s)); simpl; [|by apply Hins].
  destruct (combined_tables st !! Seated.table s); simpl; [|by apply Hins].
  unfold assigned at 1. simpl. rewrite lookup_delete, lookup_insert.
  destruct (decide (Seated.table s = t)); [|done].
  simpl. by apply occupancy_nonneg.
Qed.

Lemma mark_group_left_capacity st g :
  capacity_ok st -> capacity_ok (state_of (mark_group_left st g)).
Proof.
  intros [Hw Hs Hfit].
  assert (groups (state_of (mark_group_left st g)) = groups st) as Hgr.
  { unfold mark_group_left. by repeat (case_match; simpl; try done). }
  assert (forall g' s, seated_groups (state_of (mark_group_left st g)) !! g' = Some s ->
                       seated_groups st !! g' = Some s) as Hsg.
  { unfold mark_group_left. intros g' s.
    repeat (case_match; simpl; try done);
      by intros [_ ?]%lookup_delete_Some. }
  split.
  - by rewrite Hgr.
  - intros g' s Hg'. by eapply Hs, Hsg.
  - apply (within_capacity_shrink st); try done.
    + apply mark_group_left_tables.
    + intros t. by apply mark_group_left_shorter.
Qed.

Lemma find_best_table_for_group_capacity st size g :
  consistent st -> capacity_ok st ->
  capacity_ok (state_of (find_best_table_for_group st size g)).
Proof.
  intros Hc [Hw Hs Hfit].
  destruct (find_best_table_for_group_spec st size g)
    as [id rec ? ? ?| |room comps total tbls Hfree Hnil Htot Hplus Hkeys Hlook];
    simpl; try done.
  split; try done.
  intros t rec. unfold combine_state. simpl.
  rewrite od_get_set, assigned_insert.
  destruct (decide (join_plus comps = t)) as [<-|Hne].
  - intros [= <-]. simpl.
    destruct comps as [|c comps']; [done|].
    destruct (Hfree c) as (r & Hin & _ & Hsmall); [left|].
    apply (od_get_in_unique _ _ _ (keys_unique st Hc)) in Hin.
    pose proof (Hfit c r Hin).
    pose proof (occupancy_nonneg (seated_groups st) (assigned st c) Hs). lia.
  - rewrite Hlook. destruct (bool_decide (t ∈ comps)); [|apply Hfit].
    destruct (od_get t (tables st)) as [r|] eqn:Hr; [|done].
    intros [= <-]. by apply (Hfit t r).
Qed.

Lemma optimize_step_capacity snapshot st st' :
  (forall g data, In (g, data) snapshot -> 0 <= Group.size data) ->
  consistent st -> ledger_consistent st -> capacity_ok st ->
  optimize_step snapshot st st' -> capacity_ok st'.
Proof.
  intros Hsnap Hc Hl Hcap Hstep. revert Hc Hl Hcap.
  destruct Hstep as [st0 size g|st0 g data t rec Hg Hwait Hrec Hkind];
    intros Hc Hl Hcap.
  - by apply find_best_table_for_group_capacity.
  - apply seated_state_capacity; try done; [by eapply Hsnap|].
    destruct Hkind as [(rec0 & Hin & Hs & Hfit)|(_ & _ & -> & Hfit)]; [|simpl; lia].
    apply (od_get_in_unique _ _ _ (keys_unique _ Hc)) in Hin.
    apply skipped_false in Hs as (_ & Hplain & Hocc).
    assert (rec0 = rec) as -> by congruence.
    rewrite (flag_matches_free rec (assigned st0 t)); [simpl; lia| |done].
    by apply (flag_plain st0 Hc).
Qed.

Lemma optimize_seating_capacity st log :
  consistent st -> ledger_consistent st -> registered st -> capacity_ok st ->
  capacity_ok (state_of (optimize_seating st log)).1.
Proof.
  intros Hc Hl Hr Hcap. unfold optimize_seating.
  assert (forall g data,
            In (g, data) (sort_desc (fun x => Group.size x.2) (groups st)) ->
            0 <= Group.size data) as Hsnap.
  { intros g data Hin%sort_desc_in. by eapply (waiting_sizes st Hcap). }
  destruct (optimize_loop_steps (sort_desc (fun x => Group.size x.2) (groups st))
              (sort_desc (fun x => Group.size x.2) (groups st)) st log
              (fun p H => H))
    as (st' & log' & -> & Hsteps).
  simpl. revert Hsnap Hsteps.
  generalize (sort_desc (fun x => Group.size x.2) (groups st)).
  intros snapshot Hsnap Hsteps. revert Hc Hl Hr Hcap.
  induction Hsteps as [|s1 s2 s3 Hstep _ IH]; intros Hc Hl Hr Hcap; [done|].
  apply IH; try done.
  - by eapply optimize_step_consistent.
  - destruct Hstep as [st0 size g|st0 g data t rec Hg Hwait Hrec Hkind];
      [by apply find_best_table_for_group_ledger|by apply seated_state_ledger].
  - destruct Hstep as [st0 size g|st0 g data t rec Hg Hwait Hrec Hkind];
      [by apply find_best_table_for_group_registered|by apply seated_state_registered].
  - by eapply optimize_step_capacity.
Qed.

Lemma sized_call_capacity st st' :
  consistent st -> ledger_consistent st -> registered st -> capacity_ok st ->
  sized_call st st' -> capacity_ok st'.
Proof.
  intros Hc Hl Hr Hcap Hcall. revert Hc Hl Hr Hcap.
  destruct Hcall as [st0 id cap room Hnew Hpos|st0 id Hp|st0 size name Hpos
                    |st0 g t Hp|st0 g|st0 size g|st0 log|st0 g n];
    intros Hc Hl Hr Hcap.
  - by apply add_table_capacity.
  - by apply remove_table_capacity.
  - by apply add_guests_capacity.
  - by apply seat_guests_capacity.
  - by apply mark_group_left_capacity.
  - by apply find_best_table_for_group_capacity.
  - by apply optimize_seating_capacity.
  - by apply rename_group_capacity.
Qed.

(** The bound of C1 where it does hold: no table is over its capacity in a
    state reached by careful calls with capacities and sizes that are not
    negative. *)
Lemma sized_reachable_within_capacity st :
  rtc sized_call init st -> within_capacity st.
Proof.
  intros H. apply tables_fit.
  assert ((consistent init /\ ledger_consistent init /\ registered init)
          /\ capacity_ok init) as Hinit.
  { split; [by apply careful_reachable_sound|]. by split. }
  revert Hinit. induction H as [|s1 s2 s3 Hcall _ IH]; intros [Hs Hcap]; [done|].
  apply IH. split.
  - eapply careful_call_sound; [done|]. by apply sized_call_careful.
  - destruct Hs as (Hc & Hl & Hr). by eapply sized_call_capacity.
Qed.

(** * Further properties of the planner *)

(** ** The ledger under any calls *)

Lemma requeue_lookup l st g :
  seated_groups (requeue l st) !! g
  = (if bool_decide (g ∈ l) then None else seated_groups st !! g) /\
  od_get g (groups (requeue l st))
  = (if bool_decide (g ∈ l) then
       match seated_groups st !! g with
       | Some s => Some (Group.mk (Seated.size s) (Seated.name s))
       | None => od_get g (groups st)
       end
     else od_get g (groups st)).
Proof.
  revert st. induction l as [|x r IH]; intros st; simpl; [done|].
  destruct (decide (g = x)) as [->|Hne].
  - rewrite (bool_decide_true (x ∈ x :: r)) by left.
    destruct (seated_groups st !! x) as [d|] eqn:Hx.
    + match goal with
      | |- context [requeue r ?s0] => destruct (IH s0) as [-> ->]
      end.
      simpl. rewrite lookup_delete_eq, od_get_set_eq.
      by destruct (bool_decide (x ∈ r)).
    + destruct (IH st) as [-> ->]. rewrite Hx.
      by destruct (bool_decide (x ∈ r)).
  - assert (bool_decide (g ∈ x :: r) = bool_decide (g ∈ r)) as ->.
    { apply bool_decide_ext. rewrite elem_of_cons. intuition congruence. }
    destruct (seated_groups st !! x) as [d|] eqn:Hx; [|apply IH].
    match goal with
    | |- context [requeue r ?s0] => destruct (IH s0) as [-> ->]
    end.
    simpl. by rewrite lookup_delete_ne, od_get_set_ne by done.
Qed.

Lemma requeue_next l st : next_group_id (requeue l st) = next_group_id st.
Proof. by destruct (requeue_ledger l st) as (-> & _). Qed.

Lemma seated_state_sound st t rec g size name :
  ledger_sound st -> od_get t (tables st) = Some rec ->
  od_get g (groups st) <> None ->
  ledger_sound (seated_state st t rec g size name).
Proof.
  intros [H1 H2 H3 H5 H4] Ht Hg. unfold seated_state. split; simpl.
  - intros g'. rewrite od_get_del.
    destruct (decide (g = g')) as [<-|Hne]; [done|].
    intros Hw. rewrite lookup_insert_ne by done. by apply H1.
  - intros g'. rewrite od_get_del. destruct (decide (g = g')); [done|apply H2].
  - intros g' s. destruct (decide (g = g')) as [<-|Hne].
    + intros _. by apply H2.
    + rewrite lookup_insert_ne by done. apply H3.
  - intros t' g'. rewrite assigned_insert.
    destruct (decide (t = t')) as [<-|]; [|apply H5].
    intros [Hin|Hin%list_elem_of_singleton]%elem_of_app.
    + by eapply H5.
    + subst g'. by apply H2.
  - intros t'. rewrite od_get_set, assigned_insert.
    destruct (decide (t = t')); [done|apply H4].
Qed.

Lemma find_best_table_for_group_sound st size g :
  ledger_sound st -> ledger_sound (state_of (find_best_table_for_group st size g)).
Proof.
  intros [H1 H2 H3 H5 H4].
  destruct (find_best_table_for_group_spec st size g)
    as [id rec ? ? ?| |room comps total tbls Hfree Hnil Htot Hplus Hkeys Hlook];
    simpl; try done.
  unfold combine_state. split; simpl; try done.
  { intros t g'. rewrite assigned_insert.
    destruct (decide (join_plus comps = t)); [by intros ?%elem_of_nil|apply H5]. }
  intros t. rewrite od_get_set, assigned_insert.
  destruct (decide (join_plus comps = t)); [done|].
  intros Hl. specialize (H4 _ Hl). rewrite Hlook.
  destruct (bool_decide (t ∈ comps)); [|done].
  by destruct (od_get t (tables st)).
Qed.

Lemma mark_group_left_sound st g :
  ledger_sound st -> ledger_sound (state_of (mark_group_left st g)).
Proof.
  intros [H1 H2 H3 H5 H4].
  assert (groups (state_of (mark_group_left st g)) = groups st) as Hgr.
  { unfold mark_group_left. by repeat (case_match; simpl; try done). }
  assert (next_group_id (state_of (mark_group_left st g)) = next_group_id st) as Hn.
  { unfold mark_group_left. by repeat (case_match; simpl; try done). }
  assert (forall g' s, seated_groups (state_of (mark_group_left st g)) !! g' = Some s ->
                       seated_groups st !! g' = Some s) as Hsg.
  { unfold mark_group_left. intros g' s.
    repeat (case_match; simpl; try done);
      by intros [_ ?]%lookup_delete_Some. }
  split; rewrite ?Hgr, ?Hn.
  - intros g' Hw. specialize (H1 _ Hw).
    destruct (seated_groups (state_of (mark_group_left st g)) !! g') as [s|] eqn:Hs;
      [|done].
    apply Hsg in Hs. congruence.
  - done.
  - intros g' s Hs. by eapply H3, Hsg.
  - intros t g' Hin. eapply H5. by eapply mark_group_left_assigned.
  - intros t Hl.
    assert (assigned st t <> []) as Hold.
    { intros Hnil. destruct (assigned (state_of (mark_group_left st g)) t) as [|x l] eqn:Hx;
        [done|].
      assert (x ∈ assigned st t) as Hin
        by (apply (mark_group_left_assigned st g); rewrite Hx; left).
      rewrite Hnil in Hin. by apply elem_of_nil in Hin. }
    specialize (H4 _ Hold).
    destruct (od_get t (tables (state_of (mark_group_left st g)))) as [r|] eqn:Hr; [done|].
    revert Hl Hr. unfold mark_group_left.
    destruct (seated_groups st !! g) as [s|]; [|by intros _ ?].
    destruct (assignments st !! Seated.table s) as [l|] eqn:Hls; [|by intros _ ?].
    destruct (bool_decide (g ∈ l)); [|by intros _ ?].
    destruct (remove_first g l) as [|y l']; [|by intros _ ?].
    simpl.
    destruct (od_get (Seated.table s) (tables st)) as [rec|] eqn:Hrec; [|by intros _ ?].
    assert (od_get t (od_set (Seated.table s) (Table.set_occupied false rec) (tables st))
            <> None) as Hcl.
    { rewrite od_get_set. by destruct (decide (Seated.table s = t)). }
    destruct (contains_plus (Seated.table s)); simpl; [|by intros _ ?].
    destruct (combined_tables st !! Seated.table s) as [comps|]; simpl; [|by intros _ ?].
    unfold assigned. simpl. rewrite lookup_delete, od_get_del.
    destruct (decide (Seated.table s = t)); [done|].
    intros _. rewrite release_components_lookup.
    destruct (bool_decide (t ∈ comps)); [|done].
    by destruct (od_get t (od_set _ _ _)).
Qed.

Lemma remove_table_sound st id :
  ledger_sound st -> ledger_sound (remove_table st id).
Proof.
  intros [H1 H2 H3 H5 H4]. unfold remove_table.
  destruct (od_get id (tables st)) as [rec|] eqn:Hid; [|done].
  simpl. destruct (assignments st !! id) as [l|] eqn:Hl.
  - destruct (requeue_frame l (with_tables st (od_del id (tables st)))) as (Ht & Ha & _).
    pose proof (requeue_lookup l (with_tables st (od_del id (tables st)))) as Hlook.
    pose proof (requeue_next l (with_tables st (od_del id (tables st)))) as Hn.
    simpl in Ht, Ha, Hlook, Hn.
    split; simpl; rewrite ?Hn, ?Ht.
    + intros g. destruct (Hlook g) as [-> ->].
      destruct (bool_decide (g ∈ l)); [done|apply H1].
    + intros g. destruct (Hlook g) as [_ ->].
      destruct (bool_decide (g ∈ l)); [|apply H2].
      destruct (seated_groups st !! g) as [s|] eqn:Hs; [|apply H2].
      intros _. by eapply H3.
    + intros g s. destruct (Hlook g) as [-> _].
      destruct (bool_decide (g ∈ l)); [done|apply H3].
    + intros t g. unfold assigned. simpl. rewrite Ha, lookup_delete.
      destruct (decide (id = t)); [by intros ?%elem_of_nil|apply H5].
    + intros t. unfold assigned. simpl. rewrite Ha, lookup_delete, od_get_del.
      destruct (decide (id = t)); [done|apply H4].
  - split; simpl; try done.
    intros t Ht. rewrite od_get_del.
    destruct (decide (id = t)) as [<-|]; [|by apply H4].
    unfold assigned in Ht. simpl in Ht. by rewrite Hl in Ht.
Qed.

Lemma call_sound st st' : ledger_sound st -> call st st' -> ledger_sound st'.
Proof.
  intros Hst Hcall. revert Hst.
  destruct Hcall as [st0 id cap room|st0 id|st0 size name|st0 g t|st0 g
                    |st0 size g|st0 log|st0 g n]; intros Hst.
  - destruct Hst as [H1 H2 H3 H5 H4]. split; try done.
    intros t Hl. unfold add_table. simpl. rewrite od_get_set.
    destruct (decide (id = t)); [done|by apply H4].
  - by apply remove_table_sound.
  - destruct Hst as [H1 H2 H3 H5 H4]. unfold add_guests. split; simpl; try done.
    + intros g. rewrite od_get_set.
      destruct (decide (next_group_id st0 = g)) as [<-|]; [|apply H1].
      intros _. destruct (seated_groups st0 !! next_group_id st0) as [s|] eqn:Hs; [|done].
      specialize (H3 _ _ Hs). lia.
    + intros g. rewrite od_get_set.
      destruct (decide (next_group_id st0 = g)) as [<-|]; [lia|].
      intros Hg. specialize (H2 _ Hg). lia.
    + intros g s Hs. specialize (H3 _ _ Hs). lia.
    + intros t g Hin. specialize (H5 _ _ Hin). lia.
  - destruct (od_get t (tables st0)) as [rec|] eqn:Ht.
    2:{ unfold seat_guests. by rewrite Ht. }
    destruct (od_get g (groups st0)) as [grp|] eqn:Hg.
    2:{ unfold seat_guests. by rewrite Ht, Hg. }
    rewrite (seat_guests_unfold _ _ _ _ _ Ht Hg).
    repeat case_match; simpl; try done.
    apply (seated_state_sound st0 t rec g); [done..|congruence].
  - by apply mark_group_left_sound.
  - by apply find_best_table_for_group_sound.
  - unfold optimize_seating.
    destruct (optimize_loop_steps (sort_desc (fun x => Group.size x.2) (groups st0))
                (sort_desc (fun x => Group.size x.2) (groups st0)) st0 log
                (fun p H => H))
      as (st' & log' & -> & Hsteps).
    simpl. revert Hst.
    induction Hsteps as [|s1 s2 s3 Hstep _ IH]; intros Hst; [done|].
    apply IH. revert Hst.
    destruct Hstep as [s0 size g|s0 g data t rec Hg Hwait Hrec Hkind]; intros Hst.
    + by apply find_best_table_for_group_sound.
    + by apply seated_state_sound.
  - destruct Hst as [H1 H2 H3 H5 H4]. unfold rename_group.
    destruct (od_get g (groups st0)) as [grp|] eqn:Hg; simpl.
    + split; simpl; try done.
      * intros g'. rewrite od_get_set.
        destruct (decide (g = g')) as [<-|]; [|apply H1].
        intros _. apply H1. congruence.
      * intros g'. rewrite od_get_set.
        destruct (decide (g = g')) as [<-|]; [|apply H2].
        intros _. apply H2. congruence.
    + destruct (seated_groups st0 !! g) as [s|] eqn:Hs; [|done].
      split; simpl; try done.
      * intros g' Hw. rewrite lookup_insert_ne; [by apply H1|].
        intros <-. congruence.
      * intros g' s'. destruct (decide (g = g')) as [<-|Hne].
        -- intros _. by eapply H3.
        -- rewrite lookup_insert_ne by done. apply H3.
Qed.

Lemma reachable_sound st : reachable st -> ledger_sound st.
Proof.
  unfold reachable. intros H.
  assert (ledger_sound init) as Hinit.
  { split; try done. intros t g. unfold assigned. simpl.
    rewrite lookup_empty. by intros ?%elem_of_nil. }
  revert Hinit. induction H as [|s1 s2 s3 Hcall _ IH]; intros Hs1; [done|].
  apply IH. by eapply call_sound.
Qed.

(** X1. After any sequence of engine calls from a new planner, no group is
    waiting and seated at once, and every group id in use (waiting,
    seated, or listed at a table) is below [next_group_id]. *)
Theorem reachable_ledger st :
  reachable st ->
  (forall g, od_get g (groups st) <> None -> seated_groups st !! g = None) /\
  (forall g,
     od_get g (groups st) <> None \/ is_Some (seated_groups st !! g)
     \/ (exists t, g ∈ assigned st t) ->
     g < next_group_id st).
Proof.
  intros [H1 H2 H3 H5 H4]%reachable_sound. split; [done|].
  intros g [Hw|[[s Hs]|[t Ht]]]; eauto.
Qed.

(** X2. In a state reached by engine calls, [mark_group_left] returns for
    every group id: the lookup [self.tables[table_id]] it makes after
    emptying a list cannot fail. *)
Theorem mark_group_left_never_raises st g :
  reachable st -> exists r st', mark_group_left st g = Ret r st'.
Proof.
  intros [_ _ _ _ H4]%reachable_sound. unfold mark_group_left.
  destruct (seated_groups st !! g) as [s|]; [|by eauto].
  destruct (assignments st !! Seated.table s) as [l|] eqn:Hl; [|by eauto].
  destruct (bool_decide (g ∈ l)) eqn:Hin; [|by eauto].
  apply bool_decide_eq_true in Hin.
  destruct (remove_first g l) as [|y l']; [|by eauto].
  simpl.
  destruct (od_get (Seated.table s) (tables st)) as [rec|] eqn:Hrec.
  - destruct (contains_plus (Seated.table s)); [|by eauto].
    simpl. destruct (combined_tables st !! Seated.table s); by eauto.
  - exfalso. apply (H4 (Seated.table s)); [|done].
    unfold assigned. rewrite Hl. simpl. intros ->. by apply elem_of_nil in Hin.
Qed.

(** X3. In a state reached by engine calls, [add_guests] hands out an id
    that no group has: it is [next_group_id], not waiting, not seated and
    listed at no table; the new group waits under it with the given size,
    and all other groups are as before. *)
Theorem add_guests_fresh_id st size name :
  reachable st ->
  let g := (add_guests st size name).1 in
  let st' := (add_guests st size name).2 in
  g = next_group_id st /\
  od_get g (groups st) = None /\
  seated_groups st !! g = None /\
  (forall t, g ∉ assigned st t) /\
  next_group_id st' = g + 1 /\
  Group.size <$> od_get g (groups st') = Some size /\
  (forall g', g' <> g -> od_get g' (groups st') = od_get g' (groups st)) /\
  seated_groups st' = seated_groups st.
Proof.
  intros [H1 H2 H3 H5 H4]%reachable_sound. simpl.
  split_and!; try done.
  - destruct (od_get (next_group_id st) (groups st)) eqn:Hg; [|done].
    assert (next_group_id st < next_group_id st) by (apply H2; congruence). lia.
  - destruct (seated_groups st !! next_group_id st) as [s|] eqn:Hs; [|done].
    specialize (H3 _ _ Hs). lia.
  - intros t Hin. specialize (H5 _ _ Hin). lia.
  - by rewrite od_get_set_eq.
  - intros g' Hne. by rewrite od_get_set_ne.
Qed.

(** X4. A group can leave only once: after [mark_group_left] has
    succeeded for a group, a second call for the same group is rejected
    with "Group not found or not seated" and changes nothing. *)
Theorem mark_group_left_twice st g msg st1 :
  mark_group_left st g = Ret (true, msg) st1 ->
  mark_group_left st1 g = Ret (false, "Group not found or not seated") st1.
Proof.
  intros Hfirst.
  assert (seated_groups st1 !! g = None) as Hgone.
  { revert Hfirst. unfold mark_group_left.
    repeat (case_match; simpl; try done);
      intros [= _ <-]; simpl; apply lookup_delete_eq. }
  unfold mark_group_left. by rewrite Hgone.
Qed.

(** X5. [remove_table] on a table of the registry deletes the table and
    its assignment list, and puts every group that was seated at it back
    on the waiting list with its size and name; every other group is
    where it was. *)
Theorem remove_table_requeues st id :
  od_get id (tables st) <> None ->
  let st' := remove_table st id in
  od_get id (tables st') = None /\
  assignments st' !! id = None /\
  (forall g s, g ∈ assigned st id -> seated_groups st !! g = Some s ->
     od_get g (groups st') = Some (Group.mk (Seated.size s) (Seated.name s)) /\
     seated_groups st' !! g = None) /\
  (forall g, g ∉ assigned st id ->
     od_get g (groups st') = od_get g (groups st) /\
     seated_groups st' !! g = seated_groups st !! g).
Proof.
  intros Hid. simpl. unfold remove_table, assigned.
  destruct (od_get id (tables st)) as [rec|]; [clear Hid|done].
  simpl. destruct (assignments st !! id) as [l|] eqn:Hl; simpl.
  - destruct (requeue_frame l (with_tables st (od_del id (tables st)))) as (Ht & Ha & _).
    pose proof (requeue_lookup l (with_tables st (od_del id (tables st)))) as Hlook.
    simpl in Ht, Ha, Hlook. rewrite Ht, Ha, lookup_delete_eq, od_get_del_eq.
    split_and!; try done.
    + intros g s Hin Hs. destruct (Hlook g) as [-> ->].
      by rewrite bool_decide_true, Hs by done.
    + intros g Hin. destruct (Hlook g) as [-> ->].
      by rewrite bool_decide_false by done.
  - rewrite od_get_del_eq. split_and!; try done.
    by intros g s ?%elem_of_nil.
Qed.

(** X6. [remove_table] changes the record and the assignment list of no
    other table and never touches [combined_tables] or the counter:
    removing a combination leaves its entry in [combined_tables] and its
    parts marked as they were. *)
Theorem remove_table_frame st id :
  let st' := remove_table st id in
  combined_tables st' = combined_tables st /\
  next_group_id st' = next_group_id st /\
  (forall k, k <> id ->
     od_get k (tables st') = od_get k (tables st) /\
     assignments st' !! k = assignments st !! k).
Proof.
  simpl. unfold remove_table.
  destruct (od_get id (tables st)) as [rec|]; [|done].
  simpl. destruct (assignments st !! id) as [l|] eqn:Hl; simpl.
  - destruct (requeue_frame l (with_tables st (od_del id (tables st)))) as (Ht & Ha & Hc).
    pose proof (requeue_next l (with_tables st (od_del id (tables st)))) as Hn.
    simpl in Ht, Ha, Hc, Hn. rewrite Ht, Ha, Hc, Hn.
    split_and!; try done.
    intros k Hne. by rewrite od_get_del_ne, lookup_delete_ne.
  - split_and!; try done. intros k Hne. by rewrite od_get_del_ne.
Qed.

(** X7. [rename_group] answers [True] exactly for a group that is waiting
    or seated, and changes nothing but a name: tables, assignments,
    counter, combinations, the order of the waiting list, every size and
    every seat stay as they are. *)
Theorem rename_group_effect st g n :
  let b := (rename_group st g n).1 in
  let st' := (rename_group st g n).2 in
  (b = true <-> od_get g (groups st) <> None \/ is_Some (seated_groups st !! g)) /\
  tables st' = tables st /\ assignments st' = assignments st /\
  next_group_id st' = next_group_id st /\
  combined_tables st' = combined_tables st /\
  (groups st').*1 = (groups st).*1 /\
  (forall g', Group.size <$> od_get g' (groups st')
              = Group.size <$> od_get g' (groups st)) /\
  (forall g', Seated.size <$> seated_groups st' !! g'
              = Seated.size <$> seated_groups st !! g' /\
              Seated.table <$> seated_groups st' !! g'
              = Seated.table <$> seated_groups st !! g') /\
  (forall g', g' <> g ->
     od_get g' (groups st') = od_get g' (groups st) /\
     seated_groups st' !! g' = seated_groups st !! g').
Proof.
  simpl. unfold rename_group.
  destruct (od_get g (groups st)) as [grp|] eqn:Hg; simpl.
  - split_and!; try done.
    + split; [intros _; by left|done].
    + by rewrite (od_set_keys_present _ _ _ _ Hg).
    + intros g'. rewrite od_get_set.
      destruct (decide (g = g')) as [<-|]; [by rewrite Hg|done].
    + intros g' Hne. by rewrite od_get_set_ne.
  - destruct (seated_groups st !! g) as [s|] eqn:Hs; simpl.
    + split_and!; try done.
      * split; [intros _; right; by eexists|done].
      * intros g'. destruct (decide (g = g')) as [<-|].
        -- by rewrite lookup_insert_eq, Hs.
        -- by rewrite lookup_insert_ne.
      * intros g' Hne. by rewrite lookup_insert_ne.
    + split_and!; try done.
      split; [done|]. intros [?|[? ?]]; done.
Qed.

(** X8. Renaming a group and then renaming it back to its old name gives
    the state before the first call, for a waiting group and for a
    seated one. *)
Theorem rename_group_round_trip st g old n :
  Group.name <$> od_get g (groups st) = Some old \/
  (od_get g (groups st) = None /\
   Seated.name <$> seated_groups st !! g = Some old) ->
  (rename_group st g n).1 = true /\
  rename_group (rename_group st g n).2 g old = (true, st).
Proof.
  unfold rename_group. intros [Hw|[Hw Hs]].
  - destruct (od_get g (groups st)) as [[size nm]|] eqn:Hg; [|done].
    simpl in Hw. injection Hw as ->. simpl. split; [done|].
    rewrite od_get_set_eq. simpl. rewrite od_set_set, (od_set_id _ _ _ Hg).
    by destruct st.
  - rewrite Hw. destruct (seated_groups st !! g) as [[size nm t]|] eqn:Hsg; [|done].
    simpl in Hs. injection Hs as ->. simpl. split; [done|].
    rewrite Hw, lookup_insert_eq. simpl.
    rewrite insert_insert_eq, (insert_id _ _ _ Hsg).
    by destruct st.
Qed.

(** ** The search for a table, exactly *)

Lemma first_single_split size tbls id :
  first_single size tbls = Some id ->
  exists pre rec post,
    tbls = (pre ++ (id, rec) :: post)%list /\ skipped id rec = false /\
    size <= Table.capacity rec /\
    forall p, In p pre -> free p = true -> Table.capacity p.2 < size.
Proof.
  induction tbls as [|[id0 rec0] r IH]; simpl; [done|].
  destruct (skipped id0 rec0) eqn:Hs.
  - intros (pre & rec & post & -> & ? & ? & Hpre)%IH.
    exists ((id0, rec0) :: pre), rec, post. split_and!; try done.
    intros p [<-|Hin]; [|by apply Hpre].
    unfold free. simpl. by rewrite Hs.
  - destruct (size <=? Table.capacity rec0) eqn:Hle.
    + intros [= ->]. exists [], rec0, r. split_and!; try done. lia.
    + intros (pre & rec & post & -> & ? & ? & Hpre)%IH.
      exists ((id0, rec0) :: pre), rec, post. split_and!; try done.
      intros p [<-|Hin]; [|by apply Hpre].
      intros _. simpl. lia.
Qed.

Lemma sum_list_app l1 l2 : sum_list (l1 ++ l2) = sum_list l1 + sum_list l2.
Proof. unfold sum_list. induction l1 as [|x r IH]; simpl; lia. Qed.

Lemma sum_list_perm l1 l2 : l1 ≡ₚ l2 -> sum_list l1 = sum_list l2.
Proof. unfold sum_list. induction 1; simpl; lia. Qed.

Lemma sum_list_nonneg l : (forall x, In x l -> 0 <= x) -> 0 <= sum_list l.
Proof.
  unfold sum_list. induction l as [|x r IH]; simpl; [lia|].
  intros H. assert (0 <= x) by (apply H; by left).
  assert (0 <= foldr Z.add 0 r) by (apply IH; intros; apply H; by right). lia.
Qed.

Lemma sum_list_in_le x l :
  (forall y, In y l -> 0 <= y) -> In x l -> x <= sum_list l.
Proof.
  induction l as [|y r IH]; [done|].
  intros Hpos [->|Hin].
  - assert (0 <= sum_list r) by (apply sum_list_nonneg; intros; apply Hpos; by right).
    unfold sum_list in *. simpl. lia.
  - assert (0 <= y) by (apply Hpos; by left).
    assert (x <= sum_list r) by (apply IH; [intros; apply Hpos; by right|done]).
    unfold sum_list in *. simpl. lia.
Qed.

Lemma room_free_cons id rec r room :
  room_free ((id, rec) :: r) room
  = if negb (skipped id rec) && bool_decide (Table.room rec = room)
    then (id, rec) :: room_free r room else room_free r room.
Proof. done. Qed.

(** The list a room has in [empty_tables_by_room]: its free tables, in
    dictionary order, behind what the room had before. *)
Lemma group_by_room_get tbls acc room :
  od_get room (group_by_room tbls acc)
  = match od_get room acc with
    | Some l =>
        Some (l ++ map (fun p => (p.1, Table.capacity p.2)) (room_free tbls room))%list
    | None =>
        match room_free tbls room with
        | [] => None
        | l => Some (map (fun p => (p.1, Table.capacity p.2)) l)
        end
    end.
Proof.
  revert acc. induction tbls as [|[id rec] r IH]; intros acc.
  - simpl. destruct (od_get room acc); [by rewrite app_nil_r|done].
  - cbn [group_by_room]. rewrite room_free_cons.
    destruct (skipped id rec) eqn:Hs; cbn [negb andb]; [apply IH|].
    rewrite IH, od_get_set.
    destruct (decide (Table.room rec = room)) as [Hr|Hr].
    + rewrite bool_decide_true by done. subst room.
      destruct (od_get (Table.room rec) acc) as [l|]; simpl.
      * by rewrite <- app_assoc.
      * done.
    + rewrite bool_decide_false by done.
      by destruct (od_get room acc).
Qed.

Lemma group_by_room_get_free tbls room p :
  In p (room_free tbls room) ->
  od_get room (group_by_room tbls [])
  = Some (map (fun p => (p.1, Table.capacity p.2)) (room_free tbls room)).
Proof.
  intros Hin. rewrite group_by_room_get. simpl.
  by destruct (room_free tbls room).
Qed.

Lemma group_by_room_NoDup tbls acc :
  NoDup acc.*1 -> NoDup (group_by_room tbls acc).*1.
Proof.
  revert acc. induction tbls as [|[id rec] r IH]; intros acc Hacc; simpl; [done|].
  destruct (skipped id rec); [by apply IH|].
  by apply IH, od_set_NoDup.
Qed.

Lemma group_by_room_in tbls room l :
  In (room, l) (group_by_room tbls []) ->
  l = map (fun p => (p.1, Table.capacity p.2)) (room_free tbls room) /\ l <> [].
Proof.
  intros Hin.
  assert (od_get room (group_by_room tbls []) = Some l) as Hget.
  { apply od_get_in_unique; [|done]. apply group_by_room_NoDup. constructor. }
  rewrite group_by_room_get in Hget. simpl in Hget.
  destruct (room_free tbls room) as [|p r]; [done|].
  injection Hget as <-. by split.
Qed.

Lemma accumulate_Some size l s acc comps total :
  accumulate size l s acc = Some (comps, total) ->
  exists run rest,
    l = (run ++ rest)%list /\ run <> [] /\
    comps = (acc ++ run.*1)%list /\ total = s + sum_list run.*2 /\ size <= total.
Proof.
  revert s acc. induction l as [|[id cap] r IH]; intros s acc; simpl; [done|].
  destruct (size <=? s + cap) eqn:Hle.
  - intros [= <- <-]. exists [(id, cap)], r. split_and!; try done.
    + unfold sum_list. simpl. lia.
    + lia.
  - intros (run & rest & -> & _ & -> & -> & ?)%IH.
    exists ((id, cap) :: run), rest. csimpl. split_and!; try done.
    + by rewrite <- app_assoc.
    + unfold sum_list. simpl. lia.
Qed.

Lemma accumulate_None size l s acc :
  accumulate size l s acc = None -> l <> [] -> s + sum_list l.*2 < size.
Proof.
  revert s acc. induction l as [|[id cap] r IH]; intros s acc; [done|].
  simpl. destruct (size <=? s + cap) eqn:Hle; [done|].
  intros Hacc _. destruct r as [|q r'].
  - unfold sum_list. simpl. lia.
  - assert (s + cap + sum_list (q :: r').*2 < size) by (by eapply IH).
    unfold sum_list in *. csimpl in *. lia.
Qed.

Lemma accumulate_small size l s acc :
  (forall x, In x l.*2 -> 0 <= x) -> s + sum_list l.*2 < size ->
  accumulate size l s acc = None.
Proof.
  revert s acc. induction l as [|[id cap] r IH]; intros s acc Hpos Hsum; [done|].
  csimpl in *.
  assert (0 <= cap) by (apply Hpos; by left).
  assert (0 <= sum_list r.*2) by (apply sum_list_nonneg; intros; apply Hpos; by right).
  unfold sum_list in Hsum. simpl in Hsum. fold (sum_list r.*2) in Hsum.
  rewrite (proj2 (Z.leb_gt _ _)) by lia.
  apply IH; [intros; apply Hpos; by right|lia].
Qed.

Lemma try_starts_Some size l comps total :
  try_starts size l = Some (comps, total) ->
  exists pre run rest,
    l = (pre ++ run ++ rest)%list /\ run <> [] /\
    comps = run.*1 /\ total = sum_list run.*2 /\ size <= total.
Proof.
  induction l as [|[id cap] r IH]; [done|].
  cbn [try_starts].
  destruct (accumulate size ((id, cap) :: r) 0 []) as [[comps' total']|] eqn:Hacc.
  - intros [= -> ->].
    destruct (accumulate_Some _ _ _ _ _ _ Hacc) as (run & rest & Hl & ? & -> & -> & ?).
    by exists [], run, rest.
  - intros (pre & run & rest & -> & ? & -> & -> & ?)%IH.
    by exists ((id, cap) :: pre), run, rest.
Qed.

Lemma try_starts_None size l :
  try_starts size l = None -> l <> [] -> sum_list l.*2 < size.
Proof.
  destruct l as [|p r]; [done|]. cbn [try_starts].
  destruct (accumulate size (p :: r) 0 []) as [res|] eqn:Hacc; [done|].
  intros _ _. by apply (accumulate_None _ _ 0 []) in Hacc.
Qed.

Lemma try_starts_small size l :
  (forall x, In x l.*2 -> 0 <= x) -> sum_list l.*2 < size ->
  try_starts size l = None.
Proof.
  induction l as [|[id cap] r IH]; intros Hpos Hsum; [done|].
  cbn [try_starts]. rewrite accumulate_small; [|done|lia].
  csimpl in *.
  assert (0 <= cap) by (apply Hpos; by left).
  unfold sum_list in Hsum. simpl in Hsum. fold (sum_list r.*2) in Hsum.
  apply IH; [intros; apply Hpos; by right|lia].
Qed.

Lemma find_combination_None size rms room l :
  find_combination size rms = None -> In (room, l) rms ->
  try_starts size (sort_desc snd l) = None.
Proof.
  induction rms as [|[room0 l0] r IH]; simpl; [done|].
  destruct (try_starts size (sort_desc snd l0)) as [[comps total]|] eqn:Ht; [done|].
  intros Hr [[= <- <-]|Hin]; [done|by apply IH].
Qed.

Lemma find_combination_all_None size rms :
  (forall room l, In (room, l) rms -> try_starts size (sort_desc snd l) = None) ->
  find_combination size rms = None.
Proof.
  induction rms as [|[room0 l0] r IH]; simpl; [done|].
  intros H. rewrite (H room0 l0) by (by left).
  apply IH. intros room l Hin. apply (H room). by right.
Qed.

Lemma sort_desc_sum (l : list (string * Z)) :
  sum_list (sort_desc snd l).*2 = sum_list l.*2.
Proof. apply sum_list_perm. by rewrite sort_desc_perm. Qed.

Lemma room_free_in tbls room p :
  In p (room_free tbls room) <->
  In p tbls /\ free p = true /\ Table.room p.2 = room.
Proof.
  unfold room_free. rewrite filter_In, andb_true_iff, bool_decide_eq_true. tauto.
Qed.

Lemma free_capacity_caps tbls room :
  (map (fun p : string * Table.t => (p.1, Table.capacity p.2)) (room_free tbls room)).*2
  = map (fun p => Table.capacity p.2) (room_free tbls room).
Proof. induction (room_free tbls room) as [|p r IH]; csimpl; [done|]. by rewrite IH. Qed.

Lemma filter_keys_subset {V} (P : string * V -> bool) (l : list (string * V)) k :
  k ∈ (List.filter P l).*1 -> k ∈ l.*1.
Proof.
  induction l as [|x r IH]; csimpl; [done|].
  destruct (P x); csimpl.
  - intros [->|Hin]%elem_of_cons; [left|right; by apply IH].
  - intros Hin. right. by apply IH.
Qed.

Lemma filter_keys_NoDup {V} (P : string * V -> bool) (l : list (string * V)) :
  NoDup l.*1 -> NoDup (List.filter P l).*1.
Proof.
  induction l as [|x r IH]; csimpl; [done|].
  intros [Hx Hr]%NoDup_cons. destruct (P x); csimpl; [|by apply IH].
  apply NoDup_cons. split; [|by apply IH].
  intros Hin. by apply Hx, (filter_keys_subset P).
Qed.

Lemma map_keys_values {A} (h : string -> A) (run : list (string * A)) :
  (forall q, In q run -> h q.1 = q.2) -> map h run.*1 = run.*2.
Proof.
  induction run as [|q r IH]; csimpl; [done|].
  intros H. rewrite (H q) by (by left). f_equal. apply IH.
  intros q' Hq'. apply H. by right.
Qed.

Lemma candidate_keys (l : list (string * Table.t)) :
  (map (fun p : string * Table.t => (p.1, Table.capacity p.2)) l).*1 = l.*1.
Proof. induction l as [|p r IH]; csimpl; [done|]. by rewrite IH. Qed.

(** The run [find_combination] returns: distinct free tables of one room,
    with the sum of their capacities. *)
Lemma find_combination_exact tbls size room comps total :
  NoDup tbls.*1 ->
  find_combination size (group_by_room tbls []) = Some (room, comps, total) ->
  NoDup comps /\
  (forall c, c ∈ comps ->
     exists rec, od_get c tbls = Some rec /\ free (c, rec) = true /\
                 Table.room rec = room) /\
  total = sum_list (map (fun c => default 0 (Table.capacity <$> od_get c tbls)) comps) /\
  size <= total.
Proof.
  intros Hnd (l & Hin & Htry)%find_combination_room.
  apply group_by_room_in in Hin as [Hl _].
  apply try_starts_Some in Htry as (pre & run & rest & Hsort & _ & -> & -> & Hle).
  assert (forall q, In q run ->
            exists rec, od_get q.1 tbls = Some rec /\ free (q.1, rec) = true /\
                        Table.room rec = room /\ Table.capacity rec = q.2) as Hrun.
  { intros q Hq.
    assert (In q (sort_desc snd l)) as Hs.
    { rewrite Hsort. apply in_or_app. right. apply in_or_app. by left. }
    apply sort_desc_in in Hs. rewrite Hl in Hs.
    apply in_map_iff in Hs as ([id rec] & <- & Hp).
    apply room_free_in in Hp as (Hp & Hfree & Hroom). simpl in *.
    exists rec. split_and!; try done. by apply od_get_in_unique. }
  split_and!; try done.
  - assert (NoDup (sort_desc snd l).*1) as Hnd'.
    { rewrite sort_desc_perm, Hl, candidate_keys.
      by apply filter_keys_NoDup. }
    rewrite Hsort, !fmap_app in Hnd'.
    apply NoDup_app in Hnd' as (_ & _ & Hnd').
    by apply NoDup_app in Hnd' as (? & _ & _).
  - intros c ((c0 & cap) & -> & Hq%list_elem_of_In)%list_elem_of_fmap.
    destruct (Hrun _ Hq) as (rec & ? & ? & ? & _). by exists rec.
  - f_equal. symmetry. apply map_keys_values.
    intros q Hq. destruct (Hrun _ Hq) as (rec & -> & _ & _ & <-). done.
Qed.

Lemma free_not_skipped id rec : free (id, rec) = true <-> skipped id rec = false.
Proof. unfold free. simpl. by destruct (skipped id rec). Qed.

Lemma free_marked id rec : free (id, marked rec) = false.
Proof.
  unfold free, skipped, marked. simpl.
  by destruct (contains_plus id).
Qed.

(** What [find_best_table_for_group] leaves when it combines tables. *)
Lemma find_combination_facts st size g cid o st' :
  NoDup (tables st).*1 ->
  find_best_table_for_group st size g = Ret (Some cid, true, o) st' ->
  exists comps room,
    o = Some comps /\ cid = join_plus comps /\ contains_plus cid = true /\
    (2 <= length comps)%nat /\ NoDup comps /\
    (forall c, c ∈ comps ->
       exists rec, od_get c (tables st) = Some rec /\ free (c, rec) = true /\
                   Table.room rec = room /\ Table.capacity rec < size /\
                   od_get c (tables st') = Some (marked rec)) /\
    (forall id rec, In (id, rec) (tables st) -> free (id, rec) = true ->
                    Table.capacity rec < size) /\
    size <= sum_list (map (fun c => default 0 (Table.capacity <$> od_get c (tables st)))
                          comps) /\
    od_get cid (tables st')
    = Some (Table.mk
              (sum_list (map (fun c => default 0 (Table.capacity <$> od_get c (tables st)))
                             comps))
              true true (Some comps) room) /\
    combined_tables st' = <[cid := comps]> (combined_tables st) /\
    assignments st' = <[cid := []]> (assignments st) /\
    groups st' = groups st /\ seated_groups st' = seated_groups st /\
    next_group_id st' = next_group_id st /\
    (tables st').*1 = (od_set cid (Table.mk 0 true true None room) (tables st)).*1 /\
    (forall k, k <> cid -> k ∉ comps -> od_get k (tables st') = od_get k (tables st)).
Proof.
  intros Hnd. unfold find_best_table_for_group.
  destruct (first_single size (tables st)) as [id0|] eqn:Hf; [done|].
  destruct (find_combination size (group_by_room (tables st) []))
    as [[[room comps] total]|] eqn:Hc; [|done].
  destruct (find_combination_exact _ _ _ _ _ Hnd Hc) as (Hndc & Hcomps & Htot & Hle).
  assert (forall id rec, In (id, rec) (tables st) -> free (id, rec) = true ->
                         Table.capacity rec < size) as Hsmall.
  { intros id rec Hin Hfree%free_not_skipped. by eapply first_single_None. }
  assert (exists c1 c2 rest, comps = c1 :: c2 :: rest) as (c1 & c2 & rest & Hlen).
  { destruct (find_combination_room _ _ _ _ _ Hc) as (l & Hin & Htry).
    apply try_starts_run in Htry as (_ & _ & Htwo). apply Htwo.
    intros id cap Hi%sort_desc_in.
    apply group_by_room_in in Hin as [-> _].
    apply in_map_iff in Hi as ([id1 rec] & [= <- <-] & Hp).
    apply room_free_in in Hp as (Hp & Hfree & _). by eapply Hsmall. }
  assert (contains_plus (join_plus comps) = true) as Hplus
    by (rewrite Hlen; apply contains_plus_join).
  destruct (mark_combined_lookup comps (tables st)) as (tbls' & Hmark & Hlook).
  { intros c Hcin. destruct (Hcomps c Hcin) as (rec & -> & _). done. }
  rewrite Hmark. intros [= <- <- <-]. exists comps, room.
  rewrite <- Htot. simpl.
  assert (forall c, c ∈ comps -> c <> join_plus comps) as Hne.
  { intros c Hcin Heq. destruct (Hcomps c Hcin) as (rec & _ & Hfree & _).
    apply free_not_skipped, skipped_false in Hfree as (Hp & _).
    rewrite Heq in Hp. congruence. }
  split_and!; try done.
  - rewrite Hlen. simpl. lia.
  - intros c Hcin. destruct (Hcomps c Hcin) as (rec & Hget & Hfree & Hroom).
    exists rec. split_and!; try done.
    + eapply Hsmall; [|done]. by apply od_get_Some_in.
    + rewrite od_get_set_ne by (intros ?; by eapply Hne).
      by rewrite Hlook, bool_decide_true, Hget by done.
  - by rewrite od_get_set_eq.
  - destruct (od_get (join_plus comps) (tables st)) as [r0|] eqn:Hcid.
    + assert (od_get (join_plus comps) tbls' <> None) as Hcid'.
      { rewrite Hlook, Hcid. by destruct (bool_decide _). }
      destruct (od_get (join_plus comps) tbls') as [r1|] eqn:Hr1; [|done].
      rewrite (od_set_keys_present _ _ _ _ Hr1), (od_set_keys_present _ _ _ _ Hcid).
      by apply mark_combined_keys in Hmark.
    + assert (od_get (join_plus comps) tbls' = None) as Hr1.
      { rewrite Hlook, Hcid. by destruct (bool_decide _). }
      rewrite (od_set_keys_missing _ _ _ Hr1), (od_set_keys_missing _ _ _ Hcid).
      by apply mark_combined_keys in Hmark as ->.
  - intros k Hk Hkc. rewrite od_get_set_ne by done.
    by rewrite Hlook, bool_decide_false.
Qed.

Lemma find_single_facts st size g id o st' :
  find_best_table_for_group st size g = Ret (Some id, false, o) st' ->
  st' = st /\ o = None /\
  exists pre rec post,
    tables st = (pre ++ (id, rec) :: post)%list /\
    free (id, rec) = true /\ size <= Table.capacity rec /\
    forall p, In p pre -> free p = true -> Table.capacity p.2 < size.
Proof.
  unfold find_best_table_for_group.
  destruct (first_single size (tables st)) as [id0|] eqn:Hf.
  - intros [= -> <- <-]. split_and!; try done.
    apply first_single_split in Hf as (pre & rec & post & ? & ?%free_not_skipped & ? & ?).
    by exists pre, rec, post.
  - destruct (find_combination size (group_by_room (tables st) []))
      as [[[room comps] total]|]; [|done].
    by destruct (mark_combined comps (tables st)).
Qed.

Lemma find_flag st size g id c o st' :
  find_best_table_for_group st size g = Ret (Some id, c, o) st' ->
  (c = false /\ find_best_table_for_group st size g = Ret (Some id, false, o) st') \/
  (c = true /\ find_best_table_for_group st size g = Ret (Some id, true, o) st').
Proof. intros H. destruct c; [right|left]; by split. Qed.

Lemma od_get_middle {V} (k : string) (v : V) (pre post : list (string * V)) :
  NoDup (pre ++ (k, v) :: post)%list.*1 ->
  od_get k (pre ++ (k, v) :: post)%list = Some v.
Proof.
  intros Hnd. apply od_get_in_unique; [done|].
  apply in_or_app. right. by left.
Qed.


(** X10. With no negative capacity in the registry,
    [find_best_table_for_group] answers [(None, False, None)] exactly when
    every room that has a free table has less free capacity in total than
    the group needs; the planner is then unchanged. *)
Theorem find_nothing_iff st size g :
  (forall id rec, In (id, rec) (tables st) -> 0 <= Table.capacity rec) ->
  find_best_table_for_group st size g = Ret (None, false, None) st <->
  (forall id rec, In (id, rec) (tables st) -> free (id, rec) = true ->
     free_capacity (tables st) (Table.room rec) < size).
Proof.
  intros Hpos. unfold find_best_table_for_group, free_capacity. split.
  - destruct (first_single size (tables st)) as [id0|] eqn:Hf; [done|].
    destruct (find_combination size (group_by_room (tables st) []))
      as [[[room comps] total]|] eqn:Hc.
    { by destruct (mark_combined comps (tables st)). }
    intros _ id rec Hin Hfree.
    assert (In (id, rec) (room_free (tables st) (Table.room rec))) as Hrf
      by (by apply room_free_in).
    pose proof (group_by_room_get_free _ _ _ Hrf) as Hget.
    apply od_get_Some_in in Hget.
    apply (find_combination_None _ _ _ _ Hc) in Hget.
    apply try_starts_None in Hget.
    + by rewrite sort_desc_sum, free_capacity_caps in Hget.
    + intros Hnil.
      assert (In (id, Table.capacity rec)
                 (sort_desc snd (map (fun p : string * Table.t => (p.1, Table.capacity p.2))
                                     (room_free (tables st) (Table.room rec))))) as Hs.
      { apply sort_desc_in, in_map_iff. by exists (id, rec). }
      by rewrite Hnil in Hs.
  - intros Hroom.
    assert (first_single size (tables st) = None) as ->.
    { destruct (first_single size (tables st)) as [id0|] eqn:Hf; [|done].
      apply first_single_Some in Hf as (rec & Hin & Hfree%free_not_skipped & Hle).
      specialize (Hroom _ _ Hin Hfree).
      assert (Table.capacity rec
              <= sum_list (map (fun p => Table.capacity p.2)
                               (room_free (tables st) (Table.room rec)))).
      { apply sum_list_in_le.
        - intros y ([id1 rec1] & <- & (Hy & _)%room_free_in)%in_map_iff.
          by eapply Hpos.
        - apply in_map_iff. exists (id0, rec). split; [done|]. by apply room_free_in. }
      lia. }
    rewrite find_combination_all_None; [done|].
    intros room l Hin. apply group_by_room_in in Hin as [-> Hnil].
    apply try_starts_small.
    + intros x Hx. apply list_elem_of_In in Hx.
      rewrite (sort_desc_perm snd) in Hx. apply list_elem_of_In in Hx.
      rewrite free_capacity_caps in Hx.
      apply in_map_iff in Hx as ([id1 rec1] & <- & (Hy & _)%room_free_in).
      by eapply Hpos.
    + rewrite sort_desc_sum, free_capacity_caps.
      destruct (room_free (tables st) room) as [|[id1 rec1] r] eqn:Hrf; [done|].
      assert (In (id1, rec1) (room_free (tables st) room)) as Hp
        by (rewrite Hrf; by left).
      apply room_free_in in Hp as (Hp & Hfree & Hr). simpl in Hr. subst room.
      specialize (Hroom _ _ Hp Hfree). by rewrite Hrf in Hroom.
Qed.


Lemma find_keys_unique st size g r st' :
  NoDup (tables st).*1 ->
  find_best_table_for_group st size g = Ret r st' -> NoDup (tables st').*1.
Proof.
  intros Hnd Hfind. destruct r as [[[t|] c] o].
  - destruct (find_flag _ _ _ _ _ _ _ Hfind) as [[-> H]|[-> H]].
    + by apply find_single_facts in H as (-> & _).
    + destruct (find_combination_facts _ _ _ _ _ _ Hnd H)
        as (comps & room & _ & _ & _ & _ & _ & _ & _ & _ & _ & _ & _ & _ & _ & _ & -> & _).
      by apply od_set_NoDup.
  - revert Hfind. unfold find_best_table_for_group.
    destruct (first_single size (tables st)); [done|].
    destruct (find_combination size (group_by_room (tables st) []))
      as [[[room comps] total]|].
    + destruct (mark_combined comps (tables st)); intros H; discriminate H.
    + by intros [= _ _ <-].
Qed.

(** Every table a search hands out, alone or as a part, is free. *)
Lemma find_picks_free st size g t c o st' x :
  NoDup (tables st).*1 ->
  find_best_table_for_group st size g = Ret (Some t, c, o) st' ->
  (c = false /\ x = t) \/ x ∈ default [] o ->
  exists rec, od_get x (tables st) = Some rec /\ free (x, rec) = true.
Proof.
  intros Hnd Hfind Hx.
  destruct (find_flag _ _ _ _ _ _ _ Hfind) as [[-> H]|[-> H]].
  - apply find_single_facts in H as (_ & -> & pre & rec & post & Ht & Hfree & _).
    destruct Hx as [[_ ->]|Hx]; [|by apply elem_of_nil in Hx].
    exists rec. split; [|done]. rewrite Ht in *. by apply od_get_middle.
  - destruct (find_combination_facts _ _ _ _ _ _ Hnd H)
      as (comps & room & -> & _ & _ & _ & _ & Hcomps & _).
    destruct Hx as [[? _]|Hx]; [done|]. simpl in Hx.
    destruct (Hcomps x Hx) as (rec & ? & ? & _). by exists rec.
Qed.

(** X12. Tables engaged in a combination are not handed out again: a
    search made after tables were combined returns neither a part of that
    combination nor, as a single table, the combination itself, and it
    uses none of them as a part of a new combination. *)
Theorem combined_parts_not_found_again st size g cid comps st1 size' g' t c' o' st2 :
  NoDup (tables st).*1 ->
  find_best_table_for_group st size g = Ret (Some cid, true, Some comps) st1 ->
  find_best_table_for_group st1 size' g' = Ret (Some t, c', o') st2 ->
  (t ∉ comps) /\ (c' = false -> t <> cid) /\
  (forall x, x ∈ default [] o' -> (x ∉ comps) /\ x <> cid).
Proof.
  intros Hnd Hfirst Hsecond.
  pose proof (find_keys_unique _ _ _ _ _ Hnd Hfirst) as Hnd1.
  destruct (find_combination_facts _ _ _ _ _ _ Hnd Hfirst)
    as (comps0 & room & [= <-] & -> & Hplus & _ & _ & Hcomps & _ & _ & Hcid & _).
  assert (forall x rec, od_get x (tables st1) = Some rec -> free (x, rec) = true ->
                        (x ∉ comps) /\ x <> join_plus comps) as Hfree.
  { intros x rec Hget Hfr. split.
    - intros Hin. destruct (Hcomps x Hin) as (rec0 & _ & _ & _ & _ & Hm).
      rewrite Hm in Hget. injection Hget as <-. by rewrite free_marked in Hfr.
    - intros ->. apply free_not_skipped, skipped_false in Hfr as (Hp & _). congruence. }
  split_and!.
  - destruct (find_flag _ _ _ _ _ _ _ Hsecond) as [[-> H]|[-> H]].
    + destruct (find_picks_free _ _ _ _ _ _ _ t Hnd1 H) as (rec & Hget & Hfr);
        [by left|]. by eapply Hfree.
    + destruct (find_combination_facts _ _ _ _ _ _ Hnd1 H)
        as (comps' & room' & _ & _ & Hplus' & _).
      intros Hin. destruct (Hcomps t Hin) as (rec0 & _ & Hfr & _).
      apply free_not_skipped, skipped_false in Hfr as (Hp & _). congruence.
  - intros ->.
    destruct (find_picks_free _ _ _ _ _ _ _ t Hnd1 Hsecond) as (rec & Hget & Hfr);
      [by left|]. by eapply Hfree.
  - intros x Hx.
    destruct (find_picks_free _ _ _ _ _ _ _ x Hnd1 Hsecond) as (rec & Hget & Hfr);
      [by right|]. by eapply Hfree.
Qed.

(** X13. The table [find_best_table_for_group] returns for a waiting
    group can always be taken with [seat_guests]: the call answers "Group
    seated successfully" and leaves the state [optimize_seating] builds
    by hand, also for a combination, whose record is flagged occupied
    before anyone sits. *)
Theorem find_then_seat_guests st g grp t c o st1 :
  NoDup (tables st).*1 ->
  od_get g (groups st) = Some grp ->
  find_best_table_for_group st (Group.size grp) g = Ret (Some t, c, o) st1 ->
  exists rec,
    od_get t (tables st1) = Some rec /\
    seat_guests st1 g t
    = (SeatedOk, seated_state st1 t rec g (Group.size grp) (Group.name grp)) /\
    seat_found st1 t g (Group.size grp) (Group.name grp)
    = Ret tt (seated_state st1 t rec g (Group.size grp) (Group.name grp)).
Proof.
  intros Hnd Hg Hfind.
  destruct (find_flag _ _ _ _ _ _ _ Hfind) as [[-> H]|[-> H]].
  - apply find_single_facts in H as (-> & -> & pre & rec & post & Ht & Hfree & Hle & _).
    assert (od_get t (tables st) = Some rec) as Hget.
    { rewrite Ht in *. by apply od_get_middle. }
    exists rec. split_and!; [done| |by apply seat_found_unfold].
    rewrite (seat_guests_unfold _ _ _ _ _ Hget Hg).
    apply free_not_skipped, skipped_false in Hfree as (_ & _ & ->).
    by rewrite (proj2 (Z.ltb_ge _ _)) by lia.
  - destruct (find_combination_facts _ _ _ _ _ _ Hnd H)
      as (comps & room & -> & -> & _ & _ & _ & _ & _ & Hle & Hcid & _ & Ha & Hgr & _).
    eexists. split_and!; [done| |by apply seat_found_unfold].
    assert (od_get g (groups st1) = Some grp) as Hg1 by (by rewrite Hgr).
    assert (occupancy (seated_groups st1) (assigned st1 (join_plus comps)) = 0) as Hocc.
    { unfold assigned. by rewrite Ha, lookup_insert_eq. }
    rewrite (seat_guests_unfold _ _ _ _ _ Hcid Hg1), Hocc. simpl.
    rewrite (proj2 (Z.ltb_ge _ _)) by lia. simpl.
    by rewrite (proj2 (Z.ltb_ge _ _)) by lia.
Qed.

(** ** Batch seating, further *)

Lemma find_table_exists st size g t c o st1 :
  find_best_table_for_group st size g = Ret (Some t, c, o) st1 ->
  od_get t (tables st1) <> None.
Proof.
  intros Hfind. pose proof (find_best_table_for_group_spec st size g) as Hspec.
  rewrite Hfind in Hspec. inversion Hspec; subst.
  - by eapply od_get_is_key.
  - unfold combine_state. simpl. by rewrite od_get_set_eq.
Qed.

Lemma optimize_step_next snapshot st st' :
  rtc (optimize_step snapshot) st st' -> next_group_id st' = next_group_id st.
Proof.
  induction 1 as [|s1 s2 s3 Hstep _ IH]; [done|]. rewrite IH.
  destruct Hstep as [s0 size g|s0 g data t rec _ _ _ _]; [|done].
  by destruct (find_best_table_for_group_spec s0 size g).
Qed.

Lemma optimize_loop_log todo st log :
  exists extra,
    (state_of (optimize_loop todo st log)).2 = (log ++ extra)%list /\
    (length extra <= length todo)%nat.
Proof.
  revert st log. induction todo as [|[g data] r IH]; intros st log.
  { exists []. simpl. by rewrite app_nil_r. }
  cbn [optimize_loop].
  repeat case_match; simpl;
    try (exists []; rewrite app_nil_r; split; [done|simpl; lia]);
    match goal with
    | |- context [optimize_loop r ?s ?l] => destruct (IH s l) as (extra & -> & Hlen)
    end;
    try (exists extra; split; [done|lia]).
  eexists (_ :: extra). rewrite <- app_assoc. split; [done|simpl; lia].
Qed.

(** X14. [optimize_seating] serves a largest waiting group first: the
    group at the head of the sorted snapshot is at least as large as every
    waiting group, and if the search finds a table for it in the state the
    call starts from, the group ends the call seated at that very table
    with its size and name. *)
Theorem optimize_seating_largest_first st log g data rest t c o st1 :
  sort_desc (fun x => Group.size x.2) (groups st) = (g, data) :: rest ->
  find_best_table_for_group st (Group.size data) g = Ret (Some t, c, o) st1 ->
  t <> "" ->
  let st' := (state_of (optimize_seating st log)).1 in
  In (g, data) (groups st) /\
  (forall g' d', In (g', d') (groups st) -> Group.size d' <= Group.size data) /\
  od_get g (groups st') = None /\
  seated_groups st' !! g = Some (Seated.mk (Group.size data) (Group.name data) t).
Proof.
  intros Hsort Hfind Ht. simpl.
  assert (In (g, data) (groups st)) as Hin.
  { apply (sort_desc_in (fun x => Group.size x.2)). rewrite Hsort. by left. }
  split; [done|]. split.
  { intros g' d' Hin'.
    pose proof (sort_desc_sorted (fun x : Z * Group.t => Group.size x.2) (groups st)) as Hs.
    apply (sort_desc_in (fun x => Group.size x.2)) in Hin'.
    rewrite Hsort in Hs, Hin'. apply StronglySorted_inv in Hs as [_ Hall].
    destruct Hin' as [[= -> ->]|Hin']; [lia|].
    rewrite Forall_forall in Hall. by apply (Hall (g', d')), list_elem_of_In. }
  unfold optimize_seating. rewrite Hsort. cbn [optimize_loop].
  destruct (od_get g (groups st)) as [grp|] eqn:Hg.
  2:{ by destruct (od_get_is_key _ _ _ Hin). }
  rewrite Hfind, decide_False by done.
  destruct (od_get t (tables st1)) as [rec|] eqn:Hrec.
  2:{ by destruct (find_table_exists _ _ _ _ _ _ _ Hfind). }
  rewrite (seat_found_unfold _ _ _ _ _ _ Hrec).
  set (st2 := seated_state st1 t rec g (Group.size data) (Group.name data)).
  assert (od_get t (tables st2) = Some (Table.set_occupied true rec)) as Hrec2
    by (unfold st2, seated_state; simpl; by rewrite od_get_set_eq).
  assert (forall log2,
            od_get g (groups (state_of (optimize_loop rest st2 log2)).1) = None /\
            seated_groups (state_of (optimize_loop rest st2 log2)).1 !! g
            = Some (Seated.mk (Group.size data) (Group.name data) t)) as Hrest.
  { intros log2.
    destruct (optimize_loop_steps rest rest st2 log2 (fun p H => H))
      as (st' & log' & -> & Hsteps).
    destruct (optimize_steps_ledger _ _ _ Hsteps) as [Hgone _ Hstay _ _]. simpl.
    assert (od_get g (groups st2) = None) as Hg2
      by (unfold st2, seated_state; simpl; by rewrite od_get_del_eq).
    split; [by apply Hgone|]. apply Hstay; [done|].
    unfold st2, seated_state. simpl. by rewrite lookup_insert_eq. }
  destruct c.
  - rewrite Hrec2.
    destruct (Hrest (log ++ [mkMessage (default [] o) (Table.room (Table.set_occupied true rec))
                                      (Group.name data)])%list) as [H1 H2].
    revert H1 H2.
    destruct (optimize_loop rest st2 _) as [[] [s l]|[s l]]; simpl; by intros.
  - destruct (Hrest log) as [H1 H2]. revert H1 H2.
    destruct (optimize_loop rest st2 _) as [[] [s l]|[s l]]; simpl; by intros.
Qed.

(** X15. What [optimize_seating] leaves alone: the id counter; every
    table of the registry, which is still there afterwards; every group
    that was seated, with its record; the groups that were not waiting,
    which are not waiting afterwards; and the message log, to which it
    only appends, at most one line for each waiting group and without
    cutting the log back to ten lines. *)
Theorem optimize_seating_keeps st log :
  let st' := (state_of (optimize_seating st log)).1 in
  let log' := (state_of (optimize_seating st log)).2 in
  next_group_id st' = next_group_id st /\
  (forall t, od_get t (tables st) <> None -> od_get t (tables st') <> None) /\
  (forall g s, od_get g (groups st) = None -> seated_groups st !! g = Some s ->
               seated_groups st' !! g = Some s) /\
  (forall g, od_get g (groups st) = None -> od_get g (groups st') = None) /\
  exists extra, log' = (log ++ extra)%list /\ (length extra <= length (groups st))%nat.
Proof.
  simpl. split_and!.
  1-4: unfold optimize_seating;
    destruct (optimize_loop_steps (sort_desc (fun x => Group.size x.2) (groups st))
                (sort_desc (fun x => Group.size x.2) (groups st)) st log
                (fun p H => H))
      as (st' & log' & -> & Hsteps); simpl.
  - by eapply optimize_step_next.
  - by destruct (optimize_steps_ledger _ _ _ Hsteps).
  - by destruct (optimize_steps_ledger _ _ _ Hsteps).
  - by destruct (optimize_steps_ledger _ _ _ Hsteps).
  - unfold optimize_seating.
    destruct (optimize_loop_log (sort_desc (fun x => Group.size x.2) (groups st)) st log)
      as (extra & Hlog & Hlen).
    exists extra. split.
    + revert Hlog. by destruct (optimize_loop _ st log) as [[] [s l]|[s l]].
    + by rewrite (Permutation_length (sort_desc_perm _ _)) in Hlen.
Qed.

(** X16. A free table whose id is the empty string blocks
    [optimize_seating]: when the search answers with the id [""] for every
    waiting group, the test [if table_id:] fails each time, and the call
    ends with planner and log as they were. *)
Theorem optimize_seating_empty_id st log :
  (forall g d, In (g, d) (groups st) ->
     first_single (Group.size d) (tables st) = Some "") ->
  optimize_seating st log = Ret None (st, log).
Proof.
  intros Hall. unfold optimize_seating.
  assert (forall p, In p (sort_desc (fun x : Z * Group.t => Group.size x.2) (groups st)) ->
                    first_single (Group.size p.2) (tables st) = Some "") as Hs.
  { intros [g d] Hin%sort_desc_in. by eapply Hall. }
  revert Hs. generalize (sort_desc (fun x : Z * Group.t => Group.size x.2) (groups st)).
  intros todo Hs.
  assert (optimize_loop todo st log = Ret tt (st, log)) as ->; [|done].
  induction todo as [|[g d] r IH]; [done|].
  cbn [optimize_loop].
  assert (optimize_loop r st log = Ret tt (st, log)) as Hr.
  { apply IH. intros p Hp. apply Hs. by right. }
  destruct (od_get g (groups st)); [|done].
  unfold find_best_table_for_group.
  pose proof (Hs (g, d) (or_introl eq_refl)) as Hfirst. simpl in Hfirst.
  rewrite Hfirst. by rewrite decide_True.
Qed.

(** ** Utilisation *)

Lemma same_view_refl st : same_view st st.
Proof. by repeat split. Qed.

Lemma same_view_trans st1 st2 st3 :
  same_view st1 st2 -> same_view st2 st3 -> same_view st1 st3.
Proof.
  intros (A1 & A2 & A3 & A4 & A5 & A6) (B1 & B2 & B3 & B4 & B5 & B6).
  repeat split; try congruence.
Qed.

Lemma dd_get_same_view st k :
  same_view st (with_assignments st (dd_get k (assignments st)).2).
Proof.
  repeat split. intros k'. unfold assigned. simpl. rewrite dd_get_lookup.
  destruct (decide (k = k')) as [<-|]; [|done].
  by destruct (assignments st !! k).
Qed.

Lemma sum_from_sum_list acc l : sum_from acc l = acc + sum_list l.
Proof.
  revert acc. unfold sum_list.
  induction l as [|x r IH]; intros acc; simpl; [lia|]. rewrite IH. lia.
Qed.

Lemma occupancy_loop_spec ids st total :
  (occupancy_loop ids st total).1
  = total + sum_list (map (fun t => occupancy (seated_groups st) (assigned st t)) ids) /\
  same_view st (occupancy_loop ids st total).2.
Proof.
  revert st total. induction ids as [|t r IH]; intros st total.
  { simpl. split; [unfold sum_list; simpl; lia|apply same_view_refl]. }
  cbn [occupancy_loop].
  pose proof (dd_get_same_view st t) as Hview.
  pose proof (dd_get_list t st) as Hlist.
  destruct (dd_get t (assignments st)) as [l a]. simpl in Hview, Hlist. subst l.
  destruct (IH (with_assignments st a)
               (total + occupancy (seated_groups (with_assignments st a)) (assigned st t)))
    as [-> Hv].
  split; [|by eapply same_view_trans].
  destruct Hview as (_ & _ & Hsg & _ & _ & Ha). simpl in Hsg.
  unfold sum_list. simpl. fold (sum_list
    (map (fun t0 => occupancy (seated_groups st) (assigned (with_assignments st a) t0)) r)).
  assert (map (fun t0 => occupancy (seated_groups st) (assigned (with_assignments st a) t0)) r
          = map (fun t0 => occupancy (seated_groups st) (assigned st t0)) r) as ->.
  { apply map_ext. intros k. by rewrite Ha. }
  unfold sum_list. lia.
Qed.

Lemma sized_reachable_capacity st :
  rtc sized_call init st -> consistent st /\ capacity_ok st.
Proof.
  intros H.
  assert ((consistent init /\ ledger_consistent init /\ registered init)
          /\ capacity_ok init) as Hinit.
  { split; [by apply careful_reachable_sound|]. by split. }
  revert Hinit. induction H as [|s1 s2 s3 Hcall _ IH]; intros [Hs Hcap].
  { by destruct Hs. }
  apply IH. split.
  - eapply careful_call_sound; [done|]. by apply sized_call_careful.
  - destruct Hs as (Hc & Hl & Hr). by eapply sized_call_capacity.
Qed.

(** X17. [get_table_utilization] returns the integer [0] without
    dividing exactly when the table is unknown or its capacity is not
    positive.  Otherwise it evaluates [(occupancy / capacity) * 100] with
    the capacity of the table, which is positive, and the sizes of the
    seated groups on the table's list added up, which may well be 0; and
    in a state where sizes are not negative and tables hold at most their
    capacity, the occupancy lies between 0 and the capacity, the result
    between 0 and 100 per cent. *)
Theorem get_table_utilization_bounds st t :
  let u := (get_table_utilization st t).1 in
  (u = Zero <-> forall rec, od_get t (tables st) = Some rec -> Table.capacity rec <= 0) /\
  (forall o c, u = Percent o c ->
     Table.capacity <$> od_get t (tables st) = Some c /\
     o = guests_at st t /\
     0 < c /\
     (capacity_ok st -> 0 <= o <= c)).
Proof.
  simpl. rewrite <- occupancy_guests_at. unfold get_table_utilization.
  destruct (od_get t (tables st)) as [rec|] eqn:Hrec; simpl.
  2:{ split; [by split|done]. }
  destruct (decide (Table.capacity rec = 0)) as [Hz|Hz]; simpl.
  { split; [|done]. split; [|done]. intros _ r [= <-]. lia. }
  pose proof (dd_get_list t st) as Hlist.
  destruct (dd_get t (assignments st)) as [l a]. simpl in Hlist. subst l. simpl.
  destruct (0 <? Table.capacity rec) eqn:Hpos.
  - apply Z.ltb_lt in Hpos. split.
    + split; [done|]. intros H. specialize (H rec eq_refl). lia.
    + intros o c [= <- <-]. split_and!; try done.
      intros [_ Hsizes Hfit]. split; [by apply occupancy_nonneg|]. by apply Hfit.
  - apply Z.ltb_ge in Hpos. split; [|done].
    split; [|done]. by intros _ r [= <-].
Qed.

(** X18. The two utilisation queries change the planner at most by
    entering empty lists in [assignments]: tables, groups, seats, counter
    and combinations are as before, and so is the list every table id
    stands for. *)
Theorem utilization_queries_frame st t :
  same_view st (get_table_utilization st t).2 /\
  same_view st (get_overall_utilization st).2.
Proof.
  split.
  - unfold get_table_utilization.
    destruct (od_get t (tables st)) as [rec|]; [|apply same_view_refl].
    destruct (decide (Table.capacity rec = 0)); [apply same_view_refl|].
    pose proof (dd_get_same_view st t) as Hview.
    by destruct (dd_get t (assignments st)) as [l a].
  - unfold get_overall_utilization.
    destruct (decide (total_capacity (tables st) = 0)); [apply same_view_refl|].
    pose proof (occupancy_loop_spec (tables st).*1 st 0) as [_ Hview].
    by destruct (occupancy_loop (tables st).*1 st 0) as [o st1].
Qed.

Lemma occupancy_within st (l : list (string * Table.t)) :
  (forall p, In p l -> od_get p.1 (tables st) = Some p.2) ->
  within_capacity st ->
  sum_list (map (fun t => occupancy (seated_groups st) (assigned st t)) l.*1)
  <= sum_list (map (fun p => Table.capacity p.2) l).
Proof.
  intros Hl Hfit. induction l as [|[t rec] r IH]; csimpl; [done|].
  assert (occupancy (seated_groups st) (assigned st t) <= Table.capacity rec) as H1.
  { apply Hfit, (Hl (t, rec)). by left. }
  assert (sum_list (map (fun t => occupancy (seated_groups st) (assigned st t)) r.*1)
          <= sum_list (map (fun p => Table.capacity p.2) r)) as H2.
  { apply IH. intros p Hp. apply Hl. by right. }
  unfold sum_list in *. simpl. lia.
Qed.

(** X19. [get_overall_utilization] returns the integer [0] without
    dividing exactly when the capacities of the registry add up to zero or
    less.  Otherwise it evaluates [(total_occupancy / total_capacity) *
    100] with the capacities of all records added up, which is positive,
    and the guests seated at each table id added up, which may well be 0;
    and in a state with distinct table ids where sizes are not negative
    and tables hold at most their capacity, the occupancy lies between 0
    and the total capacity, the result between 0 and 100 per cent. *)
Theorem get_overall_utilization_bounds st :
  let u := (get_overall_utilization st).1 in
  (u = Zero <-> total_capacity (tables st) <= 0) /\
  (forall o c, u = Percent o c ->
     c = sum_list (map (fun p => Table.capacity p.2) (tables st)) /\
     o = sum_list (map (fun t => guests_at st t) (tables st).*1) /\
     0 < c /\
     (NoDup (tables st).*1 -> capacity_ok st -> 0 <= o <= c)).
Proof.
  simpl. unfold get_overall_utilization.
  assert (total_capacity (tables st)
          = sum_list (map (fun p => Table.capacity p.2) (tables st))) as Htot.
  { unfold total_capacity. rewrite sum_from_sum_list. lia. }
  assert (map (fun t => guests_at st t) (tables st).*1
          = map (fun t => occupancy (seated_groups st) (assigned st t)) (tables st).*1)
    as ->.
  { apply map_ext. intros k. by rewrite occupancy_guests_at. }
  destruct (decide (total_capacity (tables st) = 0)) as [Hz|Hz]; simpl.
  { split; [|done]. split; [lia|done]. }
  pose proof (occupancy_loop_spec (tables st).*1 st 0) as [Hocc _].
  destruct (occupancy_loop (tables st).*1 st 0) as [o st1]. simpl in *. subst o.
  destruct (0 <? total_capacity (tables st)) eqn:Hpos.
  - apply Z.ltb_lt in Hpos. split; [split; [done|lia]|].
    intros o c [= <- <-]. split_and!; try done; try lia.
    intros Hnd [_ Hsizes Hfit]. split.
    + apply sum_list_nonneg. intros x (t & <- & _)%in_map_iff.
      by apply occupancy_nonneg.
    + rewrite Htot. apply occupancy_within; [|done].
      intros [t rec] Hin. by apply od_get_in_unique.
  - apply Z.ltb_ge in Hpos. split; [|done]. split; [lia|done].
Qed.

Lemma od_set_missing {V} (k : string) (v : V) d :
  od_get k d = None -> od_set k v d = (d ++ [(k, v)])%list.
Proof.
  induction d as [|[k' v'] r IH]; simpl; [done|].
  destruct (decide (k = k')); [done|]. intros H. by rewrite IH.
Qed.

Lemma od_get_not_key {V} (k : string) (d : list (string * V)) :
  k ∉ d.*1 -> od_get k d = None.
Proof.
  induction d as [|[k' v'] r IH]; csimpl; [done|].
  intros [Hne Hr]%not_elem_of_cons. by rewrite decide_False, IH.
Qed.

Lemma capacities_by_key (d d' : list (string * Table.t)) :
  d'.*1 = d.*1 -> NoDup d.*1 ->
  (forall k, Table.capacity <$> od_get k d' = Table.capacity <$> od_get k d) ->
  map (fun p => Table.capacity p.2) d' = map (fun p => Table.capacity p.2) d.
Proof.
  revert d'. induction d as [|[k r] t IH]; intros [|[k' r'] t']; csimpl; try done.
  intros [= -> Hkeys] [Hk Ht]%NoDup_cons Hlook. f_equal.
  - specialize (Hlook k). simpl in Hlook. rewrite !decide_True in Hlook by done.
    by injection Hlook.
  - apply IH; try done. intros k0. specialize (Hlook k0). simpl in Hlook.
    destruct (decide (k0 = k)) as [->|]; [|done].
    by rewrite !od_get_not_key by congruence.
Qed.

(** X20. Combining tables counts their seats twice: the combination
    enters the registry beside its parts, so the capacity summed by
    [get_overall_utilization] grows by the capacity of the combination,
    which is the sum of the parts' capacities and at least the size of the
    group. *)
Theorem combination_counted_twice st size g cid o st' :
  NoDup (tables st).*1 ->
  od_get cid (tables st) = None ->
  find_best_table_for_group st size g = Ret (Some cid, true, o) st' ->
  exists rec,
    od_get cid (tables st') = Some rec /\
    size <= Table.capacity rec /\
    Table.capacity rec
    = sum_list (map (fun c => default 0 (Table.capacity <$> od_get c (tables st)))
                    (default [] o)) /\
    total_capacity (tables st') = total_capacity (tables st) + Table.capacity rec.
Proof.
  intros Hnd Hnew Hfind.
  destruct (find_combination_facts _ _ _ _ _ _ Hnd Hfind)
    as (comps & room & -> & -> & _ & _ & _ & Hcomps & _ & Hle & Hcid & _ & _ & _ & _ & _
        & Hkeys & Hother).
  eexists. split; [done|]. simpl. split_and!; try done.
  unfold total_capacity. rewrite !sum_from_sum_list.
  set (rec := Table.mk _ true true (Some comps) room) in *.
  assert (map (fun p => Table.capacity p.2) (tables st')
          = map (fun p => Table.capacity p.2) (od_set (join_plus comps) rec (tables st))) as ->.
  { apply capacities_by_key.
    - rewrite Hkeys, !(od_set_keys_missing _ _ _ Hnew). done.
    - by apply od_set_NoDup.
    - intros k. rewrite od_get_set.
      destruct (decide (join_plus comps = k)) as [<-|Hne]; [by rewrite Hcid|].
      destruct (decide (k ∈ comps)) as [Hin|Hin].
      + destruct (Hcomps k Hin) as (r0 & -> & _ & _ & _ & ->). done.
      + by rewrite Hother. }
  rewrite (od_set_missing _ _ _ Hnew), map_app, sum_list_app.
  unfold sum_list at 2. simpl. lia.
Qed.

(** ** The room catalogue *)

Lemma plus_not_listed t (l : list string) :
  contains_plus t = true -> Forall (fun x => contains_plus x = false) l -> t ∉ l.
Proof.
  intros Ht Hall Hin. rewrite Forall_forall in Hall.
  specialize (Hall _ Hin). congruence.
Qed.

(** X21. [get_room_for_table] answers with the room of the catalogue that
    lists the id, and with ["Unknown"] for every other id; it does not
    know the tables made by combination, whose ids contain ['+']. *)
Theorem get_room_for_table_catalogue t :
  (forall room ids, In (room, ids) rooms -> t ∈ ids -> get_room_for_table t = room) /\
  ((forall room ids, In (room, ids) rooms -> t ∉ ids) ->
   get_room_for_table t = "Unknown") /\
  (contains_plus t = true -> get_room_for_table t = "Unknown").
Proof.
  split_and!.
  - intros room ids Hin Ht. unfold rooms in Hin. simpl in Hin.
    repeat (destruct Hin as [[= <- <-]|Hin]);
      [| | | |done];
      repeat (apply elem_of_cons in Ht as [->|Ht]; [by vm_compute|]);
      by apply elem_of_nil in Ht.
  - intros Hnone. unfold get_room_for_table, rooms. cbn [room_of].
    rewrite !bool_decide_false; [done|..];
      (eapply Hnone; unfold rooms; simpl; eauto 6).
  - intros Hplus. unfold get_room_for_table, rooms. cbn [room_of].
    rewrite !bool_decide_false; [done|..];
      (apply plus_not_listed; [done|repeat constructor]).
Qed.

(** ** The front end *)

(** X22. [log_message] puts the message last; a log of fewer than ten
    lines grows by one, and from ten lines on the oldest line is dropped
    and the length stays what it was: a log within ten lines stays within
    ten, and a log that has grown beyond ten is never cut back. *)
Theorem log_message_length {A : Type} (log : list A) (m : A) :
  last (log_message log m) = Some m /\
  ((length log < 10)%nat -> log_message log m = (log ++ [m])%list) /\
  ((10 <= length log)%nat ->
   log_message log m = (tail log ++ [m])%list /\
   length (log_message log m) = length log).
Proof.
  unfold log_message. rewrite length_app. simpl.
  destruct (10 <? Z.of_nat (length log + 1)) eqn:Hlen.
  - apply Z.ltb_lt in Hlen. destruct log as [|x r]; [simpl in Hlen; lia|].
    simpl. split_and!.
    + by rewrite last_snoc.
    + intros H. simpl in *. lia.
    + intros _. split; [done|]. rewrite length_app. simpl. lia.
  - apply Z.ltb_ge in Hlen. split_and!.
    + by rewrite last_snoc.
    + done.
    + lia.
Qed.

(** X23. The "Add Table" button never overwrites a table: every record of
    the registry is the same after the handler has run.  It adds the
    table, at the end of the registry and free, exactly when the id is not
    empty and not in use, logging one line; otherwise it reports an error
    and the session is unchanged. *)
Theorem add_table_button_keeps_records s id cap room :
  let s' := (add_table_button s id cap room).1 in
  let r := (add_table_button s id cap room).2 in
  (forall k rec, od_get k (tables (planner s)) = Some rec ->
                 od_get k (tables (planner s')) = Some rec) /\
  (r = Rerun <-> id <> "" /\ od_get id (tables (planner s)) = None) /\
  (r = Rerun ->
   tables (planner s')
   = (tables (planner s) ++ [(id, Table.mk cap false false None room)])%list /\
   exists line, messages s' = log_message (messages s) line) /\
  (r <> Rerun -> s' = s).
Proof.
  simpl. unfold add_table_button, od_mem.
  destruct (decide (id = "")) as [->|Hid]; simpl.
  { split_and!; try done. split; [done|]. by intros [? _]. }
  destruct (od_get id (tables (planner s))) as [rec0|] eqn:Hget; simpl.
  { split_and!; try done. split; [done|]. by intros [_ ?]. }
  split_and!; try done.
  - intros k rec Hk. rewrite od_get_set_ne; [done|]. intros <-. congruence.
  - intros _. split; [by apply od_set_missing|by eexists].
Qed.

Lemma last_labelled_app label l1 l2 :
  last_labelled label (l1 ++ l2)
  = match last_labelled label l2 with
    | Some g => Some g
    | None => last_labelled label l1
    end.
Proof.
  induction l1 as [|p r IH]; simpl.
  - by destruct (last_labelled label l2).
  - rewrite IH. by destruct (last_labelled label l2).
Qed.

Lemma last_labelled_in label l g :
  last_labelled label l = Some g ->
  exists grp, In (g, grp) l /\ group_label grp = label.
Proof.
  induction l as [|[g0 grp0] r IH]; simpl; [done|].
  destruct (last_labelled label r) as [g'|].
  - intros [= ->]. destruct (IH eq_refl) as (grp & ? & ?). exists grp. by split; [right|].
  - destruct (decide (group_label grp0 = label)); [|done].
    intros [= ->]. exists grp0. by split; [left|].
Qed.

Lemma group_options_fold l acc label :
  od_get label (fold_left (fun acc p => od_set (group_label p.2) p.1 acc) l acc)
  = match last_labelled label l with
    | Some g => Some g
    | None => od_get label acc
    end.
Proof.
  replace l with (rev (rev l)) by apply rev_involutive.
  induction (rev l) as [|p r IH]; simpl; [done|].
  rewrite fold_left_app, last_labelled_app. simpl.
  rewrite od_get_set.
  destruct (decide (group_label p.2 = label)); [done|]. apply IH.
Qed.

(** X24. The "Select Group" box cannot tell two waiting groups with the
    same name and size apart: [group_options] maps a label to the last
    group that carries it, so of two groups with one label the earlier one
    is selected by no label at all and cannot be assigned by hand. *)
Theorem group_options_same_label st pre g1 grp1 mid g2 grp2 post :
  NoDup (groups st).*1 ->
  groups st = (pre ++ (g1, grp1) :: mid ++ (g2, grp2) :: post)%list ->
  group_label grp1 = group_label grp2 ->
  od_get (group_label grp1) (group_options st) <> Some g1 /\
  forall label, od_get label (group_options st) <> Some g1.
Proof.
  intros Hnd Hgroups Hlabel.
  assert (forall label, od_get label (group_options st) <> Some g1) as Hno; [|by split].
  intros label. unfold group_options. rewrite group_options_fold. simpl.
  rewrite Hgroups in *. clear Hgroups.
  rewrite fmap_app in Hnd. csimpl in Hnd. rewrite fmap_app in Hnd. csimpl in Hnd.
  apply NoDup_app in Hnd as (_ & Hpre & Hnd).
  apply NoDup_cons in Hnd as (Hlater & _).
  rewrite elem_of_app, elem_of_cons in Hlater.
  assert (forall grp, In (g1, grp) pre -> False) as Hnpre.
  { intros grp Hin. apply (Hpre g1).
    - apply list_elem_of_fmap. exists (g1, grp). split; [done|by apply list_elem_of_In].
    - left. }
  assert (forall grp, In (g1, grp) mid -> False) as Hnmid.
  { intros grp Hin. apply Hlater. left.
    apply list_elem_of_fmap. exists (g1, grp). split; [done|by apply list_elem_of_In]. }
  assert (forall grp, In (g1, grp) ((g2, grp2) :: post) -> False) as Hnpost.
  { intros grp [[= -> ->]|Hin]; apply Hlater; right; [by left|right].
    apply list_elem_of_fmap. exists (g1, grp). split; [done|by apply list_elem_of_In]. }
  rewrite last_labelled_app. cbn [last_labelled].
  rewrite last_labelled_app.
  destruct (last_labelled label ((g2, grp2) :: post)) as [g|] eqn:Hpost.
  { intros [= ->]. apply last_labelled_in in Hpost as (grp & Hin & _). by eapply Hnpost. }
  destruct (last_labelled label mid) as [g|] eqn:Hmid.
  { intros [= ->]. apply last_labelled_in in Hmid as (grp & Hin & _). by eapply Hnmid. }
  assert (group_label grp2 <> label) as Hne.
  { intros Heq. simpl in Hpost. destruct (last_labelled label post); [done|].
    by rewrite decide_True in Hpost. }
  simpl. rewrite decide_False by congruence.
  destruct (last_labelled label pre) as [g|] eqn:Hp; [|done].
  intros [= ->]. apply last_labelled_in in Hp as (grp & Hin & _). by eapply Hnpre.
Qed.

(** X25. The "Select Table" box offers no engaged table: after
    [find_best_table_for_group] has combined tables, neither the
    combination nor any of its parts is among [table_options], and every
    table that is offered is a table of the registry without ['+'] whose
    record is not marked combined. *)
Theorem table_options_after_combination st size g cid o st' :
  NoDup (tables st).*1 ->
  find_best_table_for_group st size g = Ret (Some cid, true, o) st' ->
  (cid ∉ table_options st') /\
  (forall c, c ∈ default [] o -> c ∉ table_options st') /\
  (forall t, t ∈ table_options st' ->
     contains_plus t = false /\ plain st' t /\ od_get t (tables st') <> None).
Proof.
  intros Hnd Hfind.
  assert (forall t, t ∈ table_options st' ->
            contains_plus t = false /\ plain st' t /\ od_get t (tables st') <> None) as Hopt.
  { intros t Ht. unfold table_options in Ht.
    apply list_elem_of_In, filter_In in Ht as (Hin & Hok).
    apply andb_true_iff in Hok as (Hp%negb_true_iff & Hc%negb_true_iff).
    split_and!; [done| |].
    - intros rec Hrec. by rewrite Hrec in Hc.
    - apply list_elem_of_In, list_elem_of_fmap in Hin as ([t0 rec] & -> & Hin).
      by eapply od_get_is_key, list_elem_of_In. }
  destruct (find_combination_facts _ _ _ _ _ _ Hnd Hfind)
    as (comps & room & -> & -> & Hplus & _ & _ & Hcomps & _).
  split_and!; [| |done].
  - intros (Hp & _)%Hopt. congruence.
  - intros c Hc (_ & Hplain & _)%Hopt.
    destruct (Hcomps c Hc) as (rec & _ & _ & _ & _ & Hm).
    by specialize (Hplain _ Hm).
Qed.

(** ** Invariants of careful use *)


(** X27. In every state reached by careful calls the combinations are
    well formed: every key of [combined_tables] contains ['+'] and names a
    table marked combined; every part is a table without ['+'], marked
    combined, with no group assigned; and no table is a part of two
    combinations. *)
Theorem careful_planner_combinations st :
  rtc careful_call init st ->
  forall cid comps, combined_tables st !! cid = Some comps ->
    contains_plus cid = true /\
    (exists rec, od_get cid (tables st) = Some rec /\ Table.combined rec = true) /\
    (forall c, c ∈ comps ->
       contains_plus c = false /\ assigned st c = [] /\
       exists rec, od_get c (tables st) = Some rec /\ Table.combined rec = true) /\
    (forall cid' comps' c, combined_tables st !! cid' = Some comps' ->
       c ∈ comps -> c ∈ comps' -> cid' = cid).
Proof.
  intros ([_ _ Hempty Hmarked Hdisj _] & _ & Hreg)%careful_reachable_sound cid comps Hcid.
  destruct (Hreg _ _ Hcid) as (Hplus & Hrec). split_and!; try done.
  - intros c Hc. destruct (Hmarked _ _ _ Hcid Hc) as (Hp & rec & Hget & Hcomb).
    split_and!; [done| |by exists rec]. by eapply Hempty.
  - intros cid' comps' c Hcid' Hc Hc'. by eapply Hdisj.
Qed.

(** X28. In every state reached by careful calls the assignment lists
    agree with the ledger: a group listed at a table is not waiting and is
    listed at no other table. *)
Theorem careful_planner_listing st :
  rtc careful_call init st ->
  forall t g, g ∈ assigned st t ->
    od_get g (groups st) = None /\
    (forall t', g ∈ assigned st t' -> t' = t).
Proof.
  intros (_ & [Hnw Honce _ _] & _)%careful_reachable_sound t g Hin.
  split; [by eapply Hnw|]. intros t' Hin'. by eapply Honce.
Qed.

(** ** Sorting *)

(** X29. The sort used for the waiting groups and for the free tables of
    a room rearranges its list, puts larger keys first, and keeps entries
    with equal keys in their order. *)
Theorem sort_desc_stable_sort {A : Type} (key : A -> Z) (l : list A) :
  sort_desc key l ≡ₚ l /\
  StronglySorted (fun a b => key b <= key a) (sort_desc key l) /\
  (forall k, List.filter (fun a => key a =? k) (sort_desc key l)
             = List.filter (fun a => key a =? k) l).
Proof.
  split_and!.
  - apply sort_desc_perm.
  - apply sort_desc_sorted.
  - intros k. apply sort_desc_stable.
Qed.

Lemma log_message_bound {A : Type} (log : list A) (m : A) :
  (length log <= 10)%nat -> (length (log_message log m) <= 10)%nat.
Proof.
  intros Hlen. unfold log_message. rewrite length_app. simpl.
  destruct (10 <? Z.of_nat (length log + 1)) eqn:H.
  - destruct log as [|x r]; simpl in *; [lia|]. rewrite length_app. simpl. lia.
  - apply Z.ltb_ge in H. rewrite length_app. simpl. lia.
Qed.

Lemma selected_group_waiting st label g :
  selected_group_id st label = Some g -> od_get g (groups st) <> None.
Proof.
  unfold selected_group_id, group_options.
  destruct (groups st) as [|p r] eqn:Hg; [done|]. rewrite <- Hg.
  rewrite group_options_fold. simpl.
  destruct (last_labelled label (groups st)) as [g'|] eqn:Hl; [|done].
  intros [= ->]. apply last_labelled_in in Hl as (grp & Hin & _).
  by eapply od_get_is_key.
Qed.

Lemma table_options_plain st t :
  t ∈ table_options st ->
  exists rec, od_get t (tables st) = Some rec /\
              contains_plus t = false /\ Table.combined rec = false.
Proof.
  unfold table_options. intros Ht.
  apply list_elem_of_In, filter_In in Ht as (Hin & Hok).
  apply andb_true_iff in Hok as (Hp%negb_true_iff & Hc%negb_true_iff).
  apply list_elem_of_In, list_elem_of_fmap in Hin as ([t0 rec0] & -> & Hin).
  apply list_elem_of_In, od_get_is_key in Hin. simpl in *.
  destruct (od_get t0 (tables st)) as [rec|]; [|done]. by exists rec.
Qed.

(** X30. Every press of a button is a call the engine sees with the
    checks of the front end in force: the add, remove, assign, rename and
    leave handlers either leave the planner as it is or make one such
    call.  In particular the id chosen by label is a waiting group and the
    table chosen is an unengaged table of the registry.  Each handler logs
    at most one line through [log_message], so a log within ten lines
    stays within ten. *)
Theorem press_is_ui_call s s' :
  press s s' ->
  (planner s' = planner s \/ ui_call (planner s) (planner s')) /\
  ((length (messages s) <= 10)%nat -> (length (messages s') <= 10)%nat).
Proof.
  intros Hpress.
  destruct Hpress as [s id cap room Hcap|s id|s name size Hsize|s label t Ht
                     |s g n|s g Hg].
  - unfold add_table_button, od_mem.
    destruct (decide (id = "")); [by split; [left|]|].
    destruct (od_get id (tables (planner s))) eqn:Hid; [by split; [left|]|].
    simpl. split; [|apply log_message_bound].
    right. by apply ui_add_table.
  - unfold remove_table_button.
    destruct (od_mem id (tables (planner s))) eqn:Hid; [|by split; [left|]].
    simpl. split; [|apply log_message_bound].
    right. by apply ui_remove_table.
  - unfold add_group_button.
    pose proof (ui_add_guests (planner s) size (Some name) Hsize) as Hcall.
    destruct (add_guests (planner s) size (Some name)) as [g st]. simpl in *.
    split; [by right|apply log_message_bound].
  - unfold assign_button.
    destruct (selected_group_id (planner s) label) as [g|] eqn:Hsel; [|by split; [left|]].
    apply selected_group_waiting in Hsel.
    destruct t as [t|].
    + apply table_options_plain in Ht as (rec & Hrec & Hplus & Hcomb).
      assert (ui_call (planner s) (seat_guests (planner s) g t).2) as Hcall.
      { eapply ui_seat_guests; try done. unfold od_mem.
        by destruct (od_get g (groups (planner s))). }
      destruct (seat_guests (planner s) g t) as [[ok msg] st]. simpl in *.
      split; [by right|apply log_message_bound].
    + simpl. split; [by left|apply log_message_bound].
  - unfold rename_button.
    pose proof (ui_rename (planner s) g n) as Hcall.
    destruct (rename_group (planner s) g n) as [[] st]; simpl in *.
    + split; [by right|apply log_message_bound].
    + split; [by right|done].
  - unfold mark_left_button.
    pose proof (ui_mark_group_left (planner s) g Hg) as Hcall.
    destruct (mark_group_left (planner s) g) as [[ok msg] st|st]; simpl in *.
    + split; [by right|apply log_message_bound].
    + split; [by right|done].
Qed.

(** ** The properties on the scenarios *)

Lemma rejected_call_keeps_state_witness :
  (seat_guests st_couple 2 "T1").1 = InsufficientSpace /\
  (seat_guests st_couple 2 "T1").2 = st_couple.
Proof.
  split; [reflexivity|].
  apply (rejected_call_keeps_state st_couple).
  apply (failed_seat st_couple 2 "T1" "Not enough space at table").
  vm_compute. reflexivity.
Defined.

Lemma seat_on_component_succeeds_witness :
  combined_tables st_abc_second !! "A+B+C" = Some ["A"; "B"; "C"] /\
  exists st',
    seat_guests st_abc_second 2 "A" = (SeatedOk, st') /\
    assigned st' "A" = [2] /\
    seated_groups st' !! 2 = Some (Seated.mk 2 "Group 2" "A") /\
    od_get 2 (groups st') = None.
Proof.
  split; [reflexivity|].
  apply (seat_on_component_succeeds st_abc_second 2 "A"
           (Table.mk 2 true true None "R") (Group.mk 2 "Group 2"));
    reflexivity.
Defined.

Lemma release_sole_occupant_tears_down_witness :
  exists st',
    mark_group_left st_abc_seated 1 = Ret (true, "Group marked as left") st' /\
    od_get "A+B+C" (tables st') = None /\
    assignments st' !! "A+B+C" = None /\
    combined_tables st' !! "A+B+C" = None /\
    seated_groups st' !! 1 = None /\
    (forall c r, c ∈ ["A"; "B"; "C"] -> c <> "A+B+C" ->
       od_get c (tables st_abc_seated) = Some r ->
       od_get c (tables st') = Some (released r)) /\
    (forall c r, c ∈ ["A"; "B"; "C"] -> od_get c (tables st') = Some r ->
       Table.occupied r = false /\ Table.combined r = false).
Proof.
  apply (release_sole_occupant_tears_down st_abc_seated 1
           (Seated.mk 5 "Group 1" "A+B+C") "A+B+C" ["A"; "B"; "C"]
           (Table.mk 6 true true (Some ["A"; "B"; "C"]) "R"));
    reflexivity.
Defined.

Lemma seat_then_release_restores_witness :
  exists st2,
    mark_group_left (seat_guests st_couple 3 "T1").2 3
      = Ret (true, "Group marked as left") st2 /\
    od_get "T1" (tables st2) = Some (Table.mk 4 true false None "GREENROOM") /\
    assigned st2 "T1" = assigned st_couple "T1".
Proof.
  apply (seat_then_release_restores st_couple 3 "T1"
           (Table.mk 4 true false None "GREENROOM") (Group.mk 1 "Group 3")).
  - reflexivity.
  - reflexivity.
  - split; [intros _; vm_compute; discriminate | reflexivity].
  - reflexivity.
  - vm_compute. intros H. apply list_elem_of_singleton in H. discriminate.
  - vm_compute. reflexivity.
Defined.


Lemma st_couple_careful : rtc careful_call init st_couple.
Proof.
  unfold st_couple.
  eapply rtc_l; [by apply (careful_add_table init "T1" 4 "GREENROOM")|].
  eapply rtc_l; [apply (careful_add_guests _ 2 (Some "Ann and Bob"))|].
  eapply rtc_l.
  { apply (careful_seat_guests _ 1 "T1"). intros rec H. vm_compute in H.
    injection H as <-. reflexivity. }
  eapply rtc_l; [apply (careful_add_guests _ 3 None)|].
  eapply rtc_l; [apply (careful_add_guests _ 1 None)|].
  apply rtc_refl.
Defined.

Lemma plain_tables_flag_matches_witness :
  Table.occupied (Table.mk 4 true false None "GREENROOM") = true
  <-> assigned st_couple "T1" <> [].
Proof.
  apply (plain_tables_flag_matches st_couple "T1").
  - apply st_couple_careful.
  - reflexivity.
  - reflexivity.
Defined.

(** ** The further properties on the scenarios *)

Lemma reachable_ledger_witness :
  (forall g, od_get g (groups st_abc_seated) <> None ->
             seated_groups st_abc_seated !! g = None) /\
  (forall g,
     od_get g (groups st_abc_seated) <> None
     \/ is_Some (seated_groups st_abc_seated !! g)
     \/ (exists t, g ∈ assigned st_abc_seated t) ->
     g < next_group_id st_abc_seated).
Proof.
  apply (reachable_ledger st_abc_seated). apply st_abc_seated_reachable.
Defined.

Lemma mark_group_left_never_raises_witness :
  exists r st', mark_group_left st_abc_seated 1 = Ret r st'.
Proof.
  apply (mark_group_left_never_raises st_abc_seated 1). apply st_abc_seated_reachable.
Defined.

Lemma add_guests_fresh_id_witness :
  let g := (add_guests st_abc_seated 2 None).1 in
  let st' := (add_guests st_abc_seated 2 None).2 in
  g = next_group_id st_abc_seated /\
  od_get g (groups st_abc_seated) = None /\
  seated_groups st_abc_seated !! g = None /\
  (forall t, g ∉ assigned st_abc_seated t) /\
  next_group_id st' = g + 1 /\
  Group.size <$> od_get g (groups st') = Some 2 /\
  (forall g', g' <> g -> od_get g' (groups st') = od_get g' (groups st_abc_seated)) /\
  seated_groups st' = seated_groups st_abc_seated.
Proof.
  apply (add_guests_fresh_id st_abc_seated 2 None). apply st_abc_seated_reachable.
Defined.

Lemma mark_group_left_twice_witness :
  mark_group_left (state_of (mark_group_left st_abc_seated 1)) 1
  = Ret (false, "Group not found or not seated")
        (state_of (mark_group_left st_abc_seated 1)).
Proof.
  apply (mark_group_left_twice st_abc_seated 1 "Group marked as left").
  vm_compute. reflexivity.
Defined.

Lemma remove_table_requeues_witness :
  let st' := remove_table st_couple "T1" in
  od_get "T1" (tables st') = None /\
  assignments st' !! "T1" = None /\
  (forall g s, g ∈ assigned st_couple "T1" -> seated_groups st_couple !! g = Some s ->
     od_get g (groups st') = Some (Group.mk (Seated.size s) (Seated.name s)) /\
     seated_groups st' !! g = None) /\
  (forall g, g ∉ assigned st_couple "T1" ->
     od_get g (groups st') = od_get g (groups st_couple) /\
     seated_groups st' !! g = seated_groups st_couple !! g).
Proof.
  apply (remove_table_requeues st_couple "T1"). vm_compute. discriminate.
Defined.

Lemma rename_group_round_trip_witness :
  (rename_group st_couple 2 "Carol").1 = true /\
  rename_group (rename_group st_couple 2 "Carol").2 2 "Group 2" = (true, st_couple).
Proof.
  apply (rename_group_round_trip st_couple 2 "Group 2" "Carol").
  left. vm_compute. reflexivity.
Defined.


Lemma default_planner_capacities id rec :
  In (id, rec) (tables default_planner) -> 0 <= Table.capacity rec.
Proof.
  intros H. unfold default_planner in H. simpl in H.
  repeat (destruct H as [H|H]; [injection H as <- <-; simpl; lia|]).
  destruct H.
Defined.

Lemma default_planner_keys : NoDup (tables default_planner).*1.
Proof. apply (bool_decide_unpack _). by vm_compute. Defined.

Lemma find_nothing_iff_witness :
  find_best_table_for_group default_planner 100 1 = Ret (None, false, None) default_planner
  <->
  (forall id rec, In (id, rec) (tables default_planner) -> free (id, rec) = true ->
     free_capacity (tables default_planner) (Table.room rec) < 100).
Proof.
  apply (find_nothing_iff default_planner 100 1). apply default_planner_capacities.
Defined.


Lemma combined_parts_not_found_again_witness :
  ("T4+T6+T7" ∉ ["T3A"; "T2"]) /\ (true = false -> "T4+T6+T7" <> "T3A+T2") /\
  (forall x, x ∈ default [] (Some ["T4"; "T6"; "T7"]) ->
             (x ∉ ["T3A"; "T2"]) /\ x <> "T3A+T2").
Proof.
  apply (combined_parts_not_found_again default_planner 10 1 "T3A+T2" ["T3A"; "T2"]
           st_pub_ten 10 2 "T4+T6+T7" true (Some ["T4"; "T6"; "T7"])
           (state_of (find_best_table_for_group st_pub_ten 10 2))).
  - apply default_planner_keys.
  - vm_compute. reflexivity.
  - vm_compute. reflexivity.
Defined.

Lemma st_pub_party_keys : NoDup (tables st_pub_party).*1.
Proof. apply (bool_decide_unpack _). by vm_compute. Defined.

Lemma find_then_seat_guests_witness :
  exists rec,
    od_get "T3A+T2"
      (tables (state_of (find_best_table_for_group st_pub_party 10 1))) = Some rec /\
    seat_guests (state_of (find_best_table_for_group st_pub_party 10 1)) 1 "T3A+T2"
    = (SeatedOk,
       seated_state (state_of (find_best_table_for_group st_pub_party 10 1))
                    "T3A+T2" rec 1 10 "Group 1") /\
    seat_found (state_of (find_best_table_for_group st_pub_party 10 1))
               "T3A+T2" 1 10 "Group 1"
    = Ret tt (seated_state (state_of (find_best_table_for_group st_pub_party 10 1))
                           "T3A+T2" rec 1 10 "Group 1").
Proof.
  apply (find_then_seat_guests st_pub_party 1 (Group.mk 10 "Group 1") "T3A+T2" true
           (Some ["T3A"; "T2"])).
  - apply st_pub_party_keys.
  - vm_compute. reflexivity.
  - vm_compute. reflexivity.
Defined.

Lemma optimize_seating_largest_first_witness :
  let st' := (state_of (optimize_seating st_pub_party [])).1 in
  In (1, Group.mk 10 "Group 1") (groups st_pub_party) /\
  (forall g' d', In (g', d') (groups st_pub_party) -> Group.size d' <= 10) /\
  od_get 1 (groups st') = None /\
  seated_groups st' !! 1 = Some (Seated.mk 10 "Group 1" "T3A+T2").
Proof.
  apply (optimize_seating_largest_first st_pub_party [] 1 (Group.mk 10 "Group 1") []
           "T3A+T2" true (Some ["T3A"; "T2"])
           (state_of (find_best_table_for_group st_pub_party 10 1))).
  - vm_compute. reflexivity.
  - vm_compute. reflexivity.
  - discriminate.
Defined.

Lemma optimize_seating_empty_id_witness :
  optimize_seating st_blank [] = Ret None (st_blank, []).
Proof.
  apply (optimize_seating_empty_id st_blank []).
  intros g d H. simpl in H. destruct H as [H|H]; [|destruct H].
  injection H as <- <-. vm_compute. reflexivity.
Defined.

Lemma st_couple_sized : rtc sized_call init st_couple.
Proof.
  unfold st_couple.
  eapply rtc_l; [apply (sized_add_table init "T1" 4 "GREENROOM"); [reflexivity|lia]|].
  eapply rtc_l; [apply (sized_add_guests _ 2 (Some "Ann and Bob")); lia|].
  eapply rtc_l.
  { apply (sized_seat_guests _ 1 "T1"). intros rec H. vm_compute in H.
    injection H as <-. reflexivity. }
  eapply rtc_l; [apply (sized_add_guests _ 3 None); lia|].
  eapply rtc_l; [apply (sized_add_guests _ 1 None); lia|].
  apply rtc_refl.
Defined.

Lemma get_table_utilization_bounds_witness :
  (get_table_utilization st_couple "T1").1 = Percent 2 4 /\
  Table.capacity <$> od_get "T1" (tables st_couple) = Some 4 /\
  2 = guests_at st_couple "T1" /\
  0 < 4 /\ 0 <= 2 <= 4.
Proof.
  assert ((get_table_utilization st_couple "T1").1 = Percent 2 4) as Hu
    by (vm_compute; reflexivity).
  split; [exact Hu|].
  destruct (proj2 (get_table_utilization_bounds st_couple "T1") 2 4 Hu)
    as (Hc & Ho & Hpos & Hbound).
  split; [exact Hc|]. split; [exact Ho|]. split; [exact Hpos|].
  apply Hbound. apply sized_reachable_capacity, st_couple_sized.
Defined.

Lemma get_overall_utilization_bounds_witness :
  (get_overall_utilization st_couple).1 = Percent 2 4 /\
  4 = sum_list (map (fun p => Table.capacity p.2) (tables st_couple)) /\
  2 = sum_list (map (fun t => guests_at st_couple t) (tables st_couple).*1) /\
  0 < 4 /\ 0 <= 2 <= 4.
Proof.
  assert ((get_overall_utilization st_couple).1 = Percent 2 4) as Hu
    by (vm_compute; reflexivity).
  split; [exact Hu|].
  destruct (proj2 (get_overall_utilization_bounds st_couple) 2 4 Hu)
    as (Hc & Ho & Hpos & Hbound).
  split; [exact Hc|]. split; [exact Ho|]. split; [exact Hpos|].
  apply Hbound.
  - apply (bool_decide_unpack _). by vm_compute.
  - apply sized_reachable_capacity, st_couple_sized.
Defined.

Lemma combination_counted_twice_witness :
  exists rec,
    od_get "T3A+T2" (tables st_pub_ten) = Some rec /\
    10 <= Table.capacity rec /\
    Table.capacity rec
    = sum_list (map (fun c => default 0 (Table.capacity <$>
                                          od_get c (tables default_planner)))
                    (default [] (Some ["T3A"; "T2"]))) /\
    total_capacity (tables st_pub_ten)
    = total_capacity (tables default_planner) + Table.capacity rec.
Proof.
  apply (combination_counted_twice default_planner 10 1 "T3A+T2" (Some ["T3A"; "T2"])
           st_pub_ten).
  - apply default_planner_keys.
  - vm_compute. reflexivity.
  - vm_compute. reflexivity.
Defined.

Lemma group_options_same_label_witness :
  od_get (group_label (Group.mk 2 "Smith")) (group_options st_twins) <> Some 1 /\
  forall label, od_get label (group_options st_twins) <> Some 1.
Proof.
  apply (group_options_same_label st_twins [] 1 (Group.mk 2 "Smith") []
           2 (Group.mk 2 "Smith") []).
  - apply (bool_decide_unpack _). by vm_compute.
  - vm_compute. reflexivity.
  - reflexivity.
Defined.

Lemma table_options_after_combination_witness :
  ("T3A+T2" ∉ table_options st_pub_ten) /\
  (forall c, c ∈ default [] (Some ["T3A"; "T2"]) -> c ∉ table_options st_pub_ten) /\
  (forall t, t ∈ table_options st_pub_ten ->
     contains_plus t = false /\ plain st_pub_ten t /\
     od_get t (tables st_pub_ten) <> None).
Proof.
  apply (table_options_after_combination default_planner 10 1 "T3A+T2"
           (Some ["T3A"; "T2"]) st_pub_ten).
  - apply default_planner_keys.
  - vm_compute. reflexivity.
Defined.


Lemma st_abc_seated_careful : rtc careful_call init st_abc_seated.
Proof.
  unfold st_abc_seated, st_abc_five, st_abc.
  eapply rtc_l; [by apply (careful_add_table init "A" 2 "R")|].
  eapply rtc_l; [by apply (careful_add_table _ "B" 2 "R")|].
  eapply rtc_l; [by apply (careful_add_table _ "C" 2 "R")|].
  eapply rtc_l; [apply (careful_add_guests _ 5 None)|].
  eapply rtc_l; [apply (careful_optimize _ [])|].
  apply rtc_refl.
Defined.

Lemma careful_planner_combinations_witness :
  contains_plus "A+B+C" = true /\
  (exists rec, od_get "A+B+C" (tables st_abc_seated) = Some rec /\
               Table.combined rec = true) /\
  (forall c, c ∈ ["A"; "B"; "C"] ->
     contains_plus c = false /\ assigned st_abc_seated c = [] /\
     exists rec, od_get c (tables st_abc_seated) = Some rec /\
                 Table.combined rec = true) /\
  (forall cid' comps' c, combined_tables st_abc_seated !! cid' = Some comps' ->
     c ∈ ["A"; "B"; "C"] -> c ∈ comps' -> cid' = "A+B+C").
Proof.
  apply (careful_planner_combinations st_abc_seated).
  - apply st_abc_seated_careful.
  - reflexivity.
Defined.

Lemma careful_planner_listing_witness :
  od_get 1 (groups st_abc_seated) = None /\
  (forall t', 1 ∈ assigned st_abc_seated t' -> t' = "A+B+C").
Proof.
  apply (careful_planner_listing st_abc_seated).
  - apply st_abc_seated_careful.
  - vm_compute. left.
Defined.

Lemma press_is_ui_call_witness :
  (planner (add_table_button session0 "T10" 4 "RESTAURANT").1 = planner session0 \/
   ui_call (planner session0)
           (planner (add_table_button session0 "T10" 4 "RESTAURANT").1)) /\
  ((length (messages session0) <= 10)%nat ->
   (length (messages (add_table_button session0 "T10" 4 "RESTAURANT").1) <= 10)%nat).
Proof.
  apply (press_is_ui_call session0).
  apply (press_add_table session0 "T10" 4 "RESTAURANT"). lia.
Defined.
